(** * DSA_MAZE_SOLVER: the maze generator and the A* search

    A shallow embedding of [DSA_MAZE_SOLVER.py] and the proofs of its
    properties.  A maze is the list of rows of [MazeNode] objects built by
    [generate_random_maze]; a node object is identified with its index pair
    (row, col), the value its constructor stores and nothing changes, so a
    reference to a node ([node.left], the third component of a queue entry,
    [start_node]) is the coordinate of the node it refers to, and the
    identity test [!=] is coordinate disequality.

    - Python integers are [nat] where they index the maze and [Z] where the
      code subtracts ([rows - 2], [len(path) - 2], the heuristic).
    - [float('inf')] is the constructor [Infinity] of [Distance].
    - [math.sqrt] produces the only other floating point numbers of the
      program, always in a sum [g + sqrt(a)] of integers [g] and [a]; a sum
      is kept as the pair of [g] and [a] ([fval]) and compared by its exact
      value ([fval_ltb], [fval_ltb_spec]).  Rounding to doubles keeps the
      order of two sums that differ by more than the rounding error; apart
      from the heap returning a least key, the proof of the shortest path
      uses the order only through [fval_ltb_far], where the two sums differ
      by more than one half.
    - the module [random] is an explicit list of raw draws that the
      generators consume from the left ([Rand]).
    - [heapq] is CPython's array heap ([heappush], [heappop], [_siftdown],
      [_siftup]) over the comparison of the stored tuples ([entry_lt]).
    - a call has an [outcome]: it returns, raises, or does not return. *)

From Stdlib Require Import ZArith List Bool Lia Permutation.
From Stdlib Require Reals Lra Psatz ListDec.
From stdpp Require Import base list.

Local Open Scope nat_scope.

(** ** Outcomes of a call *)

Inductive exn : Type := ValueError | IndexError.

(** [Ret a]: the call returns [a]; [Raise e]: it raises [e]; [Diverge]: it
    does not return (a loop that never ends, or a recursion that has used up
    every random draw it was given). *)
Inductive outcome (A : Type) : Type :=
| Ret (a : A)
| Raise (e : exn)
| Diverge.
Arguments Ret {A} a.
Arguments Raise {A} e.
Arguments Diverge {A}.

(** ** The module [random] *)

(** A computation that consumes raw draws. *)
Definition Rand (A : Type) : Type := list nat -> outcome (A * list nat).

Definition rret {A} (a : A) : Rand A := fun ds => Ret (a, ds).

Definition rbind {A B} (c : Rand A) (k : A -> Rand B) : Rand B :=
  fun ds =>
    match c ds with
    | Ret (a, ds') => k a ds'
    | Raise e => Raise e
    | Diverge => Diverge
    end.

Notation "x <- c ;; k" := (rbind c (fun x => k))
  (at level 100, c at next level, right associativity).

(** [random.randint(a, b)]: an integer of [a..b], [ValueError] when the range
    is empty.  Every value of the range is the image of some raw draw. *)
Definition randint (a b : Z) : Rand Z :=
  fun ds =>
    if (b <? a)%Z then Raise ValueError
    else match ds with
         | [] => Diverge
         | d :: ds' => Ret ((a + Z.of_nat d mod (b - a + 1))%Z, ds')
         end.

(** [random.choice(seq)] on a non-empty sequence given by its first element
    and the rest. *)
Definition choice {A} (x : A) (xs : list A) : Rand A :=
  fun ds =>
    match ds with
    | [] => Diverge
    | d :: ds' => Ret (nth (d mod S (length xs)) (x :: xs) x, ds')
    end.

(** ** MazeNode and the maze *)

Abbreviation coord := (nat * nat)%type.

Definition coord_eqb (a b : coord) : bool :=
  (fst a =? fst b) && (snd a =? snd b).

Inductive Distance : Type :=
| Finite (g : nat)
| Infinity.

(** [a < b] on distances. *)
Definition dist_ltb (a b : Distance) : bool :=
  match a, b with
  | Finite x, Finite y => x <? y
  | Finite _, Infinity => true
  | Infinity, _ => false
  end.

Record MazeNode : Type := mkNode {
  left : option coord;
  right : option coord;
  up : option coord;
  down : option coord;
  distance : Distance;
  visited : bool;
  is_enemy : bool
}.

(** [MazeNode(row, col)] *)
Definition new_node : MazeNode :=
  mkNode None None None None Infinity false false.

Abbreviation Maze := (list (list MazeNode)).

(** [maze[row][col]] *)
Definition node_at (maze : Maze) (p : coord) : option MazeNode :=
  match maze !! fst p with
  | Some r => r !! snd p
  | None => None
  end.

(** An attribute assignment [maze[row][col].attr = v]. *)
Definition upd_node (f : MazeNode -> MazeNode) (p : coord) (maze : Maze) : Maze :=
  alter (alter f (snd p)) (fst p) maze.

Definition set_left (v : option coord) (n : MazeNode) : MazeNode :=
  mkNode v (right n) (up n) (down n) (distance n) (visited n) (is_enemy n).
Definition set_right (v : option coord) (n : MazeNode) : MazeNode :=
  mkNode (left n) v (up n) (down n) (distance n) (visited n) (is_enemy n).
Definition set_up (v : option coord) (n : MazeNode) : MazeNode :=
  mkNode (left n) (right n) v (down n) (distance n) (visited n) (is_enemy n).
Definition set_down (v : option coord) (n : MazeNode) : MazeNode :=
  mkNode (left n) (right n) (up n) v (distance n) (visited n) (is_enemy n).
Definition set_distance (v : Distance) (n : MazeNode) : MazeNode :=
  mkNode (left n) (right n) (up n) (down n) v (visited n) (is_enemy n).
Definition set_visited (v : bool) (n : MazeNode) : MazeNode :=
  mkNode (left n) (right n) (up n) (down n) (distance n) v (is_enemy n).
Definition set_is_enemy (v : bool) (n : MazeNode) : MazeNode :=
  mkNode (left n) (right n) (up n) (down n) (distance n) (visited n) v.

(** Attribute reads through a reference.  A reference held by the program
    always denotes a node of the maze; the defaults are never read there. *)
Definition distance_of (maze : Maze) (p : coord) : Distance :=
  match node_at maze p with Some n => distance n | None => Infinity end.
Definition visited_of (maze : Maze) (p : coord) : bool :=
  match node_at maze p with Some n => visited n | None => false end.
Definition enemy_of (maze : Maze) (p : coord) : bool :=
  match node_at maze p with Some n => is_enemy n | None => false end.

(** [[node.left, node.right, node.up, node.down]] without the [None]s. *)
Definition pointers (n : MazeNode) : list coord :=
  omap (fun ptr => ptr) [left n; right n; up n; down n].

Definition neighbors (maze : Maze) (p : coord) : list coord :=
  match node_at maze p with Some n => pointers n | None => [] end.

(** ** generate_random_maze *)

(** [maze[row][col].right = maze[row][col + 1]] and
    [maze[row][col + 1].left = maze[row][col]] *)
Definition link_right (row col : nat) (maze : Maze) : Maze :=
  upd_node (set_left (Some (row, col))) (row, col + 1)
    (upd_node (set_right (Some (row, col + 1))) (row, col) maze).

(** [maze[row][col].down = maze[row + 1][col]] and
    [maze[row + 1][col].up = maze[row][col]] *)
Definition link_down (row col : nat) (maze : Maze) : Maze :=
  upd_node (set_up (Some (row, col))) (row + 1, col)
    (upd_node (set_down (Some (row + 1, col))) (row, col) maze).

(** The body of the two nested [for] loops at one cell.  [and] draws only
    when its first operand holds. *)
Definition connect_cell (rows cols row col : nat) (maze : Maze) : Rand Maze :=
  maze1 <-
    (if col <? cols - 1 then
       b <- choice true [false] ;;
       if (b : bool) then rret (link_right row col maze) else rret maze
     else rret maze) ;;
  if row <? rows - 1 then
    b <- choice true [false] ;;
    if (b : bool) then rret (link_down row col maze1) else rret maze1
  else rret maze1.

(** [for x in xs: maze = body(x, maze)] *)
Fixpoint for_each {X S} (xs : list X) (body : X -> S -> Rand S) (s : S) : Rand S :=
  match xs with
  | [] => rret s
  | x :: xs' => s' <- body x s ;; for_each xs' body s'
  end.

Definition place_enemy (rows cols : nat) (_ : nat) (maze : Maze) : Rand Maze :=
  enemy_row <- randint 0 (Z.of_nat rows - 1) ;;
  enemy_col <- randint 0 (Z.of_nat cols - 1) ;;
  rret (upd_node (set_is_enemy true) (Z.to_nat enemy_row, Z.to_nat enemy_col) maze).

Definition generate_random_maze (rows cols num_enemies : nat) : Rand Maze :=
  let maze := replicate rows (replicate cols new_node) in
  maze1 <- for_each (seq 0 rows)
             (fun row => for_each (seq 0 cols) (connect_cell rows cols row)) maze ;;
  for_each (seq 0 num_enemies) (place_enemy rows cols) maze1.

(** ** Border points *)

Definition generate_start_on_border (rows cols : Z) : Rand (Z * Z) :=
  r <- randint 1 (rows - 2) ;; rret (r, 0%Z).

Inductive side : Type := top | bottom | lft | rgt.

(** The recursive call draws again; the recursion is on the raw draws, each
    call using at least one. *)
Fixpoint generate_end_on_border (rows cols : Z) (start : Z * Z) (ds : list nat)
  : outcome ((Z * Z) * list nat) :=
  match ds with
  | [] => Diverge
  | d :: ds' =>
      match nth (d mod 4) [top; bottom; lft; rgt] top with
      | top =>
          if negb (fst start =? 0)%Z
          then (c <- randint 1 (cols - 2) ;; rret (0%Z, c)) ds'
          else generate_end_on_border rows cols start ds'
      | bottom =>
          if negb (fst start =? rows - 1)%Z
          then (c <- randint 1 (cols - 2) ;; rret ((rows - 1)%Z, c)) ds'
          else generate_end_on_border rows cols start ds'
      | lft =>
          if negb (snd start =? 0)%Z
          then (r <- randint 1 (rows - 2) ;; rret (r, 0%Z)) ds'
          else generate_end_on_border rows cols start ds'
      | rgt =>
          if negb (snd start =? cols - 1)%Z
          then (r <- randint 1 (rows - 2) ;; rret (r, (cols - 1)%Z)) ds'
          else generate_end_on_border rows cols start ds'
      end
  end.

(** ** heapq *)

Section Heapq.
Context {A : Type}.
(** [a < b] as the stored items define it. *)
Variable lt : A -> A -> bool.

(** The loop of [_siftdown(heap, startpos, pos)]: [newitem] moves towards
    the root while it is smaller than the parent of the free slot [pos]. *)
Fixpoint siftdown_loop (fuel : nat) (heap : list A) (startpos pos : nat)
    (newitem : A) : list A :=
  match fuel with
  | O => <[pos := newitem]> heap
  | S fuel' =>
      if startpos <? pos then
        let parentpos := Nat.div2 (pos - 1) in
        match heap !! parentpos with
        | Some parent =>
            if lt newitem parent
            then siftdown_loop fuel' (<[pos := parent]> heap) startpos parentpos newitem
            else <[pos := newitem]> heap
        | None => <[pos := newitem]> heap
        end
      else <[pos := newitem]> heap
  end.

Definition siftdown (heap : list A) (startpos pos : nat) : list A :=
  match heap !! pos with
  | Some newitem => siftdown_loop pos heap startpos pos newitem
  | None => heap
  end.

(** The loop of [_siftup(heap, pos)]: the smaller child moves up into the
    free slot until a leaf is reached; [newitem] is put there and sifted
    down from the leaf. *)
Fixpoint siftup_loop (fuel : nat) (heap : list A) (endpos startpos pos : nat)
    (newitem : A) : list A :=
  match fuel with
  | O => siftdown (<[pos := newitem]> heap) startpos pos
  | S fuel' =>
      let childpos := 2 * pos + 1 in
      if childpos <? endpos then
        let rightpos := childpos + 1 in
        let childpos' :=
          match heap !! childpos, heap !! rightpos with
          | Some c, Some r => if negb (lt c r) then rightpos else childpos
          | _, _ => childpos
          end in
        match heap !! childpos' with
        | Some c => siftup_loop fuel' (<[pos := c]> heap) endpos startpos childpos' newitem
        | None => siftdown (<[pos := newitem]> heap) startpos pos
        end
      else siftdown (<[pos := newitem]> heap) startpos pos
  end.

Definition siftup (heap : list A) (pos : nat) : list A :=
  match heap !! pos with
  | Some newitem => siftup_loop (length heap) heap (length heap) pos pos newitem
  | None => heap
  end.

Definition heappush (heap : list A) (item : A) : list A :=
  siftdown (heap ++ [item]) 0 (length heap).

(** [heappop] of a non-empty heap: the item returned and the heap left;
    [None] stands for the [IndexError] of the empty heap. *)
Definition heappop (heap : list A) : option (A * list A) :=
  match last heap with
  | None => None
  | Some lastelt =>
      match take (length heap - 1) heap with
      | [] => Some (lastelt, [])
      | returnitem :: rest =>
          Some (returnitem, siftup (lastelt :: rest) 0)
      end
  end.

End Heapq.

(** ** The keys of the priority queue *)

(** The number [f_int + sqrt f_rad]. *)
Record fval : Type := FVal { f_int : nat; f_rad : nat }.

(** [math.sqrt(a)] *)
Definition fsqrt (a : nat) : fval := FVal 0 a.

(** [g + x] for an integer [g] *)
Definition fadd (g : nat) (x : fval) : fval := FVal (g + f_int x) (f_rad x).

(** [x < y], decided on integers: with [d = f_int y - f_int x] the test is
    [sqrt a < d + sqrt b], squared once or twice according to the signs. *)
Definition fval_ltb (x y : fval) : bool :=
  let d := (Z.of_nat (f_int y) - Z.of_nat (f_int x))%Z in
  let a := Z.of_nat (f_rad x) in
  let b := Z.of_nat (f_rad y) in
  if (0 <=? d)%Z then
    let c := (a - d * d - b)%Z in
    (c <? 0)%Z || (c * c <? 4 * d * d * b)%Z
  else
    let c := (b - d * d - a)%Z in
    (0 <? c)%Z && (4 * d * d * a <? c * c)%Z.

(** [x == y] *)
Definition fval_eqb (x y : fval) : bool :=
  negb (fval_ltb x y) && negb (fval_ltb y x).

(** A queue entry [(f, g, node)]. *)
Record entry : Type := mkEntry { e_f : fval; e_g : nat; e_node : coord }.

(** [a < b] on the stored tuples: the first components that differ decide;
    two distinct nodes are compared by [MazeNode.__lt__], that is by their
    current [distance]. *)
Definition entry_lt (maze : Maze) (a b : entry) : bool :=
  if negb (fval_eqb (e_f a) (e_f b)) then fval_ltb (e_f a) (e_f b)
  else if negb (e_g a =? e_g b) then e_g a <? e_g b
  else if negb (coord_eqb (e_node a) (e_node b))
       then dist_ltb (distance_of maze (e_node a)) (distance_of maze (e_node b))
       else false.

(** ** astar *)

Definition heuristic (node : coord) (e : coord) : fval :=
  fsqrt (Z.abs_nat ((Z.of_nat (fst node) - Z.of_nat (fst e)) * 2
                    + (Z.of_nat (snd node) - Z.of_nat (snd e)) * 2)).

Definition reset_node (n : MazeNode) : MazeNode :=
  set_distance Infinity (set_visited false n).

Definition reset_maze (maze : Maze) : Maze :=
  (fun row : list MazeNode => reset_node <$> row) <$> maze.

(** The body of [for neighbor in filter(None, neighbors)]. *)
Definition relax (e : coord) (current_g : nat) (st : Maze * list entry)
    (neighbor : coord) : Maze * list entry :=
  let maze := fst st in
  let priority_queue := snd st in
  if negb (visited_of maze neighbor) && negb (enemy_of maze neighbor) then
    let new_g := current_g + 1 in
    if dist_ltb (Finite new_g) (distance_of maze neighbor) then
      let maze' := upd_node (set_distance (Finite new_g)) neighbor maze in
      (maze',
       heappush (entry_lt maze') priority_queue
         (mkEntry (fadd new_g (heuristic neighbor e)) new_g neighbor))
    else st
  else st.

(** What one pass of the [while priority_queue] loop does with the entry it
    has popped. *)
Definition visit (e : coord) (cur : entry) (maze : Maze) (pq : list entry)
  : Maze * list entry :=
  if visited_of maze (e_node cur) then (maze, pq)
  else
    let maze1 :=
      upd_node (set_distance (Finite (e_g cur))) (e_node cur)
        (upd_node (set_visited true) (e_node cur) maze) in
    fold_left (relax e (e_g cur)) (neighbors maze1 (e_node cur)) (maze1, pq).

(** The [while priority_queue] loop; [None] when [fuel] passes are not
    enough to empty the queue. *)
Fixpoint search_loop (fuel : nat) (e : coord) (maze : Maze) (pq : list entry)
  : option Maze :=
  match fuel with
  | O => None
  | S fuel' =>
      match heappop (entry_lt maze) pq with
      | None => Some maze
      | Some (cur, pq') =>
          let st := visit e cur maze pq' in
          search_loop fuel' e (fst st) (snd st)
      end
  end.

(** [min(valid_neighbors, key=lambda x: x.distance)]: the first node of the
    least distance, [None] for the [ValueError] of the empty list. *)
Definition min_by_distance (maze : Maze) (l : list coord) : option coord :=
  match l with
  | [] => None
  | x :: l' =>
      Some (fold_left
              (fun best n =>
                 if dist_ltb (distance_of maze n) (distance_of maze best)
                 then n else best) l' x)
  end.

(** [[n for n in neighbors if n and not n.is_enemy]] *)
Definition valid_neighbors (maze : Maze) (current_node : coord) : list coord :=
  filter (fun n => enemy_of maze n = false) (neighbors maze current_node).

(** The [while current_node != start_node] loop with the two statements
    after it. *)
Fixpoint reconstruct (fuel : nat) (maze : Maze) (start_node current_node : coord)
    (path : list coord) : outcome (list coord) :=
  match fuel with
  | O => Diverge
  | S fuel' =>
      if coord_eqb current_node start_node then Ret (rev (path ++ [start_node]))
      else
        let path' := path ++ [current_node] in
        match min_by_distance maze (valid_neighbors maze current_node) with
        | None => Raise ValueError
        | Some next => reconstruct fuel' maze start_node next path'
        end
  end.

(** The number of nodes of the maze. *)
Definition cells (maze : Maze) : nat := length (concat maze).

(** The two loops of [astar] run on fuel.  Every pass of the search loop
    removes an entry and only a pass that visits a node adds entries, at most
    four: in a grid [5 * cells + 2] passes empty the queue
    ([searched_total]).  A descent that has not met the start node after
    [cells + 1] steps has stepped twice on one node and goes round for ever
    ([descent_fuel_enough]). *)
Definition search_fuel (maze : Maze) : nat := 5 * cells maze + 2.
Definition descent_fuel (maze : Maze) : nat := cells maze + 1.

(** [[(0 + heuristic(start_node, end), 0, start_node)]] *)
Definition initial_queue (start e : coord) : list entry :=
  [mkEntry (fadd 0 (heuristic start e)) 0 start].

(** [astar(maze, start, end)]: the maze as the call leaves it, and the
    outcome; [Ret None] is the result [None], [Ret (Some path)] a path. *)
Definition astar (maze : Maze) (start e : coord)
  : Maze * outcome (option (list coord)) :=
  let maze0 := reset_maze maze in
  match node_at maze0 start, node_at maze0 e with
  | Some _, Some _ =>
      let priority_queue := initial_queue start e in
      match search_loop (search_fuel maze0) e maze0 priority_queue with
      | None => (maze0, Diverge)
      | Some maze1 =>
          match distance_of maze1 e with
          | Infinity => (maze1, Ret None)
          | Finite _ =>
              (maze1,
               match reconstruct (descent_fuel maze1) maze1 start e [] with
               | Ret path => Ret (Some path)
               | Raise x => Raise x
               | Diverge => Diverge
               end)
          end
      end
  | _, _ => (maze0, Raise IndexError)
  end.

(** ** add_enemies_along_path *)

(** [n] passes of the [for] loop from the state [(maze, enemies_added)]: the
    maze as the call leaves it, and the outcome with the draws left. *)
Fixpoint add_enemies_loop (n : nat) (maze : Maze) (path : list coord)
    (enemies_added : nat) (ds : list nat) : Maze * outcome (nat * list nat) :=
  match n with
  | O => (maze, Ret (enemies_added, ds))
  | S n' =>
      match randint 1 (Z.of_nat (length path) - 2) ds with
      | Ret (random_index, ds') =>
          match path !! Z.to_nat random_index with
          | Some p =>
              match node_at maze p with
              | Some nd =>
                  if negb (is_enemy nd)
                  then add_enemies_loop n' (upd_node (set_is_enemy true) p maze)
                         path (enemies_added + 1) ds'
                  else add_enemies_loop n' maze path enemies_added ds'
              | None => (maze, Raise IndexError)
              end
          | None => (maze, Raise IndexError)
          end
      | Raise x => (maze, Raise x)
      | Diverge => (maze, Diverge)
      end
  end.

Definition add_enemies_along_path (maze : Maze) (path : list coord)
    (num_enemies : nat) (ds : list nat) : Maze * outcome (nat * list nat) :=
  add_enemies_loop num_enemies maze path 0 ds.


(** * The vocabulary of the properties *)

(** A coordinate on the boundary of a [rows] by [cols] grid. *)
Definition on_border (rows cols : Z) (p : Z * Z) : Prop :=
  (fst p = 0 \/ fst p = rows - 1 \/ snd p = 0 \/ snd p = cols - 1)%Z.

(** The draw that makes [generate_end_on_border] choose the side "left". *)
Definition draws_left (d : nat) : Prop := d mod 4 = 2.

(** The coordinates of a path that [add_enemies_along_path] can draw: the
    positions [1 .. len(path) - 2]. *)
Definition interior (path : list coord) : list coord :=
  removelast (tl path).

(** The number of obstacle cells of a maze. *)
Definition count_enemies (maze : Maze) : nat :=
  length (filter (fun n => is_enemy n = true) (concat maze)).

(** One of the four pointers of the node at [p]. *)
Definition ptr (sel : MazeNode -> option coord) (maze : Maze) (p : coord)
  : option coord :=
  match node_at maze p with Some n => sel n | None => None end.

(** [rows] rows of [cols] nodes. *)
Definition shape (rows cols : nat) (maze : Maze) : Prop :=
  length maze = rows /\ forall r row, maze !! r = Some row -> length row = cols.

(** The grid invariant: [rows] rows of [cols] nodes; a pointer that is set
    refers to the cell next to its owner in the pointer's direction, inside
    the rectangle; and the pointers come in opposite pairs. *)
Record wf_maze (rows cols : nat) (maze : Maze) : Prop := {
  wf_rows : length maze = rows;
  wf_cols : forall r row, maze !! r = Some row -> length row = cols;
  wf_left : forall p q, ptr left maze p = Some q ->
            0 < snd p /\ q = (fst p, snd p - 1);
  wf_right : forall p q, ptr right maze p = Some q ->
             snd p + 1 < cols /\ q = (fst p, snd p + 1);
  wf_up : forall p q, ptr up maze p = Some q ->
          0 < fst p /\ q = (fst p - 1, snd p);
  wf_down : forall p q, ptr down maze p = Some q ->
            fst p + 1 < rows /\ q = (fst p + 1, snd p);
  wf_left_right : forall p q, ptr right maze p = Some q <-> ptr left maze q = Some p;
  wf_up_down : forall p q, ptr down maze p = Some q <-> ptr up maze q = Some p
}.

(** The maze after the [while priority_queue] loop of [astar maze start e]:
    the distance field that the reconstruction of the path reads. *)
Definition searched (maze : Maze) (start e : coord) : option Maze :=
  search_loop (search_fuel (reset_maze maze)) e (reset_maze maze)
    (initial_queue start e).

(** The nodes that the descent of [astar] steps on from [cur] down to the
    start node, in the order of the steps. *)
Inductive descent (maze : Maze) (start : coord) : coord -> list coord -> Prop :=
| descent_stop : descent maze start start [start]
| descent_step cur next l :
    cur <> start ->
    min_by_distance maze (valid_neighbors maze cur) = Some next ->
    descent maze start next l ->
    descent maze start cur (cur :: l).

(** The number of nodes of the maze that satisfy [P]. *)
Definition count_if (P : MazeNode -> bool) (maze : Maze) : nat :=
  length (filter (fun n => P n = true) (concat maze)).

(** The number of nodes not visited yet. *)
Definition unvisited (maze : Maze) : nat :=
  count_if (fun n => negb (visited n)) maze.

(** The obstacle cells of one row. *)
Definition row_enemies (row : list MazeNode) : nat :=
  length (filter (fun n => is_enemy n = true) row).


(** ** The passes of the search loop *)

(** The two assignments that visit the node of a popped entry. *)
Definition mark (x : entry) (maze : Maze) : Maze :=
  upd_node (set_distance (Finite (e_g x))) (e_node x)
    (upd_node (set_visited true) (e_node x) maze).

(** The entry that [relax] pushes for [neighbor]. *)
Definition pushed (e : coord) (current_g : nat) (neighbor : coord) : entry :=
  mkEntry (fadd (current_g + 1) (heuristic neighbor e)) (current_g + 1) neighbor.

(** The maze after [relax] has lowered the distance of [neighbor]. *)
Definition lowered (current_g : nat) (neighbor : coord) (maze : Maze) : Maze :=
  upd_node (set_distance (Finite (current_g + 1))) neighbor maze.

(** The test of [relax]. *)
Definition relaxes (current_g : nat) (maze : Maze) (neighbor : coord) : bool :=
  negb (visited_of maze neighbor) && negb (enemy_of maze neighbor)
  && dist_ltb (Finite (current_g + 1)) (distance_of maze neighbor).

(** A node that may get a distance: the start node or a free cell. *)
Definition clear_or_start (start : coord) (maze : Maze) (p : coord) : Prop :=
  p = start \/ enemy_of maze p = false.


Section SearchInvariant.
Variables (maze : Maze) (start e : coord).

(** How a node comes to have the cost [g]: it is the start node at cost 0,
    or a free cell next to a visited node of cost [g - 1]. *)
Definition reached_from (m : Maze) (v : coord) (g : nat) : Prop :=
  (v = start /\ g = 0) \/
  (enemy_of maze v = false /\
   exists u gu, visited_of m u = true /\ distance_of m u = Finite gu /\
                g = gu + 1 /\ In v (neighbors maze u)).

Definition entry_ok (m : Maze) (x : entry) : Prop :=
  is_Some (node_at maze (e_node x)) /\
  e_f x = fadd (e_g x) (heuristic (e_node x) e) /\
  reached_from m (e_node x) (e_g x).

(** The neighbours [v] of a visited node that the search has looked at: all
    of them, except inside the pass that visits [n], where only the
    neighbours of [n] in [done] have been. *)
Definition looked_at (cur : option (coord * list coord)) (u v : coord) : Prop :=
  match cur with
  | Some (n, done) => u = n -> In v done
  | None => True
  end.

(** What holds of the maze [m] and the queue [pq] during the search of
    [maze] from [start] to [e]. *)
Record search_inv (cur : option (coord * list coord)) (m : Maze)
    (pq : list entry) : Prop := {
  inv_frame : reset_maze m = reset_maze maze;
  inv_queue : forall x, In x pq ->
      entry_ok m x /\ e_g x + unvisited m <= cells maze;
  inv_visited : forall v, visited_of m v = true ->
      exists g, distance_of m v = Finite g /\ reached_from m v g /\
                g + unvisited m < cells maze;
  inv_open : forall v g, visited_of m v = false -> distance_of m v = Finite g ->
      exists x, In x pq /\ e_node x = v /\ e_g x = g;
  inv_start : visited_of m start = true \/
              exists x, In x pq /\ e_node x = start /\ e_g x = 0;
  inv_expanded : forall u gu v,
      visited_of m u = true -> distance_of m u = Finite gu ->
      In v (neighbors maze u) -> enemy_of maze v = false ->
      visited_of m v = false -> looked_at cur u v ->
      exists gv, distance_of m v = Finite gv /\ gv <= gu + 1
}.

(** Inside the pass that visits the node of [x], after the neighbours in
    [done]. *)
Definition pass_inv (x : entry) (m1 : Maze) (done : list coord) (m : Maze)
    (pq : list entry) : Prop :=
  search_inv (Some (e_node x, done)) m pq /\
  reset_maze m1 = reset_maze maze /\
  visited_of m (e_node x) = true /\
  distance_of m (e_node x) = Finite (e_g x).

End SearchInvariant.

(** Visited nodes keep their mark and their distance. *)
Definition keeps_visited (m m' : Maze) : Prop :=
  forall u, visited_of m u = true ->
            visited_of m' u = true /\ distance_of m' u = distance_of m u.


(** ** The order of the queue *)

Section KeyOrder.
Import Reals.
Local Open Scope R_scope.

(** The real number that a key stands for. *)
Definition fval_val (x : fval) : R := INR (f_int x) + sqrt (INR (f_rad x)).

(** The order of the first two components of the queue entries: by [f], then
    by [g]. *)
Definition key_le (a b : entry) : Prop :=
  fval_val (e_f a) < fval_val (e_f b) \/
  (fval_val (e_f a) = fval_val (e_f b) /\ (e_g a <= e_g b)%nat).

End KeyOrder.

(** The array [heap] is a heap for [le]: no item is below its parent. *)
Definition heap_ordered {A} (le : A -> A -> Prop) (heap : list A) : Prop :=
  forall i p c, 0 < i -> heap !! Nat.div2 (i - 1) = Some p -> heap !! i = Some c ->
                le p c.


Section HeapStates.
Context {A : Type}.
Variable le : A -> A -> Prop.

(** The heap with [newitem] in the free slot [pos]. *)
Definition filled (heap : list A) (pos : nat) (newitem : A) (k : nat) : option A :=
  if decide (pos = k) then Some newitem else heap !! k.

(** The state of [_siftdown]: the heap with [newitem] in the free slot is
    ordered but for the edge above the slot, and the items below the slot
    are not below the item above it. *)
Definition sifting_down (heap : list A) (pos : nat) (newitem : A) : Prop :=
  pos < length heap /\
  (forall i p c, 0 < i -> i <> pos ->
     filled heap pos newitem (Nat.div2 (i - 1)) = Some p ->
     filled heap pos newitem i = Some c -> le p c) /\
  (forall i p c, 0 < pos -> 0 < i -> Nat.div2 (i - 1) = pos ->
     filled heap pos newitem (Nat.div2 (pos - 1)) = Some p ->
     filled heap pos newitem i = Some c -> le p c).

(** The state of the first loop of [_siftup]: the edges that do not touch
    the free slot are in order, and the items below the slot are not below
    the item above it. *)
Definition bubbling_up (heap : list A) (pos : nat) : Prop :=
  pos < length heap /\
  (forall i p c, 0 < i -> i <> pos -> Nat.div2 (i - 1) <> pos ->
     heap !! Nat.div2 (i - 1) = Some p -> heap !! i = Some c -> le p c) /\
  (forall i p c, 0 < pos -> 0 < i -> Nat.div2 (i - 1) = pos ->
     heap !! Nat.div2 (pos - 1) = Some p -> heap !! i = Some c -> le p c).

End HeapStates.

(** ** Mazes of the examples *)

(** The maze with the two adjacencies (0,0)-(0,1) and (0,0)-(1,0), as
    [generate_random_maze 2 2 0] builds it from the draws [0; 0; 1; 1]. *)
Definition corner_maze : Maze :=
  [[mkNode None (Some (0, 1)) None (Some (1, 0)) Infinity false false;
    mkNode (Some (0, 0)) None None None Infinity false false];
   [mkNode None None (Some (0, 0)) None Infinity false false;
    new_node]].


(** The maze of [generate_random_maze 2 2 1] on the draws
    [0; 0; 1; 1; 0; 0]: [corner_maze] with an obstacle on (0,0). *)
Definition blocked_corner_maze : Maze :=
  upd_node (set_is_enemy true) (0, 0) corner_maze.


(** A maze of two rows and two columns whose nodes have no pointer. *)
Definition walled_maze : Maze := replicate 2 (replicate 2 new_node).


(** The maze of [generate_random_maze 3 3 1] on the draws
    [1;1;1;1;1; 0;1;0;1;1; 1;1; 1;0]: the middle row is a corridor
    (1,0)-(1,1)-(1,2), every other wall is closed, and the cell (1,0) is an
    obstacle. *)
Definition corridor_maze : Maze :=
  [[new_node; new_node; new_node];
   [mkNode None (Some (1, 1)) None None Infinity false true;
    mkNode (Some (1, 0)) (Some (1, 2)) None None Infinity false false;
    mkNode (Some (1, 1)) None None None Infinity false false];
   [new_node; new_node; new_node]].

(** ** Routes and shortest paths *)

(** [walk maze start k v]: [k] steps along pointers lead from [start] to
    [v], each step onto a free cell. *)
Inductive walk (maze : Maze) (start : coord) : nat -> coord -> Prop :=
| walk_start : walk maze start 0 start
| walk_step k u v :
    walk maze start k u -> In v (neighbors maze u) -> enemy_of maze v = false ->
    walk maze start (S k) v.

(** The distance of every visited node is the length of a shortest walk. *)
Definition optimal (maze : Maze) (start : coord) (m : Maze) : Prop :=
  forall v g k, visited_of m v = true -> distance_of m v = Finite g ->
                walk maze start k v -> g <= k.

(** The radicand of the heuristic at [p]. *)
Definition hrad (e p : coord) : nat := f_rad (heuristic p e).

(** An obstacle-free route of the maze from [s] to [e]: a list of free cells
    of the maze, each with a pointer to the next. *)
Definition route (maze : Maze) (s e : coord) (l : list coord) : Prop :=
  head l = Some s /\ last l = Some e /\
  (forall c, In c l -> is_Some (node_at maze c) /\ enemy_of maze c = false) /\
  (forall i a b, l !! i = Some a -> l !! S i = Some b -> In b (neighbors maze a)).

(** The invariant of the search with the two facts behind the shortest
    distances: the queue is a heap for the order of the keys, and the
    distances of the visited nodes are shortest. *)
Section BestInvariant.
Variables (maze : Maze) (start e : coord).

Definition best_inv (m : Maze) (pq : list entry) : Prop :=
  search_inv maze start e None m pq /\ heap_ordered key_le pq /\ optimal maze start m.

Definition best_pass (x : entry) (m1 : Maze) (done : list coord) (m : Maze)
    (pq : list entry) : Prop :=
  pass_inv maze start e x m1 done m pq /\ heap_ordered key_le pq /\
  optimal maze start m.

End BestInvariant.

(** [trail maze start c l d]: the descent of [astar] steps from [c] on the
    nodes of [l], none of them the start node, and arrives at [d]. *)
Inductive trail (maze : Maze) (start : coord) : coord -> list coord -> coord -> Prop :=
| trail_nil c : trail maze start c [] c
| trail_cons c next l d :
    c <> start ->
    min_by_distance maze (valid_neighbors maze c) = Some next ->
    trail maze start next l d ->
    trail maze start c (c :: l) d.

(** The three by three maze with every wall open, as
    [generate_random_maze 3 3 0] builds it when every draw is 0. *)
Definition open_maze : Maze :=
  Eval cbv in
    match generate_random_maze 3 3 0 (repeat 0 12) with
    | Ret (maze, _) => maze
    | _ => []
    end.


(** The cells of [l] that are no obstacle cells of [maze], each counted as
    often as it occurs in [l]. *)
Definition free_cells (maze : Maze) (l : list coord) : nat :=
  length (filter (fun p => enemy_of maze p = false) l).

(** ** The draws of the generator *)

(** The draws of a loop whose pass for [x] takes [cost x] draws. *)
Definition draws_of {X} (cost : X -> nat) (xs : list X) : nat :=
  list_sum (map cost xs).

(** The draws of [connect_cell]: one for each [random.choice] that its two
    conditions reach. *)
Definition connect_draws (rows cols row col : nat) : nat :=
  (if col <? cols - 1 then 1 else 0) + (if row <? rows - 1 then 1 else 0).

(** The draws of [generate_random_maze]. *)
Definition maze_draws (rows cols num_enemies : nat) : nat :=
  rows * (cols - 1) + (rows - 1) * cols + 2 * num_enemies.

(** ** visualize_maze_svg *)

(** The model of [visualize_maze_svg] is the drawing that the function asks
    [svgwrite] for: the view box and the elements in the order of the
    [dwg.add] calls.  What [svgwrite] does with them (its checks of the
    values, the file that [dwg.save] writes under [file_name]) is outside the
    model.  Every coordinate that the function computes is a whole number,
    also where Python computes it as a float ([cell_size / 2] is 10.0), but
    for the text of an obstacle, which is kept as the element [bomb] of its
    cell. *)

(** [svgwrite.rgb(r, g, b, '%')] *)
Inductive colour : Type := rgb (r g b : nat).

Definition black : colour := rgb 0 0 0.
Definition blue : colour := rgb 0 0 255.
Definition green : colour := rgb 0 255 0.
Definition red : colour := rgb 255 0 0.
Definition grey : colour := rgb 240 240 240.

(** The texts of the drawing but the one of an obstacle: the flag of the
    start point, the chequered flag of the end point, and the three notes
    'Shortest Path', 'Shortest Path Avoiding Enemies' and 'Enemies' (after a
    bomb). *)
Inductive label : Type :=
| flag_start | flag_end | note_path | note_avoiding | note_enemies.

Inductive element : Type :=
| line (from to : Z * Z) (stroke : colour) (stroke_width : option Z)
| text (s : label) (insert : Z * Z) (font_size : Z) (bold : bool) (fill : colour)
| bomb (x y : Z)
| rect (insert size : Z * Z) (fill stroke : colour).

Record drawing : Type := mkDrawing {
  viewbox : Z * Z * Z * Z;
  elements : list element
}.

Definition cell_size : Z := 20.
Definition padding : Z := 2.
Definition box_width : Z := 350.
Definition box_height : Z := 90.

(** The body of the two loops over the maze: the walls of the node at
    [row_index], [col_index], one for each pointer that is [None], and the
    bomb of an obstacle cell ([bomb x y] is the text that the function
    inserts at [(x + cell_size / 2 - ghost_size / 2,
    y + cell_size / 1 - ghost_size / 2)] with the font size
    [ghost_size = cell_size / 1.5]). *)
Definition draw_cell (row_index col_index : nat) (node : MazeNode) : list element :=
  let x := (Z.of_nat col_index * cell_size)%Z in
  let y := (Z.of_nat row_index * cell_size)%Z in
  (match left node with
   | None => [line (x, y) (x, y + cell_size)%Z black None]
   | Some _ => []
   end) ++
  (match right node with
   | None => [line (x + cell_size, y)%Z (x + cell_size, y + cell_size)%Z black None]
   | Some _ => []
   end) ++
  (match up node with
   | None => [line (x, y) (x + cell_size, y)%Z black None]
   | Some _ => []
   end) ++
  (match down node with
   | None => [line (x, y + cell_size)%Z (x + cell_size, y + cell_size)%Z black None]
   | Some _ => []
   end) ++
  (if is_enemy node then [bomb x y] else []).

Definition draw_row (row_index : nat) (row : list MazeNode) : list element :=
  concat (imap (draw_cell row_index) row).

Definition draw_maze (maze : Maze) : list element :=
  concat (imap draw_row maze).

(** The centre of the cell of a point [(row, col)]. *)
Definition centre (p : Z * Z) : Z * Z :=
  (snd p * cell_size + cell_size / 2, fst p * cell_size + cell_size / 2)%Z.

Definition cell_centre (p : coord) : Z * Z :=
  centre (Z.of_nat (fst p), Z.of_nat (snd p)).

(** [for i in range(len(path) - 1)]: a line from the cell of [path[i]] to
    the cell of [path[i + 1]]; nothing for an empty path. *)
Definition draw_path (stroke : colour) (path : list coord) : list element :=
  zip_with (fun a b => line (cell_centre a) (cell_centre b) stroke (Some 4%Z))
    path (tl path).

Definition draw_flag (s : label) (fill : colour) (p : Z * Z) : element :=
  text s (fst (centre p) - cell_size / 4, snd (centre p) - cell_size / 4)%Z
    (cell_size / 2)%Z false fill.

(** The box beside the maze and its notes. *)
Definition draw_legend (maze_width : Z) : list element :=
  let box_x := (maze_width + padding)%Z in
  let box_y := padding in
  let note_x := (box_x + padding)%Z in
  let note_y1 := (box_y + box_height - (box_height - 12))%Z in
  let note_y2 := (box_y + box_height - (box_height - 44))%Z in
  let note_y3 := (box_y + box_height - (box_height - 80))%Z in
  [rect (box_x, box_y) (box_width, box_height) grey black;
   line (note_x, note_y1) (note_x + 20, note_y1)%Z blue (Some 4%Z);
   text note_path (note_x + 25, note_y1 + 5)%Z 20 true black;
   line (note_x, note_y2) (note_x + 20, note_y2)%Z green (Some 4%Z);
   text note_avoiding (note_x + 25, note_y2 + 5)%Z 20 true black;
   text note_enemies (note_x, note_y3) 20 true black].

(** [visualize_maze_svg(maze, path, start, end, enemies)]: [maze[0]] raises
    [IndexError] on a maze without rows. *)
Definition visualize_maze_svg (maze : Maze) (path : list coord) (start e : Z * Z)
    (enemies : list coord) : outcome drawing :=
  match maze with
  | [] => Raise IndexError
  | row0 :: _ =>
      let maze_width := (cell_size * Z.of_nat (length row0))%Z in
      let maze_height := (cell_size * Z.of_nat (length maze))%Z in
      Ret (mkDrawing
             (0, 0, maze_width + box_width + padding, maze_height + padding)%Z
             (draw_maze maze ++ draw_path blue path ++
              [draw_flag flag_start red start; draw_flag flag_end green e] ++
              draw_path green enemies ++ draw_legend maze_width))
  end.

(** The wall on the left side of the cell [(r, c)], which is the right side
    of the cell before it, and the wall on its upper side. *)
Definition wall_left_of (r c : nat) : element :=
  line (Z.of_nat c * cell_size, Z.of_nat r * cell_size)%Z
       (Z.of_nat c * cell_size, Z.of_nat r * cell_size + cell_size)%Z black None.

Definition wall_above (r c : nat) : element :=
  line (Z.of_nat c * cell_size, Z.of_nat r * cell_size)%Z
       (Z.of_nat c * cell_size + cell_size, Z.of_nat r * cell_size)%Z black None.

(** ** generate_a_new_maze *)

(** What the program prints: the line 'Generating a new maze', the seven
    lines of the report, the three lines before a new attempt, and the line
    'Error: ...' of the handler. *)
Inductive message : Type :=
| msg_generating
| msg_start_point (p : Z * Z)
| msg_end_point (p : Z * Z)
| msg_rows (n : Z)
| msg_columns (n : Z)
| msg_enemies (n : nat)
| msg_path (path : list coord)
| msg_avoiding_path (path : list coord)
| msg_no_path_after_enemies
| msg_failed_to_add_enemies
| msg_no_path
| msg_error (e : exn).

Inductive event : Type :=
| printed (m : message)
| saved (d : drawing).

(** The indices that [astar] makes of a point.  The points of the program
    are the border points, which are not negative. *)
Definition index_of (p : Z * Z) : coord := (Z.to_nat (fst p), Z.to_nat (snd p)).

(** The seven [print] calls after the drawing. *)
Definition report (start_point end_point : Z * Z) (random_num_rows random_num_cols : Z)
    (random_num_enemies : nat) (shortest_path new_shortest_path : list coord)
  : list event :=
  [printed (msg_start_point start_point); printed (msg_end_point end_point);
   printed (msg_rows random_num_rows); printed (msg_columns random_num_cols);
   printed (msg_enemies random_num_enemies); printed (msg_path shortest_path);
   printed (msg_avoiding_path new_shortest_path)].

(** [except ValueError as e: print("Error: " + str(e))] *)
Definition handle (r : list event * outcome unit) : list event * outcome unit :=
  match snd r with
  | Raise ValueError => (fst r ++ [printed (msg_error ValueError)], Ret tt)
  | _ => r
  end.

(** The statements of [generate_a_new_maze] before the [try]. *)
Definition draw_sizes : Rand (Z * Z) :=
  r <- randint 1 10 ;; c <- randint 1 10 ;; rret ((r + 20)%Z, (c + 20)%Z).

Definition draw_maze_and_points : Rand (Maze * (Z * Z) * (Z * Z)) :=
  random_maze <- generate_random_maze 20 20 0 ;;
  start_point <- generate_start_on_border 20 20 ;;
  end_point <- generate_end_on_border 20 20 start_point ;;
  rret (random_maze, start_point, end_point).

(** [generate_a_new_maze()]: what it prints and saves, and how it ends.  The
    maze is one object that the two calls of [astar] and
    [add_enemies_along_path] change in turn.  A call inside the [try] is
    followed to the depth [depth]; the interpreter bounds the depth of the
    recursion, and where the model has [Diverge] at depth 0 the program ends
    with [RecursionError], which nothing catches. *)
Fixpoint generate_a_new_maze (depth : nat) (ds : list nat)
  : list event * outcome unit :=
  match depth with
  | O => ([], Diverge)
  | S depth' =>
      match draw_sizes ds with
      | Raise x => ([], Raise x)
      | Diverge => ([], Diverge)
      | Ret ((random_num_rows, random_num_cols), ds1) =>
          match draw_maze_and_points ds1 with
          | Raise x => ([printed msg_generating], Raise x)
          | Diverge => ([printed msg_generating], Diverge)
          | Ret ((random_maze, start_point, end_point), ds2) =>
              let start := index_of start_point in
              let e := index_of end_point in
              let r1 := astar random_maze start e in
              let r :=
                handle
                  match snd r1 with
                  | Ret (Some shortest_path) =>
                      let r2 := add_enemies_along_path (fst r1) shortest_path 2 ds2 in
                      match snd r2 with
                      | Ret (enemies_added, ds3) =>
                          if enemies_added =? 2 then
                            let r3 := astar (fst r2) start e in
                            match snd r3 with
                            | Ret (Some new_shortest_path) =>
                                match visualize_maze_svg (fst r3) shortest_path
                                        start_point end_point new_shortest_path with
                                | Ret d =>
                                    (saved d ::
                                     report start_point end_point random_num_rows
                                       random_num_cols 0 shortest_path
                                       new_shortest_path,
                                     Ret tt)
                                | Raise x => ([], Raise x)
                                | Diverge => ([], Diverge)
                                end
                            | Ret None =>
                                let r' := generate_a_new_maze depth' ds3 in
                                (printed msg_no_path_after_enemies :: fst r', snd r')
                            | Raise x => ([], Raise x)
                            | Diverge => ([], Diverge)
                            end
                          else
                            let r' := generate_a_new_maze depth' ds3 in
                            (printed msg_failed_to_add_enemies :: fst r', snd r')
                      | Raise x => ([], Raise x)
                      | Diverge => ([], Diverge)
                      end
                  | Ret None =>
                      let r' := generate_a_new_maze depth' ds2 in
                      (printed msg_no_path :: fst r', snd r')
                  | Raise x => ([], Raise x)
                  | Diverge => ([], Diverge)
                  end in
              (printed msg_generating :: fst r, snd r)
          end
      end
  end.

(** ** What generate_a_new_maze does *)

(** The lines that come before a new attempt. *)
Definition retry_message (m : message) : Prop :=
  m = msg_no_path \/ m = msg_failed_to_add_enemies \/ m = msg_no_path_after_enemies.

(** The points of [generate_start_on_border] and [generate_end_on_border] in
    the grid of 20 rows and 20 columns. *)
Definition start_position (p : Z * Z) : Prop :=
  (1 <= fst p <= 18 /\ snd p = 0)%Z.

Definition end_position (p : Z * Z) : Prop :=
  (((fst p = 0 \/ fst p = 19) /\ 1 <= snd p <= 18) \/
   (snd p = 19 /\ 1 <= fst p <= 18))%Z.

(** The attempt that ends with the drawing [d] and the report of the points
    [start_point] and [end_point], the sizes [rr] and [cc] and the paths
    [p1] and [p2]: [maze] is the maze that the program draws, as the second
    search has left it. *)
Definition drawn (d : drawing) (start_point end_point : Z * Z) (rr cc : Z)
    (p1 p2 : list coord) : Prop :=
  exists maze : Maze,
    wf_maze 20 20 maze /\
    visualize_maze_svg maze p1 start_point end_point p2 = Ret d /\
    (21 <= rr <= 30 /\ 21 <= cc <= 30)%Z /\
    start_position start_point /\ end_position end_point /\
    (head p1 = Some (index_of start_point) /\ last p1 = Some (index_of end_point) /\
     (forall i a b, p1 !! i = Some a -> p1 !! S i = Some b -> In b (neighbors maze a)) /\
     NoDup p1 /\ 3 <= length p1) /\
    route maze (index_of start_point) (index_of end_point) p2 /\
    length p1 <= length p2 /\ p2 <> p1 /\
    (exists q1 q2, q1 <> q2 /\ In q1 (interior p1) /\ In q2 (interior p1) /\
                   forall p, enemy_of maze p = true <-> p = q1 \/ p = q2).

(** The ways of a call of [generate_a_new_maze]: it is cut short before or
    after its first line; or it prints a line of failure and calls itself;
    or it draws and reports. *)
Inductive run : list event -> outcome unit -> Prop :=
| run_cut t :
    t = [] \/ t = [printed msg_generating] -> run t Diverge
| run_again m t o :
    retry_message m -> run t o ->
    run (printed msg_generating :: printed m :: t) o
| run_drawn d start_point end_point rr cc p1 p2 :
    drawn d start_point end_point rr cc p1 p2 ->
    run (printed msg_generating :: saved d ::
         report start_point end_point rr cc 0 p1 p2) (Ret tt).


(** * Reading and writing nodes *)

Lemma coord_eqb_eq (a b : coord) : coord_eqb a b = true <-> a = b.
Proof.
  destruct a as [r c], b as [r' c']. unfold coord_eqb. simpl.
  rewrite andb_true_iff, !Nat.eqb_eq. split.
  - intros [-> ->]. reflexivity.
  - intros H. inversion H. auto.
Qed.

Lemma coord_eqb_refl (a : coord) : coord_eqb a a = true.
Proof. apply coord_eqb_eq. reflexivity. Qed.

Lemma coord_eqb_neq (a b : coord) : coord_eqb a b = false <-> a <> b.
Proof.
  rewrite <- coord_eqb_eq. destruct (coord_eqb a b); split; congruence.
Qed.

Lemma node_at_upd_eq f p (maze : Maze) :
  node_at (upd_node f p maze) p = f <$> node_at maze p.
Proof.
  unfold node_at, upd_node. rewrite list_lookup_alter_eq.
  destruct (maze !! fst p) as [r|]; simpl; [|reflexivity].
  apply list_lookup_alter_eq.
Qed.

Lemma node_at_upd_ne f p q (maze : Maze) :
  p <> q -> node_at (upd_node f p maze) q = node_at maze q.
Proof.
  intros Hne. unfold node_at, upd_node.
  destruct (decide (fst p = fst q)) as [Hr|Hr].
  - rewrite Hr, list_lookup_alter_eq.
    destruct (maze !! fst q) as [r|]; simpl; [|reflexivity].
    apply list_lookup_alter_ne. intros Hc. apply Hne.
    destruct p, q; simpl in *; congruence.
  - rewrite list_lookup_alter_ne by assumption. reflexivity.
Qed.

Lemma node_at_upd f p q (maze : Maze) :
  node_at (upd_node f p maze) q =
  if decide (p = q) then f <$> node_at maze q else node_at maze q.
Proof.
  destruct (decide (p = q)) as [->|Hne].
  - apply node_at_upd_eq.
  - apply node_at_upd_ne, Hne.
Qed.

Lemma node_at_reset (maze : Maze) p :
  node_at (reset_maze maze) p = reset_node <$> node_at maze p.
Proof.
  unfold node_at, reset_maze. rewrite list_lookup_fmap.
  destruct (maze !! fst p) as [r|]; simpl; [|reflexivity].
  apply list_lookup_fmap.
Qed.

Lemma node_at_is_Some_upd f p q (maze : Maze) :
  is_Some (node_at (upd_node f p maze) q) <-> is_Some (node_at maze q).
Proof.
  rewrite node_at_upd. destruct (decide (p = q)); [|reflexivity].
  rewrite fmap_is_Some. reflexivity.
Qed.

(** Two mazes with the same nodes everywhere are the same list of rows as
    soon as their rows have the same lengths. *)
Lemma upd_node_length f p (maze : Maze) :
  length (upd_node f p maze) = length maze.
Proof. unfold upd_node. apply length_alter. Qed.

Lemma upd_node_row_length f p (maze : Maze) i :
  length <$> (upd_node f p maze !! i) = length <$> (maze !! i).
Proof.
  unfold upd_node. destruct (decide (fst p = i)) as [<-|Hne].
  - rewrite list_lookup_alter_eq. destruct (maze !! fst p); simpl; [|reflexivity].
    f_equal. apply length_alter.
  - rewrite list_lookup_alter_ne by assumption. reflexivity.
Qed.

Lemma cells_upd f p (maze : Maze) : cells (upd_node f p maze) = cells maze.
Proof.
  unfold cells, upd_node. destruct p as [r c]. simpl.
  revert r. induction maze as [|row maze IH]; intros r; [reflexivity|].
  destruct r as [|r]; simpl.
  - rewrite !length_app. f_equal. apply length_alter.
  - rewrite !length_app. f_equal. apply IH.
Qed.

Lemma cells_reset (maze : Maze) : cells (reset_maze maze) = cells maze.
Proof.
  unfold cells, reset_maze. induction maze as [|row maze IH]; [reflexivity|].
  simpl. rewrite !length_app, length_fmap. f_equal. apply IH.
Qed.

(** ** Attribute reads after a write *)

Lemma visited_of_upd f p q (maze : Maze) :
  (forall n, visited (f n) = visited n) ->
  visited_of (upd_node f p maze) q = visited_of maze q.
Proof.
  intros Hf. unfold visited_of. rewrite node_at_upd.
  destruct (decide (p = q)); [|reflexivity].
  destruct (node_at maze q); simpl; auto.
Qed.

Lemma enemy_of_upd f p q (maze : Maze) :
  (forall n, is_enemy (f n) = is_enemy n) ->
  enemy_of (upd_node f p maze) q = enemy_of maze q.
Proof.
  intros Hf. unfold enemy_of. rewrite node_at_upd.
  destruct (decide (p = q)); [|reflexivity].
  destruct (node_at maze q); simpl; auto.
Qed.

Lemma distance_of_upd f p q (maze : Maze) :
  (forall n, distance (f n) = distance n) ->
  distance_of (upd_node f p maze) q = distance_of maze q.
Proof.
  intros Hf. unfold distance_of. rewrite node_at_upd.
  destruct (decide (p = q)); [|reflexivity].
  destruct (node_at maze q); simpl; auto.
Qed.

Lemma neighbors_upd f p q (maze : Maze) :
  (forall n, pointers (f n) = pointers n) ->
  neighbors (upd_node f p maze) q = neighbors maze q.
Proof.
  intros Hf. unfold neighbors. rewrite node_at_upd.
  destruct (decide (p = q)); [|reflexivity].
  destruct (node_at maze q); simpl; auto.
Qed.

Lemma distance_of_set_ne d p q (maze : Maze) :
  p <> q -> distance_of (upd_node (set_distance d) p maze) q = distance_of maze q.
Proof. intros H. unfold distance_of. rewrite node_at_upd_ne by assumption. reflexivity. Qed.

Lemma distance_of_set_eq d p (maze : Maze) :
  is_Some (node_at maze p) ->
  distance_of (upd_node (set_distance d) p maze) p = d.
Proof.
  intros [n Hn]. unfold distance_of. rewrite node_at_upd_eq, Hn. reflexivity.
Qed.

Lemma visited_of_set_ne v p q (maze : Maze) :
  p <> q -> visited_of (upd_node (set_visited v) p maze) q = visited_of maze q.
Proof. intros H. unfold visited_of. rewrite node_at_upd_ne by assumption. reflexivity. Qed.

Lemma visited_of_set_eq v p (maze : Maze) :
  is_Some (node_at maze p) ->
  visited_of (upd_node (set_visited v) p maze) p = v.
Proof.
  intros [n Hn]. unfold visited_of. rewrite node_at_upd_eq, Hn. reflexivity.
Qed.

Lemma enemy_of_set_ne v p q (maze : Maze) :
  p <> q -> enemy_of (upd_node (set_is_enemy v) p maze) q = enemy_of maze q.
Proof. intros H. unfold enemy_of. rewrite node_at_upd_ne by assumption. reflexivity. Qed.

Lemma enemy_of_set_eq v p (maze : Maze) :
  is_Some (node_at maze p) ->
  enemy_of (upd_node (set_is_enemy v) p maze) p = v.
Proof.
  intros [n Hn]. unfold enemy_of. rewrite node_at_upd_eq, Hn. reflexivity.
Qed.

(** ** What a reset forgets *)

Lemma reset_node_idem n : reset_node (reset_node n) = reset_node n.
Proof. reflexivity. Qed.

Lemma reset_maze_upd f p (maze : Maze) :
  (forall n, reset_node (f n) = reset_node n) ->
  reset_maze (upd_node f p maze) = reset_maze maze.
Proof.
  intros Hf. unfold reset_maze, upd_node. apply list_eq. intros i.
  rewrite !list_lookup_fmap. destruct (decide (fst p = i)) as [<-|Hne].
  - rewrite list_lookup_alter_eq. destruct (maze !! fst p) as [r|]; simpl; [|reflexivity].
    f_equal. apply list_eq. intros j. rewrite !list_lookup_fmap.
    destruct (decide (snd p = j)) as [<-|Hne].
    + rewrite list_lookup_alter_eq. destruct (r !! snd p); simpl; [|reflexivity].
      f_equal. apply Hf.
    + rewrite list_lookup_alter_ne by assumption. reflexivity.
  - rewrite list_lookup_alter_ne by assumption. reflexivity.
Qed.

Lemma visited_of_reset (maze : Maze) p : visited_of (reset_maze maze) p = false.
Proof.
  unfold visited_of. rewrite node_at_reset. destruct (node_at maze p); reflexivity.
Qed.

Lemma distance_of_reset (maze : Maze) p : distance_of (reset_maze maze) p = Infinity.
Proof.
  unfold distance_of. rewrite node_at_reset. destruct (node_at maze p); reflexivity.
Qed.

Lemma enemy_of_reset (maze : Maze) p : enemy_of (reset_maze maze) p = enemy_of maze p.
Proof.
  unfold enemy_of. rewrite node_at_reset. destruct (node_at maze p); reflexivity.
Qed.

Lemma neighbors_reset (maze : Maze) p : neighbors (reset_maze maze) p = neighbors maze p.
Proof.
  unfold neighbors. rewrite node_at_reset. destruct (node_at maze p); reflexivity.
Qed.


(** * The border points *)

Lemma randint_range a b ds v ds' :
  randint a b ds = Ret (v, ds') -> (a <= v <= b)%Z.
Proof.
  unfold randint. destruct (Z.ltb_spec b a); [discriminate|].
  destruct ds as [|d ds0]; [discriminate|]. intros [= <- <-].
  pose proof (Z.mod_pos_bound (Z.of_nat d) (b - a + 1)). lia.
Qed.

Lemma randint_no_index_error a b ds : randint a b ds <> Raise IndexError.
Proof.
  unfold randint. destruct (b <? a)%Z; [discriminate|]. destruct ds; discriminate.
Qed.

Lemma randint_returns a b d ds :
  (a <= b)%Z -> exists v, randint a b (d :: ds) = Ret (v, ds).
Proof.
  intros H. unfold randint. destruct (Z.ltb_spec b a); [lia|]. eauto.
Qed.

Lemma start_on_border_shape rows cols ds start ds' :
  generate_start_on_border rows cols ds = Ret (start, ds') ->
  (1 <= fst start <= rows - 2)%Z /\ snd start = 0%Z.
Proof.
  unfold generate_start_on_border, rbind, rret.
  destruct (randint 1 (rows - 2) ds) as [[r ds0]| |] eqn:E; try discriminate.
  intros [= <- <-]. apply randint_range in E. simpl. lia.
Qed.

(** What a call of [generate_end_on_border] does once a side is accepted. *)
Lemma border_pick_ok (a b : Z) (mk : Z -> Z * Z) ds :
  (a <= b)%Z ->
  match (c <- randint a b ;; rret (mk c)) ds with
  | Ret (e, _) => exists c, (a <= c <= b)%Z /\ e = mk c
  | Raise _ => False
  | Diverge => ds = []
  end.
Proof.
  intros Hab. unfold rbind, rret.
  destruct (randint a b ds) as [[c ds0]|x|] eqn:E.
  - exists c. split; [eapply randint_range; eauto|reflexivity].
  - unfold randint in E. destruct (Z.ltb_spec b a); [lia|]. destruct ds; discriminate.
  - unfold randint in E. destruct (Z.ltb_spec b a); [lia|]. destruct ds; [reflexivity|discriminate].
Qed.

(** C7. For [rows >= 3], [cols >= 3] and a start point produced by
    [generate_start_on_border], whatever the random draws are:
    [generate_end_on_border] never raises; the coordinate it returns differs
    from the start and lies on the boundary of the grid; and it can only fail
    to return by running out of draws, every draw before the last one having
    chosen the side of the start ("left"). *)
Theorem end_on_border_correct (rows cols : Z) (ds0 ds1 : list nat) (start : Z * Z)
    (ds : list nat) :
  (3 <= rows)%Z -> (3 <= cols)%Z ->
  generate_start_on_border rows cols ds0 = Ret (start, ds1) ->
  match generate_end_on_border rows cols start ds with
  | Ret (e, _) => e <> start /\ on_border rows cols e
  | Raise _ => False
  | Diverge => Forall draws_left (removelast ds)
  end.
Proof.
  intros Hrows Hcols Hstart.
  apply start_on_border_shape in Hstart. destruct Hstart as [Hr Hc].
  destruct start as [sr sc]. simpl in Hr, Hc. subst sc.
  induction ds as [|d ds IH]; [constructor|].
  cbn [generate_end_on_border fst snd].
  assert (Hside : d mod 4 < 4) by (apply Nat.mod_upper_bound; lia).
  destruct (d mod 4) as [|[|[|[|k]]]] eqn:Ed; [| | | |exfalso; lia]; cbn [nth].
  - (* top *)
    replace (sr =? 0)%Z with false by (symmetry; apply Z.eqb_neq; lia). cbn [negb].
    pose proof (border_pick_ok 1 (cols - 2) (fun c => (0%Z, c)) ds ltac:(lia)) as H.
    destruct ((c <- randint 1 (cols - 2);; rret (0%Z, c)) ds) as [[e ds']|x|]; auto.
    + destruct H as (c & Hc & ->). split; [intros [= ? ?]; lia|]. left. reflexivity.
    + subst ds. constructor.
  - (* bottom *)
    replace (sr =? rows - 1)%Z with false by (symmetry; apply Z.eqb_neq; lia). cbn [negb].
    pose proof (border_pick_ok 1 (cols - 2) (fun c => ((rows - 1)%Z, c)) ds ltac:(lia)) as H.
    destruct ((c <- randint 1 (cols - 2);; rret ((rows - 1)%Z, c)) ds) as [[e ds']|x|]; auto.
    + destruct H as (c & Hc & ->). split; [intros [= ? ?]; lia|]. right. left. reflexivity.
    + subst ds. constructor.
  - (* left: the side of the start, drawn again *)
    cbn [negb Z.eqb].
    destruct (generate_end_on_border rows cols (sr, 0%Z) ds) as [[e ds']|x|]; auto.
    destruct ds as [|d' ds]; [constructor|].
    change (removelast (d :: d' :: ds)) with (d :: removelast (d' :: ds)).
    constructor; [exact Ed|exact IH].
  - (* right *)
    replace (0 =? cols - 1)%Z with false by (symmetry; apply Z.eqb_neq; lia). cbn [negb].
    pose proof (border_pick_ok 1 (rows - 2) (fun r => (r, (cols - 1)%Z)) ds ltac:(lia)) as H.
    destruct ((r <- randint 1 (rows - 2);; rret (r, (cols - 1)%Z)) ds) as [[e ds']|x|]; auto.
    + destruct H as (c & Hc & ->). split; [intros [= ? ?]; lia|]. right. right. right. reflexivity.
    + subst ds. constructor.
Qed.

Lemma end_on_border_witness :
  generate_start_on_border 5 5 [1] = Ret ((2, 0)%Z, []) /\
  generate_end_on_border 5 5 (2, 0)%Z [2; 3; 0] = Ret ((1, 4)%Z, []) /\
  (1, 4)%Z <> (2, 0)%Z /\ on_border 5 5 (1, 4)%Z.
Proof.
  split; [reflexivity|]. split; [reflexivity|].
  exact (end_on_border_correct 5 5 [1] [] (2, 0)%Z [2; 3; 0]
           ltac:(lia) ltac:(lia) eq_refl).
Defined.

(** * add_enemies_along_path *)

Lemma interior_lookup (path : list coord) i p :
  1 <= i -> i + 2 <= length path -> path !! i = Some p -> In p (interior path).
Proof.
  intros Hi Hlen Hp. unfold interior.
  destruct path as [|x t]; [simpl in Hlen; lia|].
  destruct i as [|j]; [lia|]. simpl in Hp, Hlen. cbn [tl].
  rewrite removelast_firstn_len. apply list_elem_of_In.
  apply list_elem_of_lookup_2 with j.
  change (take (Init.Nat.pred (length t)) t !! j = Some p).
  rewrite lookup_take_lt by lia. exact Hp.
Qed.

Lemma drawn_index_interior (path : list coord) ds i ds' p :
  randint 1 (Z.of_nat (length path) - 2) ds = Ret (i, ds') ->
  path !! Z.to_nat i = Some p -> In p (interior path).
Proof.
  intros Hr Hp. apply randint_range in Hr.
  apply interior_lookup with (Z.to_nat i); [lia|lia|exact Hp].
Qed.

Lemma drawn_index_in_range (path : list coord) ds i ds' :
  randint 1 (Z.of_nat (length path) - 2) ds = Ret (i, ds') ->
  is_Some (path !! Z.to_nat i).
Proof.
  intros Hr. apply randint_range in Hr. apply lookup_lt_is_Some. lia.
Qed.

(** The flags outside the interior of the path are left as they were,
    however the loop ends. *)
Lemma add_enemies_loop_frame n : forall (maze : Maze) path added ds p,
  ~ In p (interior path) ->
  enemy_of (fst (add_enemies_loop n maze path added ds)) p = enemy_of maze p.
Proof.
  induction n as [|n IH]; intros maze path added ds p Hp; [reflexivity|].
  cbn [add_enemies_loop].
  destruct (randint 1 (Z.of_nat (length path) - 2) ds) as [[i ds']|x|] eqn:Hr;
    [|reflexivity|reflexivity].
  destruct (path !! Z.to_nat i) as [q|] eqn:Hq; [|reflexivity].
  destruct (node_at maze q) as [nd|] eqn:Hnd; [|reflexivity].
  destruct (negb (is_enemy nd)).
  - rewrite IH by assumption. apply enemy_of_set_ne.
    intros ->. apply Hp. eapply drawn_index_interior; eauto.
  - apply IH, Hp.
Qed.

Lemma add_enemies_loop_count n : forall (maze : Maze) path added ds maze' added' ds',
  add_enemies_loop n maze path added ds = (maze', Ret (added', ds')) ->
  added <= added' <= added + n.
Proof.
  induction n as [|n IH]; intros maze path added ds maze' added' ds' H.
  - cbn in H. inversion H. lia.
  - cbn [add_enemies_loop] in H.
    destruct (randint 1 (Z.of_nat (length path) - 2) ds) as [[i ds0]|x|];
      [|discriminate|discriminate].
    destruct (path !! Z.to_nat i) as [q|]; [|discriminate].
    destruct (node_at maze q) as [nd|]; [|discriminate].
    destruct (negb (is_enemy nd)); apply IH in H; lia.
Qed.

(** A path too short to have an interior makes the first draw fail. *)
Lemma add_enemies_loop_short n (maze : Maze) path added ds :
  length path <= 2 ->
  add_enemies_loop (S n) maze path added ds = (maze, Raise ValueError).
Proof.
  intros Hlen. cbn [add_enemies_loop]. unfold randint.
  destruct (Z.ltb_spec (Z.of_nat (length path) - 2) 1); [reflexivity|lia].
Qed.

Lemma add_enemies_loop_no_raise n : forall (maze : Maze) path added ds x,
  3 <= length path ->
  (forall p, In p path -> is_Some (node_at maze p)) ->
  snd (add_enemies_loop n maze path added ds) <> Raise x.
Proof.
  induction n as [|n IH]; intros maze path added ds x Hlen Hin; [discriminate|].
  cbn [add_enemies_loop].
  destruct (randint 1 (Z.of_nat (length path) - 2) ds) as [[i ds0]|y|] eqn:Hr.
  - destruct (drawn_index_in_range _ _ _ _ Hr) as [q Hq]. rewrite Hq.
    destruct (Hin q) as [nd Hnd].
    { apply list_elem_of_In. eapply list_elem_of_lookup_2; eauto. }
    rewrite Hnd. destruct (negb (is_enemy nd)); apply IH; auto.
    intros p Hp. apply node_at_is_Some_upd. auto.
  - unfold randint in Hr.
    destruct (Z.ltb_spec (Z.of_nat (length path) - 2) 1); [lia|].
    destruct ds; discriminate.
  - discriminate.
Qed.

Lemma add_enemies_loop_returns n : forall (maze : Maze) path added ds,
  3 <= length path ->
  (forall p, In p path -> is_Some (node_at maze p)) ->
  n <= length ds ->
  exists maze' added', 
    add_enemies_loop n maze path added ds = (maze', Ret (added', drop n ds)).
Proof.
  induction n as [|n IH]; intros maze path added ds Hlen Hin Hds.
  - exists maze, added. reflexivity.
  - destruct ds as [|d ds]; [simpl in Hds; lia|]. simpl in Hds.
    cbn [add_enemies_loop drop].
    destruct (randint_returns 1 (Z.of_nat (length path) - 2) d ds) as [i Hr]; [lia|].
    rewrite Hr.
    destruct (drawn_index_in_range _ _ _ _ Hr) as [q Hq]. rewrite Hq.
    destruct (Hin q) as [nd Hnd].
    { apply list_elem_of_In. eapply list_elem_of_lookup_2; eauto. }
    rewrite Hnd. destruct (negb (is_enemy nd)); apply IH; auto; try lia.
    intros p Hp. apply node_at_is_Some_upd. auto.
Qed.

(** The index drawn protects the first and the last position of the list,
    not the cells that stand there: on a walk that comes back to its first
    cell, (0,0), (0,1), (0,0), (1,0) in [corner_maze], the draw of the index
    2 sets the flag of the first cell.  No path of [astar] is such a walk: a
    cell occurs once on it. *)
Lemma add_enemies_marks_source :
  generate_random_maze 2 2 0 [0; 0; 1; 1] = Ret (corner_maze, []) /\
  head [(0, 0); (0, 1); (0, 0); (1, 0)] = Some (0, 0) /\
  enemy_of corner_maze (0, 0) = false /\
  snd (add_enemies_along_path corner_maze [(0, 0); (0, 1); (0, 0); (1, 0)] 1 [1])
    = Ret (1, []) /\
  enemy_of
    (fst (add_enemies_along_path corner_maze [(0, 0); (0, 1); (0, 0); (1, 0)] 1 [1]))
    (0, 0) = true.
Proof. repeat split; reflexivity. Qed.

Lemma in_removelast {A} (x : A) l : In x (removelast l) -> In x l.
Proof.
  induction l as [|a l IH]; [intros []|].
  destruct l as [|b l]; [intros []|].
  change (removelast (a :: b :: l)) with (a :: removelast (b :: l)).
  intros [->|H]; [left; reflexivity|right; apply IH, H].
Qed.

Lemma interior_in (path : list coord) p : In p (interior path) -> In p path.
Proof.
  unfold interior. intros H. apply in_removelast in H.
  destruct path; [destruct H|right; exact H].
Qed.

(** The first cell of a path without repetition is not between its ends. *)
Lemma head_not_interior (path : list coord) s :
  NoDup path -> head path = Some s -> ~ In s (interior path).
Proof.
  intros Hnd Hh Hin. destruct path as [|a t]; [discriminate|].
  injection Hh as ->. unfold interior in Hin. cbn [tl] in Hin.
  apply in_removelast in Hin. inversion Hnd as [|? ? Hnot _]. subst.
  apply Hnot, list_elem_of_In, Hin.
Qed.

(** The last cell of a path without repetition is not between its ends. *)
Lemma last_not_removelast {A} (l : list A) x :
  NoDup l -> last l = Some x -> ~ In x (removelast l).
Proof.
  induction l as [|a l IH]; intros Hnd Hlast; [intros []|].
  destruct l as [|b l]; [intros []|].
  change (removelast (a :: b :: l)) with (a :: removelast (b :: l)).
  change (last (a :: b :: l)) with (last (b :: l)) in Hlast.
  inversion Hnd as [|? ? Hnot Hnd']. subst.
  intros [->|Hin].
  - apply Hnot. eapply last_Some_elem_of; eauto.
  - apply (IH Hnd' Hlast Hin).
Qed.

Lemma last_not_interior (path : list coord) s :
  NoDup path -> last path = Some s -> ~ In s (interior path).
Proof.
  intros Hnd Hlast. unfold interior. destruct path as [|a t]; [intros []|].
  cbn [tl]. destruct t as [|b t]; [intros []|].
  change (last (a :: b :: t)) with (last (b :: t)) in Hlast.
  inversion Hnd as [|? ? _ Hnd']. subst.
  apply last_not_removelast; assumption.
Qed.

(** C5. On a path without repetition, as the paths of [astar] are, and
    however the call ends, [add_enemies_along_path] never sets the obstacle
    flag of the first or of the last coordinate of the path: it leaves the
    flag of every cell that is not at an interior position as it was.  The
    count it returns never exceeds the requested count. *)
Theorem add_enemies_spares_endpoints (maze : Maze) (path : list coord)
    (num_enemies : nat) (ds : list nat) :
  NoDup path ->
  (forall p, head path = Some p \/ last path = Some p ->
             enemy_of (fst (add_enemies_along_path maze path num_enemies ds)) p
             = enemy_of maze p) /\
  (forall p, ~ In p (interior path) ->
             enemy_of (fst (add_enemies_along_path maze path num_enemies ds)) p
             = enemy_of maze p) /\
  (forall enemies_added ds',
     snd (add_enemies_along_path maze path num_enemies ds) = Ret (enemies_added, ds') ->
     enemies_added <= num_enemies).
Proof.
  intros Hnd. split; [|split].
  - intros p [Hp|Hp]; apply add_enemies_loop_frame.
    + apply head_not_interior; assumption.
    + apply last_not_interior; assumption.
  - intros p Hp. apply add_enemies_loop_frame, Hp.
  - intros added ds' H. unfold add_enemies_along_path in H.
    destruct (add_enemies_loop num_enemies maze path 0 ds) as [maze' out] eqn:E.
    simpl in H. subst out. apply add_enemies_loop_count in E. lia.
Qed.

Lemma add_enemies_spares_endpoints_witness :
  (forall p, head [(1, 0); (0, 0); (0, 1)] = Some p \/
             last [(1, 0); (0, 0); (0, 1)] = Some p ->
             enemy_of (fst (add_enemies_along_path corner_maze
                              [(1, 0); (0, 0); (0, 1)] 2 [0; 0])) p
             = enemy_of corner_maze p) /\
  (forall p, ~ In p (interior [(1, 0); (0, 0); (0, 1)]) ->
             enemy_of (fst (add_enemies_along_path corner_maze
                              [(1, 0); (0, 0); (0, 1)] 2 [0; 0])) p
             = enemy_of corner_maze p) /\
  (forall enemies_added ds',
     snd (add_enemies_along_path corner_maze [(1, 0); (0, 0); (0, 1)] 2 [0; 0])
       = Ret (enemies_added, ds') ->
     enemies_added <= 2).
Proof.
  apply (add_enemies_spares_endpoints corner_maze [(1, 0); (0, 0); (0, 1)] 2 [0; 0]).
  apply NoDup_alt. intros [|[|[|i]]] [|[|[|j]]] c Hi Hj;
    cbn in Hi, Hj; try discriminate; try reflexivity; congruence.
Defined.

(** C10. With a positive count, a path of exactly two coordinates makes
    [add_enemies_along_path] raise [ValueError] before it touches the maze; a
    path of three or more coordinates of the maze never makes it raise, and
    the call returns a count as soon as there is a draw for each pass. *)
Theorem add_enemies_short_path_raises (maze : Maze) (path : list coord)
    (num_enemies : nat) (ds : list nat) :
  0 < num_enemies ->
  (length path = 2 ->
   add_enemies_along_path maze path num_enemies ds = (maze, Raise ValueError)) /\
  (3 <= length path ->
   (forall p, In p path -> is_Some (node_at maze p)) ->
   (forall x, snd (add_enemies_along_path maze path num_enemies ds) <> Raise x) /\
   (num_enemies <= length ds ->
    exists maze' enemies_added,
      add_enemies_along_path maze path num_enemies ds
      = (maze', Ret (enemies_added, drop num_enemies ds)))).
Proof.
  intros Hpos. unfold add_enemies_along_path. split.
  - intros Hlen. destruct num_enemies as [|n]; [lia|].
    apply add_enemies_loop_short. lia.
  - intros Hlen Hin. split.
    + intros x. apply add_enemies_loop_no_raise; assumption.
    + intros Hds. apply add_enemies_loop_returns; assumption.
Qed.

Lemma add_enemies_short_path_witness :
  add_enemies_along_path corner_maze [(1, 0); (0, 0)] 2 [0; 0]
    = (corner_maze, Raise ValueError) /\
  exists maze' enemies_added,
    add_enemies_along_path corner_maze [(1, 0); (0, 0); (0, 1)] 2 [0; 0]
    = (maze', Ret (enemies_added, [])).
Proof.
  pose proof (add_enemies_short_path_raises corner_maze [(1, 0); (0, 0)] 2 [0; 0]
                ltac:(lia)) as [H2 _].
  pose proof (add_enemies_short_path_raises corner_maze [(1, 0); (0, 0); (0, 1)] 2 [0; 0]
                ltac:(lia)) as [_ H3].
  split.
  - apply H2. reflexivity.
  - apply H3.
    + simpl. lia.
    + intros p [<-|[<-|[<-|[]]]]; eexists; reflexivity.
    + simpl. lia.
Defined.


(** * generate_random_maze *)

(** ** Loops over the random draws *)

Lemma for_each_inv {X S} (P : S -> Prop) (body : X -> S -> Rand S) :
  forall (xs : list X) (s : S) ds s' ds',
  (forall x s ds s' ds', In x xs -> P s -> body x s ds = Ret (s', ds') -> P s') ->
  P s -> for_each xs body s ds = Ret (s', ds') -> P s'.
Proof.
  induction xs as [|x xs IH]; intros s ds s' ds' Hbody Hs H.
  - cbn in H. unfold rret in H. congruence.
  - cbn [for_each] in H. unfold rbind in H.
    destruct (body x s ds) as [[s1 ds1]|e|] eqn:E; try discriminate.
    eapply IH; [|eapply Hbody; [left; reflexivity|exact Hs|exact E]|exact H].
    intros. eapply Hbody; eauto. right. assumption.
Qed.

(** ** The shape of the maze *)

Lemma shape_node_at rows cols (maze : Maze) p :
  shape rows cols maze ->
  (is_Some (node_at maze p) <-> fst p < rows /\ snd p < cols).
Proof.
  intros [Hr Hc]. unfold node_at. split.
  - destruct (maze !! fst p) as [row|] eqn:E; [|intros [? ?]; discriminate].
    intros H. apply lookup_lt_is_Some in H. rewrite (Hc _ _ E) in H.
    apply lookup_lt_Some in E. lia.
  - intros [H1 H2]. destruct (lookup_lt_is_Some_2 maze (fst p)) as [row E]; [lia|].
    rewrite E. apply lookup_lt_is_Some. rewrite (Hc _ _ E). exact H2.
Qed.

Lemma shape_upd rows cols f p (maze : Maze) :
  shape rows cols maze -> shape rows cols (upd_node f p maze).
Proof.
  intros [Hr Hc]. split.
  - rewrite upd_node_length. exact Hr.
  - intros r row E. pose proof (upd_node_row_length f p maze r) as H.
    rewrite E in H. destruct (maze !! r) as [row0|] eqn:E0; [|discriminate].
    simpl in H. injection H as H. rewrite H. eapply Hc; eauto.
Qed.

Lemma shape_initial rows cols :
  shape rows cols (replicate rows (replicate cols new_node)).
Proof.
  split.
  - apply length_replicate.
  - intros r row E. apply lookup_replicate in E. destruct E as [-> _].
    apply length_replicate.
Qed.

Lemma wf_maze_shape rows cols maze : wf_maze rows cols maze -> shape rows cols maze.
Proof. intros H. split; [apply H|apply H]. Qed.

(** ** Pointers after a write *)

Lemma ptr_upd sel f a p (maze : Maze) :
  ptr sel (upd_node f a maze) p =
  if decide (a = p)
  then match node_at maze p with Some n => sel (f n) | None => None end
  else ptr sel maze p.
Proof.
  unfold ptr. rewrite node_at_upd. destruct (decide (a = p)); [|reflexivity].
  destruct (node_at maze p); reflexivity.
Qed.

Lemma ptr_upd_other sel f a p (maze : Maze) :
  (forall n, sel (f n) = sel n) -> ptr sel (upd_node f a maze) p = ptr sel maze p.
Proof.
  intros Hf. rewrite ptr_upd. destruct (decide (a = p)); [|reflexivity].
  unfold ptr. destruct (node_at maze p); auto.
Qed.

Lemma ptr_upd_set sel f v a p (maze : Maze) :
  (forall n, sel (f n) = Some v) -> is_Some (node_at maze a) ->
  ptr sel (upd_node f a maze) p = if decide (a = p) then Some v else ptr sel maze p.
Proof.
  intros Hf [n Hn]. rewrite ptr_upd. destruct (decide (a = p)) as [<-|]; [|reflexivity].
  rewrite Hn. apply Hf.
Qed.

Lemma ptr_initial sel rows cols p :
  (sel new_node = None) -> ptr sel (replicate rows (replicate cols new_node)) p = None.
Proof.
  intros Hsel. unfold ptr, node_at.
  destruct (replicate rows (replicate cols new_node) !! fst p) as [row|] eqn:E;
    [|reflexivity].
  apply lookup_replicate in E. destruct E as [-> _].
  destruct (replicate cols new_node !! snd p) as [n|] eqn:E; [|reflexivity].
  apply lookup_replicate in E. destruct E as [-> _]. exact Hsel.
Qed.

Lemma wf_initial rows cols :
  wf_maze rows cols (replicate rows (replicate cols new_node)).
Proof.
  pose proof (shape_initial rows cols) as [Hr Hc].
  constructor; try assumption; intros p q;
    rewrite ?ptr_initial by reflexivity; try discriminate.
  - split; discriminate.
  - split; discriminate.
Qed.

(** ** The two assignments that open a wall *)

Section Link.
Variables (rows cols : nat) (maze : Maze).
Hypothesis Hwf : wf_maze rows cols maze.

Lemma link_right_pointers r c :
  r < rows -> c + 1 < cols ->
  forall p,
    ptr right (link_right r c maze) p
      = (if decide ((r, c) = p) then Some (r, c + 1) else ptr right maze p) /\
    ptr left (link_right r c maze) p
      = (if decide ((r, c + 1) = p) then Some (r, c) else ptr left maze p) /\
    ptr up (link_right r c maze) p = ptr up maze p /\
    ptr down (link_right r c maze) p = ptr down maze p.
Proof.
  intros Hr Hc p. pose proof (wf_maze_shape _ _ _ Hwf) as Hsh.
  assert (Ha : is_Some (node_at maze (r, c))).
  { apply (shape_node_at rows cols); [exact Hsh|simpl; lia]. }
  assert (Hb : is_Some (node_at (upd_node (set_right (Some (r, c + 1))) (r, c) maze)
                          (r, c + 1))).
  { apply node_at_is_Some_upd, (shape_node_at rows cols); [exact Hsh|simpl; lia]. }
  unfold link_right. repeat split.
  - rewrite ptr_upd_other by reflexivity.
    apply (ptr_upd_set right _ (r, c + 1)); [reflexivity|exact Ha].
  - rewrite (ptr_upd_set left _ (r, c)); [|reflexivity|exact Hb].
    destruct (decide ((r, c + 1) = p)); [reflexivity|].
    apply ptr_upd_other. reflexivity.
  - rewrite !ptr_upd_other by reflexivity. reflexivity.
  - rewrite !ptr_upd_other by reflexivity. reflexivity.
Qed.

Lemma link_down_pointers r c :
  r + 1 < rows -> c < cols ->
  forall p,
    ptr down (link_down r c maze) p
      = (if decide ((r, c) = p) then Some (r + 1, c) else ptr down maze p) /\
    ptr up (link_down r c maze) p
      = (if decide ((r + 1, c) = p) then Some (r, c) else ptr up maze p) /\
    ptr left (link_down r c maze) p = ptr left maze p /\
    ptr right (link_down r c maze) p = ptr right maze p.
Proof.
  intros Hr Hc p. pose proof (wf_maze_shape _ _ _ Hwf) as Hsh.
  assert (Ha : is_Some (node_at maze (r, c))).
  { apply (shape_node_at rows cols); [exact Hsh|simpl; lia]. }
  assert (Hb : is_Some (node_at (upd_node (set_down (Some (r + 1, c))) (r, c) maze)
                          (r + 1, c))).
  { apply node_at_is_Some_upd, (shape_node_at rows cols); [exact Hsh|simpl; lia]. }
  unfold link_down. repeat split.
  - rewrite ptr_upd_other by reflexivity.
    apply (ptr_upd_set down _ (r + 1, c)); [reflexivity|exact Ha].
  - rewrite (ptr_upd_set up _ (r, c)); [|reflexivity|exact Hb].
    destruct (decide ((r + 1, c) = p)); [reflexivity|].
    apply ptr_upd_other. reflexivity.
  - rewrite !ptr_upd_other by reflexivity. reflexivity.
  - rewrite !ptr_upd_other by reflexivity. reflexivity.
Qed.

Lemma wf_link_right r c :
  r < rows -> c + 1 < cols -> wf_maze rows cols (link_right r c maze).
Proof.
  intros Hr Hc. pose proof (link_right_pointers r c Hr Hc) as E.
  pose proof (wf_maze_shape _ _ _ Hwf) as Hsh.
  assert (Hsh' : shape rows cols (link_right r c maze)).
  { unfold link_right. do 2 apply shape_upd. exact Hsh. }
  destruct Hsh' as [Hrows Hcols].
  constructor; try assumption; intros p q.
  - destruct (E p) as (_ & -> & _ & _).
    destruct (decide ((r, c + 1) = p)) as [<-|Hne].
    + intros [= <-]. simpl. split; [lia|f_equal; lia].
    + apply (wf_left _ _ _ Hwf).
  - destruct (E p) as (-> & _ & _ & _).
    destruct (decide ((r, c) = p)) as [<-|Hne].
    + intros [= <-]. simpl. split; [lia|reflexivity].
    + apply (wf_right _ _ _ Hwf).
  - destruct (E p) as (_ & _ & -> & _). apply (wf_up _ _ _ Hwf).
  - destruct (E p) as (_ & _ & _ & ->). apply (wf_down _ _ _ Hwf).
  - destruct (E p) as (-> & _ & _ & _). destruct (E q) as (_ & -> & _ & _).
    destruct (decide ((r, c) = p)) as [<-|Hp];
      destruct (decide ((r, c + 1) = q)) as [<-|Hq].
    + split; reflexivity.
    + split; [intros [= <-]; congruence|].
      intros H. apply (wf_left_right _ _ _ Hwf) in H.
      apply (wf_right _ _ _ Hwf) in H. simpl in H. destruct H as [_ ->]. congruence.
    + split; [|intros [= <-]; congruence].
      intros H. apply (wf_right _ _ _ Hwf) in H. destruct H as [_ H].
      destruct p as [pr pc]. simpl in H. injection H as -> H.
      exfalso. apply Hp. f_equal. lia.
    + apply (wf_left_right _ _ _ Hwf).
  - destruct (E p) as (_ & _ & _ & ->). destruct (E q) as (_ & _ & -> & _).
    apply (wf_up_down _ _ _ Hwf).
Qed.

Lemma wf_link_down r c :
  r + 1 < rows -> c < cols -> wf_maze rows cols (link_down r c maze).
Proof.
  intros Hr Hc. pose proof (link_down_pointers r c Hr Hc) as E.
  pose proof (wf_maze_shape _ _ _ Hwf) as Hsh.
  assert (Hsh' : shape rows cols (link_down r c maze)).
  { unfold link_down. do 2 apply shape_upd. exact Hsh. }
  destruct Hsh' as [Hrows Hcols].
  constructor; try assumption; intros p q.
  - destruct (E p) as (_ & _ & -> & _). apply (wf_left _ _ _ Hwf).
  - destruct (E p) as (_ & _ & _ & ->). apply (wf_right _ _ _ Hwf).
  - destruct (E p) as (_ & -> & _ & _).
    destruct (decide ((r + 1, c) = p)) as [<-|Hne].
    + intros [= <-]. simpl. split; [lia|f_equal; lia].
    + apply (wf_up _ _ _ Hwf).
  - destruct (E p) as (-> & _ & _ & _).
    destruct (decide ((r, c) = p)) as [<-|Hne].
    + intros [= <-]. simpl. split; [lia|reflexivity].
    + apply (wf_down _ _ _ Hwf).
  - destruct (E p) as (_ & _ & _ & ->). destruct (E q) as (_ & _ & -> & _).
    apply (wf_left_right _ _ _ Hwf).
  - destruct (E p) as (-> & _ & _ & _). destruct (E q) as (_ & -> & _ & _).
    destruct (decide ((r, c) = p)) as [<-|Hp];
      destruct (decide ((r + 1, c) = q)) as [<-|Hq].
    + split; reflexivity.
    + split; [intros [= <-]; congruence|].
      intros H. apply (wf_up_down _ _ _ Hwf) in H.
      apply (wf_down _ _ _ Hwf) in H. simpl in H. destruct H as [_ ->]. congruence.
    + split; [|intros [= <-]; congruence].
      intros H. apply (wf_down _ _ _ Hwf) in H. destruct H as [_ H].
      destruct p as [pr pc]. simpl in H. injection H as H ->.
      exfalso. apply Hp. f_equal. lia.
    + apply (wf_up_down _ _ _ Hwf).
Qed.

(** Marking an obstacle leaves the pointers alone. *)
Lemma wf_set_is_enemy v p : wf_maze rows cols (upd_node (set_is_enemy v) p maze).
Proof.
  pose proof (shape_upd rows cols (set_is_enemy v) p maze (wf_maze_shape _ _ _ Hwf))
    as [Hrows Hcols].
  constructor; try assumption; intros a b;
    rewrite ?ptr_upd_other by reflexivity; apply Hwf.
Qed.

End Link.

(** ** The passes of the loops *)

Lemma choice_returns {A} (x : A) xs ds v ds' :
  choice x xs ds = Ret (v, ds') -> exists d, ds = d :: ds'.
Proof.
  unfold choice. destruct ds as [|d ds0]; [discriminate|].
  intros [= _ <-]. eauto.
Qed.

Lemma connect_cell_cases rows cols row col (maze : Maze) ds maze' ds' :
  connect_cell rows cols row col maze ds = Ret (maze', ds') ->
  exists maze1,
    (maze1 = maze \/ (col + 1 < cols /\ maze1 = link_right row col maze)) /\
    (maze' = maze1 \/ (row + 1 < rows /\ maze' = link_down row col maze1)).
Proof.
  unfold connect_cell, rbind, rret. intros H.
  destruct (Nat.ltb_spec col (cols - 1)) as [Hc|Hc].
  - destruct (choice true [false] ds) as [[b ds1]|e|]; try discriminate.
    destruct b.
    + exists (link_right row col maze). split; [right; split; [lia|reflexivity]|].
      destruct (Nat.ltb_spec row (rows - 1)) as [Hr|Hr].
      * destruct (choice true [false] ds1) as [[b ds2]|e|]; try discriminate.
        destruct b; injection H as <- _; [right; split; [lia|reflexivity]|left; reflexivity].
      * injection H as <- _. left. reflexivity.
    + exists maze. split; [left; reflexivity|].
      destruct (Nat.ltb_spec row (rows - 1)) as [Hr|Hr].
      * destruct (choice true [false] ds1) as [[b ds2]|e|]; try discriminate.
        destruct b; injection H as <- _; [right; split; [lia|reflexivity]|left; reflexivity].
      * injection H as <- _. left. reflexivity.
  - exists maze. split; [left; reflexivity|].
    destruct (Nat.ltb_spec row (rows - 1)) as [Hr|Hr].
    + destruct (choice true [false] ds) as [[b ds2]|e|]; try discriminate.
      destruct b; injection H as <- _; [right; split; [lia|reflexivity]|left; reflexivity].
    + injection H as <- _. left. reflexivity.
Qed.

Lemma place_enemy_cases rows cols i (maze : Maze) ds maze' ds' :
  place_enemy rows cols i maze ds = Ret (maze', ds') ->
  exists r c, r < rows /\ c < cols /\
              maze' = upd_node (set_is_enemy true) (r, c) maze.
Proof.
  unfold place_enemy, rbind, rret. intros H.
  destruct (randint 0 (Z.of_nat rows - 1) ds) as [[r ds1]|e|] eqn:Er; try discriminate.
  destruct (randint 0 (Z.of_nat cols - 1) ds1) as [[c ds2]|e|] eqn:Ec; try discriminate.
  apply randint_range in Er, Ec. injection H as <- _.
  exists (Z.to_nat r), (Z.to_nat c). repeat split; lia.
Qed.

(** A property that the two links and the marking of a cell preserve holds
    of the generated maze if it holds of the empty one. *)
Lemma generate_random_maze_inv (P : Maze -> Prop) rows cols num_enemies ds maze ds' :
  (forall m r c, P m -> r < rows -> c + 1 < cols -> P (link_right r c m)) ->
  (forall m r c, P m -> r + 1 < rows -> c < cols -> P (link_down r c m)) ->
  (forall m r c, P m -> r < rows -> c < cols ->
                 P (upd_node (set_is_enemy true) (r, c) m)) ->
  P (replicate rows (replicate cols new_node)) ->
  generate_random_maze rows cols num_enemies ds = Ret (maze, ds') -> P maze.
Proof.
  intros Hright Hdown Henemy Hinit H.
  unfold generate_random_maze, rbind in H.
  destruct (for_each (seq 0 rows) _ _ ds) as [[maze1 ds1]|e|] eqn:E1; try discriminate.
  assert (H1 : P maze1).
  { eapply (for_each_inv P); [|exact Hinit|exact E1].
    intros row s ds2 s' ds2' Hrow Hs Hbody.
    apply in_seq in Hrow.
    eapply (for_each_inv P); [|exact Hs|exact Hbody].
    intros col t ds3 t' ds3' Hcol Ht Hcell. apply in_seq in Hcol.
    apply connect_cell_cases in Hcell.
    destruct Hcell as (m1 & [->|[Hc ->]] & [->|[Hr ->]]); auto.
    - apply Hdown; [assumption|lia|lia].
    - apply Hright; [assumption|lia|lia].
    - apply Hdown; [|lia|lia]. apply Hright; [assumption|lia|lia]. }
  eapply (for_each_inv P); [|exact H1|exact H].
  intros i s ds2 s' ds2' _ Hs Hbody. apply place_enemy_cases in Hbody.
  destruct Hbody as (r & c & Hr & Hc & ->). apply Henemy; assumption.
Qed.

(** The maze that [generate_random_maze] returns satisfies the grid
    invariant. *)
Lemma generate_random_maze_wf rows cols num_enemies ds (maze : Maze) ds' :
  generate_random_maze rows cols num_enemies ds = Ret (maze, ds') ->
  wf_maze rows cols maze.
Proof.
  apply generate_random_maze_inv.
  - intros. apply wf_link_right; assumption.
  - intros. apply wf_link_down; assumption.
  - intros. apply wf_set_is_enemy; assumption.
  - apply wf_initial.
Qed.

(** C9. Every maze that [generate_random_maze] returns satisfies the grid
    invariant: each pointer that is set refers to the cell next to its owner
    inside the rectangle, right/left and down/up pointers come in opposite
    pairs, and no cell of the last column has a right pointer, no cell of the
    last row a down pointer. *)
Theorem generated_maze_wf (rows cols num_enemies : nat) (ds : list nat)
    (maze : Maze) (ds' : list nat) :
  generate_random_maze rows cols num_enemies ds = Ret (maze, ds') ->
  wf_maze rows cols maze /\
  (forall r, ptr right maze (r, cols - 1) = None) /\
  (forall c, ptr down maze (rows - 1, c) = None).
Proof.
  intros H. pose proof (generate_random_maze_wf _ _ _ _ _ _ H) as Hwf.
  split; [exact Hwf|]. split.
  - intros r. destruct (ptr right maze (r, cols - 1)) as [q|] eqn:E; [|reflexivity].
    apply (wf_right _ _ _ Hwf) in E. simpl in E. lia.
  - intros c. destruct (ptr down maze (rows - 1, c)) as [q|] eqn:E; [|reflexivity].
    apply (wf_down _ _ _ Hwf) in E. simpl in E. lia.
Qed.

Lemma generated_maze_wf_witness :
  wf_maze 2 2 corner_maze /\
  (forall r, ptr right corner_maze (r, 2 - 1) = None) /\
  (forall c, ptr down corner_maze (2 - 1, c) = None).
Proof.
  exact (generated_maze_wf 2 2 0 [0; 0; 1; 1] corner_maze [] eq_refl).
Defined.

(** ** Counting the obstacles *)

Lemma count_enemies_cons row (maze : Maze) :
  count_enemies (row :: maze) = row_enemies row + count_enemies maze.
Proof.
  unfold count_enemies, row_enemies. simpl. rewrite filter_app, length_app. reflexivity.
Qed.

Lemma row_enemies_cons n row :
  row_enemies (n :: row) = (if is_enemy n then 1 else 0) + row_enemies row.
Proof.
  unfold row_enemies. destruct (is_enemy n) eqn:E.
  - rewrite filter_cons_True by assumption. reflexivity.
  - rewrite filter_cons_False by congruence. reflexivity.
Qed.

Lemma row_enemies_alter_same f c row :
  (forall n, is_enemy (f n) = is_enemy n) ->
  row_enemies (alter f c row) = row_enemies row.
Proof.
  intros Hf. revert c. induction row as [|n row IH]; intros c; [reflexivity|].
  destruct c as [|c]; simpl; rewrite !row_enemies_cons.
  - rewrite Hf. reflexivity.
  - f_equal. apply IH.
Qed.

Lemma row_enemies_mark c row :
  row_enemies row <= row_enemies (alter (set_is_enemy true) c row) <= S (row_enemies row)
  /\ (c < length row -> 0 < row_enemies (alter (set_is_enemy true) c row)).
Proof.
  revert c. induction row as [|n row IH]; intros c.
  - simpl. split; [unfold row_enemies; simpl; lia|lia].
  - destruct c as [|c].
    + change (alter (set_is_enemy true) 0 (n :: row)) with (set_is_enemy true n :: row).
      rewrite !row_enemies_cons. simpl. destruct (is_enemy n); lia.
    + change (alter (set_is_enemy true) (S c) (n :: row))
        with (n :: alter (set_is_enemy true) c row).
      rewrite !row_enemies_cons. destruct (IH c) as [H1 H2].
      split; [lia|]. intros H. simpl in H. assert (H' : c < length row) by lia.
      apply H2 in H'. lia.
Qed.

Lemma count_enemies_upd_same f p (maze : Maze) :
  (forall n, is_enemy (f n) = is_enemy n) ->
  count_enemies (upd_node f p maze) = count_enemies maze.
Proof.
  intros Hf. destruct p as [r c]. unfold upd_node. simpl. revert r.
  induction maze as [|row maze IH]; intros r; [reflexivity|].
  destruct r as [|r]; simpl; rewrite !count_enemies_cons.
  - rewrite row_enemies_alter_same by assumption. reflexivity.
  - f_equal. apply IH.
Qed.

Lemma count_enemies_mark p (maze : Maze) :
  count_enemies maze <= count_enemies (upd_node (set_is_enemy true) p maze)
    <= S (count_enemies maze)
  /\ (is_Some (node_at maze p) ->
      0 < count_enemies (upd_node (set_is_enemy true) p maze)).
Proof.
  destruct p as [r c]. unfold upd_node, node_at. simpl. revert r.
  induction maze as [|row maze IH]; intros r.
  - assert (E : alter (alter (set_is_enemy true) c) r ([] : Maze) = [])
      by (destruct r; reflexivity).
    rewrite E. split; [lia|]. intros [? ?]. discriminate.
  - destruct r as [|r].
    + change (alter (alter (set_is_enemy true) c) 0 (row :: maze))
        with (alter (set_is_enemy true) c row :: maze).
      change ((row :: maze) !! 0) with (Some row).
      rewrite !count_enemies_cons.
      destruct (row_enemies_mark c row) as [H1 H2]. split; [lia|].
      intros H. apply lookup_lt_is_Some in H. apply H2 in H. lia.
    + change (alter (alter (set_is_enemy true) c) (S r) (row :: maze))
        with (row :: alter (alter (set_is_enemy true) c) r maze).
      change ((row :: maze) !! S r) with (maze !! r).
      rewrite !count_enemies_cons.
      destruct (IH r) as [H1 H2]. split; [lia|]. intros H. apply H2 in H. lia.
Qed.

Lemma count_enemies_initial rows cols :
  count_enemies (replicate rows (replicate cols new_node)) = 0.
Proof.
  induction rows as [|rows IH]; [reflexivity|].
  simpl. rewrite count_enemies_cons, IH.
  assert (H : row_enemies (replicate cols new_node) = 0).
  { clear IH. induction cols as [|cols IHc]; [reflexivity|].
    simpl. rewrite row_enemies_cons. exact IHc. }
  rewrite H. reflexivity.
Qed.

Lemma count_enemies_link_right r c (maze : Maze) :
  count_enemies (link_right r c maze) = count_enemies maze.
Proof. unfold link_right. rewrite !count_enemies_upd_same by reflexivity. reflexivity. Qed.

Lemma count_enemies_link_down r c (maze : Maze) :
  count_enemies (link_down r c maze) = count_enemies maze.
Proof. unfold link_down. rewrite !count_enemies_upd_same by reflexivity. reflexivity. Qed.

(** The passes that place the obstacles, from a maze of the right shape with
    [k] obstacles. *)
Lemma place_enemies_count rows cols : forall (passes : list nat) (maze : Maze) ds maze' ds',
  shape rows cols maze ->
  for_each passes (place_enemy rows cols) maze ds = Ret (maze', ds') ->
  count_enemies maze <= count_enemies maze' <= count_enemies maze + length passes
  /\ (0 < length passes -> 0 < count_enemies maze').
Proof.
  induction passes as [|i passes IH]; intros maze ds maze' ds' Hsh H.
  - cbn in H. unfold rret in H. injection H as <- _. simpl. lia.
  - cbn [for_each] in H. unfold rbind in H.
    destruct (place_enemy rows cols i maze ds) as [[maze1 ds1]|e|] eqn:E; try discriminate.
    apply place_enemy_cases in E. destruct E as (r & c & Hr & Hc & ->).
    destruct (count_enemies_mark (r, c) maze) as [H1 H2].
    assert (Hin : is_Some (node_at maze (r, c))).
    { apply (shape_node_at rows cols); [exact Hsh|simpl; lia]. }
    apply H2 in Hin.
    apply IH in H; [|apply shape_upd; exact Hsh].
    simpl. lia.
Qed.

(** C4, as stated, fails: the two obstacle draws of this call select the
    cell (1,1) twice, and the maze returned has one obstacle, not two. *)
Lemma random_maze_repeated_enemy :
  2 <= 2 * 2 /\
  exists maze ds',
    generate_random_maze 2 2 2 [1; 1; 1; 1; 1; 1; 3; 3] = Ret (maze, ds') /\
    count_enemies maze = 1.
Proof. split; [lia|]. eexists. eexists. split; reflexivity. Qed.

(** C4 (amended). The maze that [generate_random_maze] returns has at most
    [num_enemies] obstacle cells, and at least one when [num_enemies] is
    positive: each pass marks the cell it draws, and a cell drawn again is
    already marked. *)
Theorem random_maze_enemy_count (rows cols num_enemies : nat) (ds : list nat)
    (maze : Maze) (ds' : list nat) :
  generate_random_maze rows cols num_enemies ds = Ret (maze, ds') ->
  count_enemies maze <= num_enemies /\ (0 < num_enemies -> 0 < count_enemies maze).
Proof.
  intros H. unfold generate_random_maze, rbind in H.
  destruct (for_each (seq 0 rows) _ _ ds) as [[maze1 ds1]|e|] eqn:E1; try discriminate.
  assert (H1 : shape rows cols maze1 /\ count_enemies maze1 = 0).
  { eapply (for_each_inv (fun m => shape rows cols m /\ count_enemies m = 0));
      [|split; [apply shape_initial|apply count_enemies_initial]|exact E1].
    intros row s ds2 s' ds2' _ Hs Hbody.
    eapply (for_each_inv (fun m => shape rows cols m /\ count_enemies m = 0));
      [|exact Hs|exact Hbody].
    intros col t ds3 t' ds3' _ [Ht1 Ht2] Hcell.
    apply connect_cell_cases in Hcell.
    destruct Hcell as (m1 & [->|[Hc ->]] & [->|[Hr ->]]);
      unfold link_right, link_down;
      rewrite ?count_enemies_upd_same by reflexivity;
      (split; [repeat apply shape_upd; exact Ht1|exact Ht2]). }
  destruct H1 as [Hsh H0].
  apply (place_enemies_count rows cols) in H; [|exact Hsh].
  rewrite length_seq in H. lia.
Qed.

Lemma random_maze_enemy_count_witness :
  exists maze,
    generate_random_maze 2 2 2 [1; 1; 1; 1; 1; 1; 3; 3] = Ret (maze, []) /\
    count_enemies maze <= 2 /\ (0 < 2 -> 0 < count_enemies maze).
Proof.
  eexists. split; [reflexivity|].
  exact (random_maze_enemy_count 2 2 2 [1; 1; 1; 1; 1; 1; 3; 3] _ [] eq_refl).
Defined.


(** * heapq keeps the items it is given *)

Section HeapqItems.
Context {A : Type}.
Variable lt : A -> A -> bool.

(** Writing [x] over [a] trades one for the other. *)
Lemma insert_trade (l : list A) i a x :
  l !! i = Some a -> Permutation (x :: l) (a :: <[i := x]> l).
Proof.
  revert i. induction l as [|y l IH]; intros i H; [discriminate|].
  destruct i as [|i]; simpl in *.
  - injection H as ->. apply perm_swap.
  - rewrite perm_swap. rewrite (IH _ H). apply perm_swap.
Qed.

Lemma div2_pred_lt pos : 0 < pos -> Nat.div2 (pos - 1) < pos.
Proof.
  intros H. pose proof (Nat.div2_decr (pos - 1) (pos - 1) ltac:(lia)). lia.
Qed.

(** An item in hand and a heap with a free slot holding a stale copy [a]:
    sifting puts the item in and overwrites the copy. *)
Lemma siftdown_loop_items fuel : forall (heap : list A) startpos pos newitem a,
  heap !! pos = Some a ->
  Permutation (newitem :: heap) (a :: siftdown_loop lt fuel heap startpos pos newitem).
Proof.
  induction fuel as [|fuel IH]; intros heap startpos pos newitem a Ha.
  - simpl. apply insert_trade, Ha.
  - cbn [siftdown_loop].
    destruct (Nat.ltb_spec startpos pos) as [Hpos|Hpos]; [|apply insert_trade, Ha].
    destruct (heap !! Nat.div2 (pos - 1)) as [parent|] eqn:Hp; [|apply insert_trade, Ha].
    destruct (lt newitem parent); [|apply insert_trade, Ha].
    assert (Hlt : Nat.div2 (pos - 1) < pos) by (apply div2_pred_lt; lia).
    assert (Hp' : <[pos := parent]> heap !! Nat.div2 (pos - 1) = Some parent).
    { rewrite list_lookup_insert_ne by lia. exact Hp. }
    pose proof (IH _ startpos _ newitem _ Hp') as H1.
    pose proof (insert_trade heap pos a parent Ha) as H2.
    apply (Permutation_cons_inv (a := parent)).
    transitivity (newitem :: parent :: heap); [apply perm_swap|].
    transitivity (newitem :: a :: <[pos := parent]> heap); [apply perm_skip, H2|].
    transitivity (a :: newitem :: <[pos := parent]> heap); [apply perm_swap|].
    transitivity (a :: parent :: siftdown_loop lt fuel (<[pos := parent]> heap)
                                   startpos (Nat.div2 (pos - 1)) newitem);
      [apply perm_skip, H1|apply perm_swap].
Qed.

Lemma siftdown_items (heap : list A) startpos pos :
  Permutation heap (siftdown lt heap startpos pos).
Proof.
  unfold siftdown. destruct (heap !! pos) as [newitem|] eqn:E; [|reflexivity].
  apply (Permutation_cons_inv (a := newitem)).
  apply siftdown_loop_items, E.
Qed.

Lemma siftup_exit_items (heap : list A) startpos pos newitem a :
  heap !! pos = Some a ->
  Permutation (newitem :: heap) (a :: siftdown lt (<[pos := newitem]> heap) startpos pos).
Proof.
  intros Ha. rewrite <- siftdown_items. apply insert_trade, Ha.
Qed.

Lemma siftup_loop_items fuel : forall (heap : list A) endpos startpos pos newitem a,
  heap !! pos = Some a ->
  Permutation (newitem :: heap)
    (a :: siftup_loop lt fuel heap endpos startpos pos newitem).
Proof.
  induction fuel as [|fuel IH]; intros heap endpos startpos pos newitem a Ha.
  - apply siftup_exit_items, Ha.
  - cbn [siftup_loop].
    destruct (Nat.ltb_spec (2 * pos + 1) endpos) as [Hc|Hc]; [|apply siftup_exit_items, Ha].
    set (childpos' := match heap !! (2 * pos + 1), heap !! (2 * pos + 1 + 1) with
                      | Some c, Some r =>
                          if negb (lt c r) then 2 * pos + 1 + 1 else 2 * pos + 1
                      | _, _ => 2 * pos + 1
                      end).
    assert (Hgt : pos < childpos').
    { unfold childpos'. destruct (heap !! (2 * pos + 1)); [|lia].
      destruct (heap !! (2 * pos + 1 + 1)); [|lia]. destruct (negb (lt _ _)); lia. }
    destruct (heap !! childpos') as [c|] eqn:Hchild; [|apply siftup_exit_items, Ha].
    assert (Hc' : <[pos := c]> heap !! childpos' = Some c).
    { rewrite list_lookup_insert_ne by lia. exact Hchild. }
    pose proof (IH _ endpos startpos _ newitem _ Hc') as H1.
    pose proof (insert_trade heap pos a c Ha) as H2.
    apply (Permutation_cons_inv (a := c)).
    transitivity (newitem :: c :: heap); [apply perm_swap|].
    transitivity (newitem :: a :: <[pos := c]> heap); [apply perm_skip, H2|].
    transitivity (a :: newitem :: <[pos := c]> heap); [apply perm_swap|].
    transitivity (a :: c :: siftup_loop lt fuel (<[pos := c]> heap)
                              endpos startpos childpos' newitem);
      [apply perm_skip, H1|apply perm_swap].
Qed.

Lemma siftup_items (heap : list A) pos : Permutation heap (siftup lt heap pos).
Proof.
  unfold siftup. destruct (heap !! pos) as [newitem|] eqn:E; [|reflexivity].
  apply (Permutation_cons_inv (a := newitem)).
  apply siftup_loop_items, E.
Qed.

Lemma heappush_items (heap : list A) item :
  Permutation (item :: heap) (heappush lt heap item).
Proof.
  unfold heappush. rewrite <- siftdown_items. apply Permutation_cons_append.
Qed.

Lemma heappop_empty (heap : list A) : heappop lt heap = None <-> heap = [].
Proof.
  unfold heappop. split.
  - destruct (last heap) as [x|] eqn:E.
    + destruct (take (length heap - 1) heap); discriminate.
    + intros _. apply last_None. exact E.
  - intros ->. reflexivity.
Qed.

Lemma heappop_items (heap : list A) x rest :
  heappop lt heap = Some (x, rest) -> Permutation heap (x :: rest).
Proof.
  unfold heappop. destruct (last heap) as [lastelt|] eqn:E; [|discriminate].
  apply last_Some in E. destruct E as [init ->].
  rewrite length_app. simpl.
  replace (length init + 1 - 1) with (length init) by lia.
  rewrite take_app_length.
  destruct init as [|returnitem rest0].
  - intros [= <- <-]. reflexivity.
  - intros [= <- <-]. simpl. apply perm_skip.
    rewrite <- siftup_items. symmetry. apply Permutation_cons_append.
Qed.

Lemma heappop_length (heap : list A) x rest :
  heappop lt heap = Some (x, rest) -> length heap = S (length rest).
Proof. intros H. apply heappop_items, Permutation_length in H. exact H. Qed.

Lemma heappush_length (heap : list A) item :
  length (heappush lt heap item) = S (length heap).
Proof. symmetry. apply (Permutation_length (heappush_items heap item)). Qed.

End HeapqItems.


(** * The search loop, pass by pass *)

Lemma relax_eq e g (maze : Maze) pq nb :
  relax e g (maze, pq) nb =
  if relaxes g maze nb
  then (lowered g nb maze, heappush (entry_lt (lowered g nb maze)) pq (pushed e g nb))
  else (maze, pq).
Proof.
  unfold relax, relaxes, lowered, pushed. simpl.
  destruct (negb (visited_of maze nb) && negb (enemy_of maze nb)); simpl; [|reflexivity].
  destruct (dist_ltb (Finite (g + 1)) (distance_of maze nb)); reflexivity.
Qed.

Lemma relaxes_true g (maze : Maze) nb :
  relaxes g maze nb = true <->
  visited_of maze nb = false /\ enemy_of maze nb = false /\
  dist_ltb (Finite (g + 1)) (distance_of maze nb) = true.
Proof.
  unfold relaxes. rewrite !andb_true_iff, !negb_true_iff. tauto.
Qed.

Lemma visit_eq e x (maze : Maze) pq :
  visit e x maze pq =
  if visited_of maze (e_node x) then (maze, pq)
  else fold_left (relax e (e_g x)) (neighbors (mark x maze) (e_node x)) (mark x maze, pq).
Proof. reflexivity. Qed.

Section SearchInvariant.
Variable e : coord.
(** [Inv maze pq] holds between two passes of the [while] loop;
    [Inner x maze1 done maze pq] inside the pass that visits the node of the
    entry [x], where [maze1] is the maze as the pass found it after marking
    the node and [done] lists the neighbours already handled. *)
Variable Inv : Maze -> list entry -> Prop.
Variable Inner : entry -> Maze -> list coord -> Maze -> list entry -> Prop.

Hypothesis Inv_skip : forall (maze : Maze) pq x pq',
  Inv maze pq -> heappop (entry_lt maze) pq = Some (x, pq') ->
  visited_of maze (e_node x) = true -> Inv maze pq'.
Hypothesis Inv_mark : forall (maze : Maze) pq x pq',
  Inv maze pq -> heappop (entry_lt maze) pq = Some (x, pq') ->
  visited_of maze (e_node x) = false -> Inner x (mark x maze) [] (mark x maze) pq'.
Hypothesis Inner_skip : forall x (maze1 : Maze) done (maze : Maze) pq nb,
  Inner x maze1 done maze pq -> In nb (neighbors maze1 (e_node x)) ->
  relaxes (e_g x) maze nb = false -> Inner x maze1 (done ++ [nb]) maze pq.
Hypothesis Inner_push : forall x (maze1 : Maze) done (maze : Maze) pq nb,
  Inner x maze1 done maze pq -> In nb (neighbors maze1 (e_node x)) ->
  relaxes (e_g x) maze nb = true ->
  Inner x maze1 (done ++ [nb]) (lowered (e_g x) nb maze)
    (heappush (entry_lt (lowered (e_g x) nb maze)) pq (pushed e (e_g x) nb)).
Hypothesis Inner_done : forall x (maze1 maze : Maze) pq,
  Inner x maze1 (neighbors maze1 (e_node x)) maze pq -> Inv maze pq.

Lemma relax_all_inv x (maze1 : Maze) : forall todo done (maze : Maze) pq,
  done ++ todo = neighbors maze1 (e_node x) ->
  Inner x maze1 done maze pq ->
  Inner x maze1 (neighbors maze1 (e_node x))
    (fst (fold_left (relax e (e_g x)) todo (maze, pq)))
    (snd (fold_left (relax e (e_g x)) todo (maze, pq))).
Proof.
  induction todo as [|nb todo IH]; intros done maze pq Hsplit H.
  - rewrite app_nil_r in Hsplit. rewrite <- Hsplit. exact H.
  - cbn [fold_left]. rewrite relax_eq.
    assert (Hin : In nb (neighbors maze1 (e_node x))).
    { rewrite <- Hsplit. apply in_or_app. right. left. reflexivity. }
    assert (Hsplit' : (done ++ [nb]) ++ todo = neighbors maze1 (e_node x)).
    { rewrite <- app_assoc. exact Hsplit. }
    destruct (relaxes (e_g x) maze nb) eqn:E.
    + apply (IH (done ++ [nb])); [exact Hsplit'|]. apply Inner_push; assumption.
    + apply (IH (done ++ [nb])); [exact Hsplit'|]. apply Inner_skip; assumption.
Qed.

Lemma visit_inv (maze : Maze) pq x pq' :
  Inv maze pq -> heappop (entry_lt maze) pq = Some (x, pq') ->
  Inv (fst (visit e x maze pq')) (snd (visit e x maze pq')).
Proof.
  intros H Hpop. rewrite visit_eq.
  destruct (visited_of maze (e_node x)) eqn:Ev.
  - simpl. eapply Inv_skip; eauto.
  - apply (Inner_done x (mark x maze)).
    apply (relax_all_inv x (mark x maze) _ []); [reflexivity|].
    eapply Inv_mark; eauto.
Qed.

Lemma search_loop_inv fuel : forall (maze : Maze) pq maze',
  Inv maze pq -> search_loop fuel e maze pq = Some maze' -> Inv maze' [].
Proof.
  induction fuel as [|fuel IH]; intros maze pq maze' H Hrun; [discriminate|].
  cbn [search_loop] in Hrun.
  destruct (heappop (entry_lt maze) pq) as [[x pq']|] eqn:Hpop.
  - eapply IH; [|exact Hrun]. eapply visit_inv; eauto.
  - injection Hrun as <-. apply heappop_empty in Hpop. subst pq. exact H.
Qed.

End SearchInvariant.

(** ** What the search leaves of the maze: everything but [distance] and
    [visited] *)

Lemma reset_maze_idem (maze : Maze) : reset_maze (reset_maze maze) = reset_maze maze.
Proof.
  unfold reset_maze. apply list_eq. intros i. rewrite !list_lookup_fmap.
  destruct (maze !! i) as [row|]; simpl; [|reflexivity].
  f_equal. apply list_eq. intros j. rewrite !list_lookup_fmap.
  destruct (row !! j); reflexivity.
Qed.

Lemma reset_maze_mark x (maze : Maze) : reset_maze (mark x maze) = reset_maze maze.
Proof. unfold mark. rewrite !reset_maze_upd by reflexivity. reflexivity. Qed.

Lemma reset_maze_lowered g nb (maze : Maze) :
  reset_maze (lowered g nb maze) = reset_maze maze.
Proof. unfold lowered. apply reset_maze_upd. reflexivity. Qed.

Lemma search_loop_frame e fuel (maze maze' : Maze) pq :
  search_loop fuel e maze pq = Some maze' -> reset_maze maze' = reset_maze maze.
Proof.
  intros H.
  apply (search_loop_inv e (fun m _ => reset_maze m = reset_maze maze)
           (fun _ _ _ m _ => reset_maze m = reset_maze maze)) with (fuel := fuel) (pq := pq)
           (maze := maze); auto.
  - intros m pq0 x pq' Hm _ _. rewrite reset_maze_mark. exact Hm.
  - intros x _ _ m pq0 nb Hm _ _. rewrite reset_maze_lowered. exact Hm.
Qed.

(** Mazes that agree after a reset agree on the obstacles, the pointers and
    the cells they have. *)
Lemma same_enemy (m1 m2 : Maze) p :
  reset_maze m1 = reset_maze m2 -> enemy_of m1 p = enemy_of m2 p.
Proof. intros H. rewrite <- (enemy_of_reset m1), <- (enemy_of_reset m2), H. reflexivity. Qed.

Lemma same_neighbors (m1 m2 : Maze) p :
  reset_maze m1 = reset_maze m2 -> neighbors m1 p = neighbors m2 p.
Proof.
  intros H. rewrite <- (neighbors_reset m1), <- (neighbors_reset m2), H. reflexivity.
Qed.

Lemma same_cells (m1 m2 : Maze) p :
  reset_maze m1 = reset_maze m2 -> is_Some (node_at m1 p) <-> is_Some (node_at m2 p).
Proof.
  intros H. rewrite <- (fmap_is_Some reset_node (node_at m1 p)).
  rewrite <- (fmap_is_Some reset_node (node_at m2 p)).
  rewrite <- !node_at_reset, H. reflexivity.
Qed.

Lemma same_size (m1 m2 : Maze) : reset_maze m1 = reset_maze m2 -> cells m1 = cells m2.
Proof. intros H. rewrite <- (cells_reset m1), <- (cells_reset m2), H. reflexivity. Qed.

Lemma astar_frame (maze : Maze) start e :
  reset_maze (fst (astar maze start e)) = reset_maze maze.
Proof.
  unfold astar.
  destruct (node_at (reset_maze maze) start); [|apply reset_maze_idem].
  destruct (node_at (reset_maze maze) e); [|apply reset_maze_idem].
  destruct (search_loop _ _ _ _) as [maze1|] eqn:E; [|apply reset_maze_idem].
  apply search_loop_frame in E. rewrite reset_maze_idem in E.
  destruct (distance_of maze1 e); exact E.
Qed.

Lemma astar_reads_reset (m1 m2 : Maze) start e :
  reset_maze m1 = reset_maze m2 -> astar m1 start e = astar m2 start e.
Proof. intros H. unfold astar. rewrite H. reflexivity. Qed.

(** C8. A second call of [astar] on the maze as the first call left it, with
    the same endpoints, has the outcome of the first (the same path, or
    [None] both times) and leaves the maze in the same state: the call starts
    by resetting [visited] and [distance], the only attributes it writes. *)
Theorem astar_twice (maze : Maze) (start e : coord) :
  astar (fst (astar maze start e)) start e = astar maze start e.
Proof. apply astar_reads_reset, astar_frame. Qed.

(** ** No path *)

Lemma astar_searched (maze : Maze) start e :
  is_Some (node_at maze start) -> is_Some (node_at maze e) ->
  astar maze start e =
  match searched maze start e with
  | None => (reset_maze maze, Diverge)
  | Some maze1 =>
      match distance_of maze1 e with
      | Infinity => (maze1, Ret None)
      | Finite _ =>
          (maze1,
           match reconstruct (descent_fuel maze1) maze1 start e [] with
           | Ret path => Ret (Some path)
           | Raise x => Raise x
           | Diverge => Diverge
           end)
      end
  end.
Proof.
  intros [n1 H1] [n2 H2]. unfold astar, searched.
  rewrite !node_at_reset, H1, H2. reflexivity.
Qed.

Lemma heappop_singleton {A} (lt : A -> A -> bool) x : heappop lt [x] = Some (x, []).
Proof. reflexivity. Qed.

Lemma neighbors_mark x (maze : Maze) p : neighbors (mark x maze) p = neighbors maze p.
Proof. unfold mark. rewrite !neighbors_upd by reflexivity. reflexivity. Qed.

Lemma searched_no_adjacency (maze : Maze) start e :
  (forall p, neighbors maze p = []) ->
  searched maze start e
  = Some (mark (mkEntry (fadd 0 (heuristic start e)) 0 start) (reset_maze maze)).
Proof.
  intros Hno. unfold searched, search_fuel, initial_queue.
  replace (5 * cells (reset_maze maze) + 2) with (S (S (5 * cells (reset_maze maze))))
    by lia.
  cbn [search_loop]. rewrite heappop_singleton, visit_eq.
  cbn [e_node e_g]. rewrite visited_of_reset, neighbors_mark, neighbors_reset, Hno.
  reflexivity.
Qed.

(** C6. In a maze without any adjacency, [astar] between two distinct cells
    returns [None], as a value; and in any maze, when the distance of the
    destination is still infinite once the queue is empty, the result is
    [None]. *)
Theorem astar_no_path (maze : Maze) (start e : coord) :
  is_Some (node_at maze start) -> is_Some (node_at maze e) ->
  ((forall p, neighbors maze p = []) -> start <> e ->
   snd (astar maze start e) = Ret None) /\
  (forall maze1, searched maze start e = Some maze1 ->
                 distance_of maze1 e = Infinity ->
                 astar maze start e = (maze1, Ret None)).
Proof.
  intros Hs He. rewrite (astar_searched maze start e Hs He). split.
  - intros Hno Hne. rewrite (searched_no_adjacency maze start e Hno).
    unfold mark. cbn [e_node e_g].
    rewrite distance_of_set_ne by assumption.
    rewrite distance_of_upd by reflexivity.
    rewrite distance_of_reset. reflexivity.
  - intros maze1 -> ->. reflexivity.
Qed.

Lemma astar_no_path_witness :
  snd (astar walled_maze (0, 0) (1, 1)) = Ret None /\
  exists maze1, searched walled_maze (0, 0) (1, 1) = Some maze1 /\
                distance_of maze1 (1, 1) = Infinity /\
                astar walled_maze (0, 0) (1, 1) = (maze1, Ret None).
Proof.
  pose proof (astar_no_path walled_maze (0, 0) (1, 1)
                ltac:(eexists; reflexivity) ltac:(eexists; reflexivity)) as [H1 H2].
  split.
  - apply H1; [|discriminate].
    intros [[|[|r]] [|[|c]]]; reflexivity.
  - eexists. split; [reflexivity|]. split; [reflexivity|].
    apply H2; reflexivity.
Defined.


(** * The reconstruction of the path *)

Lemma dist_ltb_irrefl d : dist_ltb d d = false.
Proof. destruct d; simpl; [apply Nat.ltb_irrefl|reflexivity]. Qed.

Lemma dist_ltb_trans a b c :
  dist_ltb a b = true -> dist_ltb b c = true -> dist_ltb a c = true.
Proof.
  destruct a, b, c; simpl; try discriminate; try reflexivity.
  rewrite !Nat.ltb_lt. lia.
Qed.

(** [a <= b] on distances, as [not (b < a)]. *)
Lemma dist_leb_trans a b c :
  dist_ltb b a = false -> dist_ltb c b = false -> dist_ltb c a = false.
Proof.
  destruct a, b, c; simpl; try discriminate; try reflexivity.
  rewrite !Nat.ltb_ge. lia.
Qed.

Lemma min_fold_spec (maze : Maze) : forall l x,
  let best := fold_left
                (fun best n =>
                   if dist_ltb (distance_of maze n) (distance_of maze best)
                   then n else best) l x in
  In best (x :: l) /\
  forall y, In y (x :: l) ->
            dist_ltb (distance_of maze y) (distance_of maze best) = false.
Proof.
  induction l as [|n l IH]; intros x; cbn [fold_left].
  - split; [left; reflexivity|]. intros y [<-|[]]. apply dist_ltb_irrefl.
  - destruct (dist_ltb (distance_of maze n) (distance_of maze x)) eqn:E.
    + destruct (IH n) as [H1 H2]. split.
      * destruct H1 as [H1|H1]; [right; left; exact H1|right; right; exact H1].
      * intros y [<-|Hy]; [|apply H2, Hy].
        pose proof (H2 n (or_introl eq_refl)) as Hn.
        destruct (dist_ltb (distance_of maze x) _) eqn:Ex; [|reflexivity].
        rewrite (dist_ltb_trans _ _ _ E Ex) in Hn. discriminate.
    + destruct (IH x) as [H1 H2]. split.
      * destruct H1 as [H1|H1]; [left; exact H1|right; right; exact H1].
      * intros y [<-|[<-|Hy]].
        -- apply H2. left. reflexivity.
        -- eapply dist_leb_trans; [apply H2; left; reflexivity|exact E].
        -- apply H2. right. exact Hy.
Qed.

Lemma min_by_distance_spec (maze : Maze) l x :
  min_by_distance maze l = Some x ->
  In x l /\ forall y, In y l -> dist_ltb (distance_of maze y) (distance_of maze x) = false.
Proof.
  destruct l as [|a l]; [discriminate|]. cbn [min_by_distance]. intros [= <-].
  apply min_fold_spec.
Qed.

Lemma min_by_distance_nonempty (maze : Maze) l :
  l <> [] -> exists x, min_by_distance maze l = Some x.
Proof. destruct l; [congruence|]. intros _. eexists. reflexivity. Qed.

Lemma valid_neighbors_spec (maze : Maze) cur n :
  In n (valid_neighbors maze cur) <->
  In n (neighbors maze cur) /\ enemy_of maze n = false.
Proof.
  unfold valid_neighbors. rewrite <- !list_elem_of_In, list_elem_of_filter. tauto.
Qed.

(** ** What a returned path is made of *)

Lemma reconstruct_descent fuel : forall (maze : Maze) start cur acc path,
  reconstruct fuel maze start cur acc = Ret path ->
  exists l, descent maze start cur l /\ path = rev (acc ++ l).
Proof.
  induction fuel as [|fuel IH]; intros maze start cur acc path H; [discriminate|].
  cbn [reconstruct] in H. destruct (coord_eqb cur start) eqn:E.
  - apply coord_eqb_eq in E. subst cur. injection H as <-.
    exists [start]. split; [constructor|reflexivity].
  - apply coord_eqb_neq in E.
    destruct (min_by_distance maze (valid_neighbors maze cur)) as [next|] eqn:Hmin;
      [|discriminate].
    apply IH in H. destruct H as (l & Hl & ->).
    exists (cur :: l). split; [econstructor; eauto|].
    rewrite <- app_assoc. reflexivity.
Qed.

Lemma descent_head (maze : Maze) start cur l :
  descent maze start cur l -> head l = Some cur.
Proof. intros H. destruct H; reflexivity. Qed.

Lemma descent_last (maze : Maze) start cur l :
  descent maze start cur l -> last l = Some start.
Proof.
  induction 1 as [|cur next l Hne Hmin Hd IH]; [reflexivity|].
  destruct l as [|x l]; [inversion Hd|]. exact IH.
Qed.

Lemma descent_links (maze : Maze) start cur l :
  descent maze start cur l ->
  forall i a b, l !! i = Some a -> l !! S i = Some b ->
                In b (neighbors maze a) /\ enemy_of maze b = false.
Proof.
  induction 1 as [|cur next l Hne Hmin Hd IH]; intros i a b Ha Hb.
  - destruct i; discriminate.
  - destruct i as [|i].
    + simpl in Ha, Hb. injection Ha as <-.
      apply descent_head in Hd. destruct l as [|x l]; [discriminate|].
      simpl in Hd, Hb. injection Hd as ->. injection Hb as ->.
      apply min_by_distance_spec in Hmin. destruct Hmin as [Hin _].
      apply valid_neighbors_spec in Hin. exact Hin.
    + simpl in Ha, Hb. eapply IH; eauto.
Qed.

Lemma descent_tail_clear (maze : Maze) start cur l :
  descent maze start cur l ->
  forall c, In c l -> c = cur \/ enemy_of maze c = false.
Proof.
  intros Hd c Hc. apply list_elem_of_In, list_elem_of_lookup_1 in Hc.
  destruct Hc as [i Hi]. destruct i as [|i].
  - left. apply descent_head in Hd. destruct l; [discriminate|].
    simpl in Hd, Hi. congruence.
  - right. destruct (lookup_lt_is_Some_2 l i) as [a Ha].
    { apply lookup_lt_Some in Hi. lia. }
    eapply descent_links; eauto.
Qed.

(** Positions of a reversed list. *)
Lemma rev_lookup_pair {A} (l : list A) i a b :
  rev l !! i = Some a -> rev l !! S i = Some b ->
  exists j, l !! j = Some b /\ l !! S j = Some a.
Proof.
  intros Ha Hb.
  assert (Hlen : S i < length l).
  { apply lookup_lt_Some in Hb. rewrite length_rev in Hb. exact Hb. }
  assert (Hrev : rev l = reverse l) by (unfold reverse; apply rev_alt).
  rewrite Hrev in Ha, Hb.
  rewrite reverse_lookup in Ha by lia. rewrite reverse_lookup in Hb by lia.
  exists (length l - S (S i)). split; [exact Hb|].
  replace (S (length l - S (S i))) with (length l - S i) by lia. exact Ha.
Qed.

(** ** Entries of the queue *)

Lemma heappop_in {A} (lt : A -> A -> bool) heap x rest y :
  heappop lt heap = Some (x, rest) -> (In y heap <-> y = x \/ In y rest).
Proof.
  intros H. apply heappop_items in H. split.
  - intros Hy. apply (Permutation_in _ H) in Hy. destruct Hy; auto.
  - intros Hy. apply (Permutation_in _ (Permutation_sym H)).
    destruct Hy as [->|Hy]; [left; reflexivity|right; exact Hy].
Qed.

Lemma heappush_in {A} (lt : A -> A -> bool) heap item y :
  In y (heappush lt heap item) <-> y = item \/ In y heap.
Proof.
  pose proof (heappush_items lt heap item) as H. split.
  - intros Hy. apply (Permutation_in _ (Permutation_sym H)) in Hy.
    destruct Hy; auto.
  - intros Hy. apply (Permutation_in _ H).
    destruct Hy as [->|Hy]; [left; reflexivity|right; exact Hy].
Qed.

(** ** Attributes after the writes of a pass *)

Lemma enemy_of_mark x (maze : Maze) p : enemy_of (mark x maze) p = enemy_of maze p.
Proof. unfold mark. rewrite !enemy_of_upd by reflexivity. reflexivity. Qed.

Lemma enemy_of_lowered g nb (maze : Maze) p :
  enemy_of (lowered g nb maze) p = enemy_of maze p.
Proof. unfold lowered. apply enemy_of_upd. reflexivity. Qed.

Lemma neighbors_lowered g nb (maze : Maze) p :
  neighbors (lowered g nb maze) p = neighbors maze p.
Proof. unfold lowered. apply neighbors_upd. reflexivity. Qed.

Lemma visited_of_lowered g nb (maze : Maze) p :
  visited_of (lowered g nb maze) p = visited_of maze p.
Proof. unfold lowered. apply visited_of_upd. reflexivity. Qed.

Lemma distance_of_lowered_ne g nb (maze : Maze) p :
  nb <> p -> distance_of (lowered g nb maze) p = distance_of maze p.
Proof. apply distance_of_set_ne. Qed.

Lemma distance_of_lowered_eq g nb (maze : Maze) :
  is_Some (node_at maze nb) -> distance_of (lowered g nb maze) nb = Finite (g + 1).
Proof. apply distance_of_set_eq. Qed.

Lemma visited_of_mark_ne x (maze : Maze) p :
  e_node x <> p -> visited_of (mark x maze) p = visited_of maze p.
Proof.
  intros H. unfold mark. rewrite visited_of_upd by reflexivity.
  apply visited_of_set_ne, H.
Qed.

Lemma visited_of_mark_eq x (maze : Maze) :
  is_Some (node_at maze (e_node x)) -> visited_of (mark x maze) (e_node x) = true.
Proof.
  intros H. unfold mark. rewrite visited_of_upd by reflexivity.
  apply visited_of_set_eq, H.
Qed.

Lemma distance_of_mark_ne x (maze : Maze) p :
  e_node x <> p -> distance_of (mark x maze) p = distance_of maze p.
Proof.
  intros H. unfold mark. rewrite distance_of_set_ne by assumption.
  apply distance_of_upd. reflexivity.
Qed.

Lemma distance_of_mark_eq x (maze : Maze) :
  is_Some (node_at maze (e_node x)) ->
  distance_of (mark x maze) (e_node x) = Finite (e_g x).
Proof.
  intros H. unfold mark. apply distance_of_set_eq.
  apply node_at_is_Some_upd, H.
Qed.

Lemma node_at_is_Some_mark x (maze : Maze) p :
  is_Some (node_at (mark x maze) p) <-> is_Some (node_at maze p).
Proof. unfold mark. rewrite !node_at_is_Some_upd. reflexivity. Qed.

Lemma node_at_is_Some_lowered g nb (maze : Maze) p :
  is_Some (node_at (lowered g nb maze) p) <-> is_Some (node_at maze p).
Proof. unfold lowered. apply node_at_is_Some_upd. Qed.

Lemma distance_of_outside (maze : Maze) p :
  node_at maze p = None -> distance_of maze p = Infinity.
Proof. intros H. unfold distance_of. rewrite H. reflexivity. Qed.

(** ** Only the start node and free cells get a distance *)

Lemma search_loop_clear start e fuel (maze maze' : Maze) pq :
  (forall x, In x pq -> clear_or_start start maze (e_node x)) ->
  (forall p, distance_of maze p <> Infinity -> clear_or_start start maze p) ->
  search_loop fuel e maze pq = Some maze' ->
  forall p, distance_of maze' p <> Infinity -> clear_or_start start maze' p.
Proof.
  intros Hq Hd Hrun.
  pose (Inv := fun (m : Maze) (q : list entry) =>
    (forall x, In x q -> clear_or_start start m (e_node x)) /\
    (forall p, distance_of m p <> Infinity -> clear_or_start start m p)).
  pose (Inner := fun (x : entry) (_ : Maze) (_ : list coord) (m : Maze) (q : list entry) =>
    Inv m q).
  assert (H : Inv maze' []); [|apply H].
  apply (search_loop_inv e Inv Inner) with (fuel := fuel) (pq := pq) (maze := maze);
    unfold Inner, Inv, clear_or_start; auto.
  - intros m q x q' [H1 H2] Hpop _. split; [|exact H2].
    intros y Hy. apply H1. apply (heappop_in _ _ _ _ y Hpop). right. exact Hy.
  - intros m q x q' [H1 H2] Hpop _. split.
    + intros y Hy. rewrite enemy_of_mark. apply H1.
      apply (heappop_in _ _ _ _ y Hpop). right. exact Hy.
    + intros p Hp. rewrite enemy_of_mark.
      destruct (decide (e_node x = p)) as [<-|Hne].
      * apply H1. apply (heappop_in _ _ _ _ x Hpop). left. reflexivity.
      * rewrite distance_of_mark_ne in Hp by assumption. apply H2, Hp.
  - intros x _ _ m q nb [H1 H2] _ Hrel. apply relaxes_true in Hrel.
    destruct Hrel as (_ & Hen & _). split.
    + intros y Hy. rewrite enemy_of_lowered. apply heappush_in in Hy.
      destruct Hy as [->|Hy]; [right; exact Hen|apply H1, Hy].
    + intros p Hp. rewrite enemy_of_lowered.
      destruct (decide (nb = p)) as [<-|Hne]; [right; exact Hen|].
      rewrite distance_of_lowered_ne in Hp by assumption. apply H2, Hp.
Qed.

Lemma searched_clear (maze maze1 : Maze) start e :
  searched maze start e = Some maze1 ->
  reset_maze maze1 = reset_maze maze /\
  forall p, distance_of maze1 p <> Infinity -> p = start \/ enemy_of maze p = false.
Proof.
  unfold searched. intros H.
  assert (Hf : reset_maze maze1 = reset_maze maze).
  { apply search_loop_frame in H. rewrite reset_maze_idem in H. exact H. }
  split; [exact Hf|]. intros p Hp.
  rewrite <- (same_enemy maze1 maze p Hf).
  revert p Hp. eapply search_loop_clear; [| |exact H].
  - intros x [<-|[]]. left. reflexivity.
  - intros p Hp. rewrite distance_of_reset in Hp. congruence.
Qed.

(** ** The pointers of a grid *)

Lemma pointers_spec n q :
  In q (pointers n) <->
  left n = Some q \/ right n = Some q \/ up n = Some q \/ down n = Some q.
Proof.
  unfold pointers. destruct n as [l r u d ? ? ?]. simpl.
  destruct l, r, u, d; simpl; intuition congruence.
Qed.

Lemma neighbors_ptr (maze : Maze) p q :
  In q (neighbors maze p) <->
  ptr left maze p = Some q \/ ptr right maze p = Some q \/
  ptr up maze p = Some q \/ ptr down maze p = Some q.
Proof.
  unfold neighbors, ptr. destruct (node_at maze p) as [n|].
  - apply pointers_spec.
  - simpl. intuition discriminate.
Qed.

Lemma neighbors_mutual rows cols (maze : Maze) p q :
  wf_maze rows cols maze -> In q (neighbors maze p) -> In p (neighbors maze q).
Proof.
  intros Hwf H. apply neighbors_ptr in H. apply neighbors_ptr.
  destruct H as [H|[H|[H|H]]].
  - right. left. apply (wf_left_right _ _ _ Hwf). exact H.
  - left. apply (wf_left_right _ _ _ Hwf). exact H.
  - right. right. right. apply (wf_up_down _ _ _ Hwf). exact H.
  - right. right. left. apply (wf_up_down _ _ _ Hwf). exact H.
Qed.

Lemma neighbors_in_maze rows cols (maze : Maze) p q :
  wf_maze rows cols maze -> In q (neighbors maze p) -> is_Some (node_at maze q).
Proof.
  intros Hwf H. apply (neighbors_mutual _ _ _ _ _ Hwf) in H.
  unfold neighbors in H. destruct (node_at maze q); [eauto|destruct H].
Qed.

Lemma neighbors_length (maze : Maze) p : length (neighbors maze p) <= 4.
Proof.
  unfold neighbors. destruct (node_at maze p) as [n|]; [|simpl; lia].
  unfold pointers. destruct (left n), (right n), (up n), (down n); simpl; lia.
Qed.

(** ** C2 *)

Lemma astar_returns_path (maze : Maze) start e path :
  snd (astar maze start e) = Ret (Some path) ->
  exists maze1 l,
    searched maze start e = Some maze1 /\
    distance_of maze1 e <> Infinity /\
    descent maze1 start e l /\ path = rev l.
Proof.
  unfold astar, searched.
  destruct (node_at (reset_maze maze) start); [|discriminate].
  destruct (node_at (reset_maze maze) e); [|discriminate].
  destruct (search_loop _ _ _ _) as [maze1|]; [|discriminate].
  destruct (distance_of maze1 e) eqn:Ed; [|discriminate]. simpl.
  destruct (reconstruct _ _ _ _ _) as [p| |] eqn:Er; try discriminate.
  intros [= ->]. apply reconstruct_descent in Er. destruct Er as (l & Hl & ->).
  exists maze1, l. repeat split; [congruence|exact Hl].
Qed.

(** A call whose two end points are one and the same obstacle cell: the
    descent has nothing to do and the path returned is that cell.  End points
    are two cells; this is the only way for a returned path to hold an
    obstacle cell ([returned_path_shape]). *)
Lemma astar_path_on_obstacle :
  generate_random_maze 2 2 1 [0; 0; 1; 1; 0; 0] = Ret (blocked_corner_maze, []) /\
  snd (astar blocked_corner_maze (0, 0) (0, 0)) = Ret (Some [(0, 0)]) /\
  enemy_of blocked_corner_maze (0, 0) = true.
Proof. repeat split; reflexivity. Qed.

(** The shape of a returned path, read off the descent. *)
Lemma returned_path_shape (maze : Maze) (start e : coord) (path : list coord) :
  snd (astar maze start e) = Ret (Some path) ->
  head path = Some start /\ last path = Some e /\
  (forall i a b, path !! i = Some a -> path !! S i = Some b ->
                 In a (neighbors maze b)) /\
  ((start = e -> enemy_of maze start = false) ->
   forall c, In c path -> enemy_of maze c = false).
Proof.
  intros H. apply astar_returns_path in H.
  destruct H as (maze1 & l & Hs & Hfin & Hd & ->).
  apply searched_clear in Hs. destruct Hs as [Hframe Hclear].
  assert (Hrev : forall l0 : list coord, rev l0 = reverse l0)
    by (intros; unfold reverse; apply rev_alt).
  split; [|split; [|split]].
  - rewrite Hrev, head_reverse. eapply descent_last; eauto.
  - rewrite Hrev, last_reverse. eapply descent_head; eauto.
  - intros i a b Ha Hb. destruct (rev_lookup_pair l i a b Ha Hb) as (j & Hb' & Ha').
    rewrite <- (same_neighbors maze1 maze b Hframe).
    eapply descent_links; eauto.
  - intros Hse c Hc. apply in_rev in Hc.
    destruct (descent_tail_clear _ _ _ _ Hd c Hc) as [->|Hc'].
    + destruct (Hclear e Hfin) as [->|He]; [apply Hse; reflexivity|exact He].
    + rewrite <- (same_enemy maze1 maze c Hframe). exact Hc'.
Qed.

(** C2. For a source and a destination that differ, a path returned by
    [astar] starts at the source and ends at the destination; of two
    consecutive coordinates the later one has a pointer to the earlier one
    (and, in a grid, the earlier one to the later one); and no coordinate on
    it, the end points included, is an obstacle cell. *)
Theorem astar_path_valid (maze : Maze) (start e : coord) (path : list coord) :
  start <> e ->
  snd (astar maze start e) = Ret (Some path) ->
  head path = Some start /\ last path = Some e /\
  (forall i a b, path !! i = Some a -> path !! S i = Some b ->
     In a (neighbors maze b) /\
     (forall rows cols, wf_maze rows cols maze -> In b (neighbors maze a))) /\
  (forall c, In c path -> enemy_of maze c = false).
Proof.
  intros Hne H.
  destruct (returned_path_shape maze start e path H) as (H1 & H2 & H3 & H4).
  split; [exact H1|]. split; [exact H2|]. split.
  - intros i a b Ha Hb. pose proof (H3 i a b Ha Hb) as Hab. split; [exact Hab|].
    intros rows cols Hwf. eapply neighbors_mutual; eauto.
  - apply H4. intros Hse. destruct (Hne Hse).
Qed.

Lemma astar_path_valid_witness :
  head [(1, 0); (0, 0); (0, 1)] = Some (1, 0) /\
  last [(1, 0); (0, 0); (0, 1)] = Some (0, 1) /\
  (forall i a b, [(1, 0); (0, 0); (0, 1)] !! i = Some a ->
                 [(1, 0); (0, 0); (0, 1)] !! S i = Some b ->
     In a (neighbors corner_maze b) /\
     (forall rows cols, wf_maze rows cols corner_maze -> In b (neighbors corner_maze a))) /\
  (forall c, In c [(1, 0); (0, 0); (0, 1)] -> enemy_of corner_maze c = false).
Proof.
  apply (astar_path_valid corner_maze (1, 0) (0, 1) [(1, 0); (0, 0); (0, 1)]).
  - discriminate.
  - reflexivity.
Defined.


(** * Counting nodes *)

Section CountIf.
Variable P : MazeNode -> bool.

Lemma count_if_nil : count_if P [] = 0.
Proof. reflexivity. Qed.

Lemma count_if_cons row (maze : Maze) :
  count_if P (row :: maze) = count_if P [row] + count_if P maze.
Proof.
  unfold count_if. simpl. rewrite app_nil_r, filter_app, length_app. reflexivity.
Qed.

Lemma count_if_row_cons n row :
  count_if P [n :: row] = (if P n then 1 else 0) + count_if P [row].
Proof.
  unfold count_if. simpl. rewrite !app_nil_r. destruct (P n) eqn:E.
  - rewrite filter_cons_True by assumption. reflexivity.
  - rewrite filter_cons_False by congruence. reflexivity.
Qed.

Lemma count_if_le_cells (maze : Maze) : count_if P maze <= cells maze.
Proof. unfold count_if, cells. apply length_filter. Qed.

Lemma count_if_row_alter f c row :
  count_if P [alter f c row] + (match row !! c with
                                | Some n => if P n then 1 else 0
                                | None => 0
                                end)
  = count_if P [row] + (match row !! c with
                        | Some n => if P (f n) then 1 else 0
                        | None => 0
                        end).
Proof.
  revert c. induction row as [|n row IH]; intros c; [reflexivity|].
  destruct c as [|c].
  - change (alter f 0 (n :: row)) with (f n :: row).
    rewrite !count_if_row_cons. simpl. lia.
  - change (alter f (S c) (n :: row)) with (n :: alter f c row).
    rewrite !count_if_row_cons. change ((n :: row) !! S c) with (row !! c).
    specialize (IH c). lia.
Qed.

(** The count moves by what the write does to the node written. *)
Lemma count_if_upd f p (maze : Maze) :
  count_if P (upd_node f p maze) + (match node_at maze p with
                                    | Some n => if P n then 1 else 0
                                    | None => 0
                                    end)
  = count_if P maze + (match node_at maze p with
                       | Some n => if P (f n) then 1 else 0
                       | None => 0
                       end).
Proof.
  destruct p as [r c]. unfold upd_node, node_at. simpl. revert r.
  induction maze as [|row maze IH]; intros r.
  - destruct r; reflexivity.
  - destruct r as [|r].
    + change (alter (alter f c) 0 (row :: maze)) with (alter f c row :: maze).
      change ((row :: maze) !! 0) with (Some row).
      rewrite (count_if_cons (alter f c row)), (count_if_cons row).
      pose proof (count_if_row_alter f c row). lia.
    + change (alter (alter f c) (S r) (row :: maze))
        with (row :: alter (alter f c) r maze).
      change ((row :: maze) !! S r) with (maze !! r).
      rewrite (count_if_cons row (alter _ _ _)), (count_if_cons row maze).
      specialize (IH r). lia.
Qed.

Lemma count_if_upd_same f p (maze : Maze) :
  (forall n, P (f n) = P n) -> count_if P (upd_node f p maze) = count_if P maze.
Proof.
  intros Hf. pose proof (count_if_upd f p maze) as H.
  destruct (node_at maze p) as [n|]; [rewrite Hf in H|]; lia.
Qed.

Lemma count_if_all (maze : Maze) :
  (forall p n, node_at maze p = Some n -> P n = true) -> count_if P maze = cells maze.
Proof.
  unfold count_if, cells. intros H. f_equal.
  assert (Hall : Forall (fun n => P n = true) (concat maze)).
  { apply Forall_forall. intros n Hn. apply list_elem_of_In, in_concat in Hn.
    destruct Hn as (row & Hrow & Hn).
    apply list_elem_of_In, list_elem_of_lookup_1 in Hrow. destruct Hrow as [r Hr].
    apply list_elem_of_In, list_elem_of_lookup_1 in Hn. destruct Hn as [c Hc].
    apply (H (r, c)). unfold node_at. simpl. rewrite Hr. exact Hc. }
  induction Hall as [|n l Hn _ IH]; [reflexivity|].
  rewrite filter_cons_True by assumption. f_equal. exact IH.
Qed.

End CountIf.

Lemma unvisited_reset (maze : Maze) : unvisited (reset_maze maze) = cells maze.
Proof.
  unfold unvisited. rewrite count_if_all; [apply cells_reset|].
  intros p n H. rewrite node_at_reset in H.
  destruct (node_at maze p); [|discriminate]. injection H as <-. reflexivity.
Qed.

Lemma unvisited_lowered g nb (maze : Maze) :
  unvisited (lowered g nb maze) = unvisited maze.
Proof. unfold unvisited, lowered. apply count_if_upd_same. reflexivity. Qed.

Lemma unvisited_mark x (maze : Maze) :
  is_Some (node_at maze (e_node x)) -> visited_of maze (e_node x) = false ->
  S (unvisited (mark x maze)) = unvisited maze.
Proof.
  intros [n Hn] Hv. unfold unvisited, mark.
  rewrite count_if_upd_same by reflexivity.
  pose proof (count_if_upd (fun n => negb (visited n)) (set_visited true)
                (e_node x) maze) as H.
  unfold visited_of in Hv. rewrite Hn in *. rewrite Hv in H. simpl in H. lia.
Qed.

(** * The invariant of the search *)

Section SearchFacts.
Variables (rows cols : nat) (maze : Maze) (start e : coord).
Hypothesis Hwf : wf_maze rows cols maze.
Hypothesis Hstart : is_Some (node_at maze start).

Lemma reached_from_mono (m m' : Maze) v g :
  keeps_visited m m' -> reached_from maze start m v g -> reached_from maze start m' v g.
Proof.
  intros Hk [H|(Hen & u & gu & Hv & Hd & Hg & Hin)]; [left; exact H|].
  right. split; [exact Hen|]. exists u, gu. destruct (Hk u Hv) as [Hv' Hd'].
  repeat split; try assumption. congruence.
Qed.

Lemma entry_ok_mono (m m' : Maze) x :
  keeps_visited m m' -> entry_ok maze start e m x -> entry_ok maze start e m' x.
Proof.
  intros Hk (H1 & H2 & H3). repeat split; try assumption.
  eapply reached_from_mono; eauto.
Qed.

Lemma keeps_visited_mark x (m : Maze) :
  visited_of m (e_node x) = false -> keeps_visited m (mark x m).
Proof.
  intros Hx u Hu. assert (Hne : e_node x <> u) by congruence.
  rewrite visited_of_mark_ne, distance_of_mark_ne by assumption. auto.
Qed.

Lemma keeps_visited_lowered g nb (m : Maze) :
  visited_of m nb = false -> keeps_visited m (lowered g nb m).
Proof.
  intros Hx u Hu. assert (Hne : nb <> u) by congruence.
  rewrite visited_of_lowered, distance_of_lowered_ne by assumption. auto.
Qed.

Lemma inv_init : search_inv maze start e None (reset_maze maze) (initial_queue start e).
Proof.
  constructor.
  - apply reset_maze_idem.
  - intros x [<-|[]]. split.
    + repeat split; [exact Hstart|]. left. split; reflexivity.
    + simpl. rewrite unvisited_reset. lia.
  - intros v Hv. rewrite visited_of_reset in Hv. discriminate.
  - intros v g _ Hd. rewrite distance_of_reset in Hd. discriminate.
  - right. eexists. split; [left; reflexivity|]. split; reflexivity.
  - intros u gu v Hu. rewrite visited_of_reset in Hu. discriminate.
Qed.

Lemma inv_in_maze cur (m : Maze) pq p :
  search_inv maze start e cur m pq ->
  is_Some (node_at m p) <-> is_Some (node_at maze p).
Proof. intros H. apply same_cells, H. Qed.

Lemma inv_skip (m : Maze) pq x pq' :
  search_inv maze start e None m pq ->
  heappop (entry_lt m) pq = Some (x, pq') ->
  visited_of m (e_node x) = true ->
  search_inv maze start e None m pq'.
Proof.
  intros H Hpop Hx.
  assert (Hsub : forall y, In y pq' -> In y pq).
  { intros y Hy. apply (heappop_in _ _ _ _ y Hpop). right. exact Hy. }
  constructor.
  - apply H.
  - intros y Hy. apply (inv_queue _ _ _ _ _ _ H), Hsub, Hy.
  - apply H.
  - intros v g Hv Hd. destruct (inv_open _ _ _ _ _ _ H v g Hv Hd) as (y & Hy & Hn & Hg).
    exists y. split; [|auto]. apply (heappop_in _ _ _ _ y Hpop) in Hy.
    destruct Hy as [->|Hy]; [congruence|exact Hy].
  - destruct (inv_start _ _ _ _ _ _ H) as [Hs|(y & Hy & Hn & Hg)]; [left; exact Hs|].
    apply (heappop_in _ _ _ _ y Hpop) in Hy.
    destruct Hy as [->|Hy]; [left; congruence|right; eauto].
  - apply H.
Qed.

Lemma inv_mark (m : Maze) pq x pq' :
  search_inv maze start e None m pq ->
  heappop (entry_lt m) pq = Some (x, pq') ->
  visited_of m (e_node x) = false ->
  pass_inv maze start e x (mark x m) [] (mark x m) pq'.
Proof.
  intros H Hpop Hx.
  assert (Hxin : In x pq) by (apply (heappop_in _ _ _ _ x Hpop); left; reflexivity).
  assert (Hsub : forall y, In y pq' -> In y pq).
  { intros y Hy. apply (heappop_in _ _ _ _ y Hpop). right. exact Hy. }
  destruct (inv_queue _ _ _ _ _ _ H x Hxin) as [Hok Hbound].
  assert (Hcell : is_Some (node_at m (e_node x))).
  { apply (inv_in_maze _ _ _ _ H), Hok. }
  pose proof (keeps_visited_mark x m Hx) as Hk.
  pose proof (unvisited_mark x m Hcell Hx) as Hu.
  pose proof (visited_of_mark_eq x m Hcell) as Hvx.
  pose proof (distance_of_mark_eq x m Hcell) as Hdx.
  assert (Hother : forall p, visited_of (mark x m) p = false ->
                             e_node x <> p /\ visited_of m p = false /\
                             distance_of (mark x m) p = distance_of m p).
  { intros p Hp. assert (Hne : e_node x <> p) by congruence.
    rewrite visited_of_mark_ne in Hp by assumption.
    rewrite distance_of_mark_ne by assumption. auto. }
  split; [|split; [rewrite reset_maze_mark; apply H|split; assumption]].
  constructor.
  - rewrite reset_maze_mark. apply H.
  - intros y Hy. destruct (inv_queue _ _ _ _ _ _ H y (Hsub y Hy)) as [Hoky Hby].
    split; [eapply entry_ok_mono; eauto|lia].
  - intros v Hv. destruct (decide (e_node x = v)) as [<-|Hne].
    + exists (e_g x). split; [exact Hdx|]. split; [|lia].
      eapply reached_from_mono; [exact Hk|apply Hok].
    + rewrite visited_of_mark_ne in Hv by assumption.
      destruct (inv_visited _ _ _ _ _ _ H v Hv) as (g & Hd & Hr & Hb).
      exists g. rewrite distance_of_mark_ne by assumption.
      split; [exact Hd|]. split; [eapply reached_from_mono; eauto|lia].
  - intros v g Hv Hd. destruct (Hother v Hv) as (Hne & Hv' & Hd'). rewrite Hd' in Hd.
    destruct (inv_open _ _ _ _ _ _ H v g Hv' Hd) as (y & Hy & Hn & Hg).
    exists y. split; [|auto]. apply (heappop_in _ _ _ _ y Hpop) in Hy.
    destruct Hy as [->|Hy]; [congruence|exact Hy].
  - destruct (decide (e_node x = start)) as [<-|Hne]; [left; exact Hvx|].
    destruct (inv_start _ _ _ _ _ _ H) as [Hs|(y & Hy & Hn & Hg)].
    + left. rewrite visited_of_mark_ne by assumption. exact Hs.
    + right. exists y. split; [|auto]. apply (heappop_in _ _ _ _ y Hpop) in Hy.
      destruct Hy as [->|Hy]; [congruence|exact Hy].
  - intros u gu v Hu' Hdu Hin Hen Hv Hcur. simpl in Hcur.
    destruct (decide (u = e_node x)) as [->|Hne]; [destruct (Hcur eq_refl)|].
    rewrite visited_of_mark_ne in Hu' by congruence.
    rewrite distance_of_mark_ne in Hdu by congruence.
    destruct (Hother v Hv) as (_ & Hv' & ->).
    apply (inv_expanded _ _ _ _ _ _ H u gu v); simpl; auto.
Qed.

Lemma relaxes_false_label g (m : Maze) nb :
  relaxes g m nb = false -> visited_of m nb = false -> enemy_of m nb = false ->
  exists gv, distance_of m nb = Finite gv /\ gv <= g + 1.
Proof.
  unfold relaxes. intros H Hv Hen. rewrite Hv, Hen in H. simpl in H.
  destruct (distance_of m nb) as [gv|]; [|discriminate].
  exists gv. split; [reflexivity|]. simpl in H. apply Nat.ltb_ge in H. exact H.
Qed.

Lemma pass_skip x (m1 : Maze) done (m : Maze) pq nb :
  pass_inv maze start e x m1 done m pq ->
  In nb (neighbors m1 (e_node x)) ->
  relaxes (e_g x) m nb = false ->
  pass_inv maze start e x m1 (done ++ [nb]) m pq.
Proof.
  intros (H & Hm1 & Hvx & Hdx) Hnb Hrel.
  split; [|auto]. constructor; try apply H.
  intros u gu v Hu Hdu Hin Hen Hv Hcur. simpl in Hcur.
  destruct (decide (u = e_node x)) as [->|Hne].
  - specialize (Hcur eq_refl). apply in_app_or in Hcur.
    destruct Hcur as [Hdone|[<-|[]]].
    + apply (inv_expanded _ _ _ _ _ _ H (e_node x) gu v); simpl; auto.
    + rewrite Hdx in Hdu. injection Hdu as <-.
      apply relaxes_false_label; [exact Hrel|exact Hv|].
      rewrite (same_enemy m maze nb (inv_frame _ _ _ _ _ _ H)). exact Hen.
  - apply (inv_expanded _ _ _ _ _ _ H u gu v); simpl; auto. intros; congruence.
Qed.

Lemma pass_push x (m1 : Maze) done (m : Maze) pq nb :
  pass_inv maze start e x m1 done m pq ->
  In nb (neighbors m1 (e_node x)) ->
  relaxes (e_g x) m nb = true ->
  pass_inv maze start e x m1 (done ++ [nb]) (lowered (e_g x) nb m)
    (heappush (entry_lt (lowered (e_g x) nb m)) pq (pushed e (e_g x) nb)).
Proof.
  intros (H & Hm1 & Hvx & Hdx) Hnb Hrel.
  apply relaxes_true in Hrel. destruct Hrel as (Hvn & Hen & Hlt).
  rewrite (same_neighbors m1 maze _ Hm1) in Hnb.
  rewrite (same_enemy m maze nb (inv_frame _ _ _ _ _ _ H)) in Hen.
  assert (Hcell : is_Some (node_at m nb)).
  { apply (inv_in_maze _ _ _ _ H). eapply neighbors_in_maze; eauto. }
  assert (Hne : nb <> e_node x) by congruence.
  pose proof (keeps_visited_lowered (e_g x) nb m Hvn) as Hk.
  pose proof (distance_of_lowered_eq (e_g x) nb m Hcell) as Hdn.
  destruct (inv_visited _ _ _ _ _ _ H (e_node x) Hvx) as (gx & Hgx & _ & Hbx).
  rewrite Hdx in Hgx. injection Hgx as <-.
  split; [|split; [exact Hm1|split]].
  2: { rewrite visited_of_lowered. exact Hvx. }
  2: { rewrite distance_of_lowered_ne by assumption. exact Hdx. }
  constructor.
  - rewrite reset_maze_lowered. apply H.
  - intros y Hy. rewrite unvisited_lowered. apply heappush_in in Hy.
    destruct Hy as [->|Hy].
    + split; [|simpl; lia]. repeat split.
      * apply (inv_in_maze _ _ _ _ H), Hcell.
      * right. split; [exact Hen|]. exists (e_node x), (e_g x).
        rewrite visited_of_lowered, distance_of_lowered_ne by assumption.
        repeat split; assumption.
    + destruct (inv_queue _ _ _ _ _ _ H y Hy) as [Hoky Hby].
      split; [eapply entry_ok_mono; eauto|exact Hby].
  - intros v Hv. rewrite visited_of_lowered in Hv. rewrite unvisited_lowered.
    destruct (inv_visited _ _ _ _ _ _ H v Hv) as (g & Hd & Hr & Hb).
    exists g. rewrite distance_of_lowered_ne by congruence.
    split; [exact Hd|]. split; [eapply reached_from_mono; eauto|exact Hb].
  - intros v g Hv Hd. rewrite visited_of_lowered in Hv.
    destruct (decide (nb = v)) as [<-|Hnv].
    + rewrite Hdn in Hd. injection Hd as <-.
      exists (pushed e (e_g x) nb). split; [|split; reflexivity].
      apply heappush_in. left. reflexivity.
    + rewrite distance_of_lowered_ne in Hd by assumption.
      destruct (inv_open _ _ _ _ _ _ H v g Hv Hd) as (y & Hy & Hn & Hg).
      exists y. split; [|auto]. apply heappush_in. right. exact Hy.
  - rewrite visited_of_lowered.
    destruct (inv_start _ _ _ _ _ _ H) as [Hs|(y & Hy & Hn & Hg)]; [left; exact Hs|].
    right. exists y. split; [|auto]. apply heappush_in. right. exact Hy.
  - intros u gu v Hu Hdu Hin Henv Hv Hcur. simpl in Hcur.
    rewrite visited_of_lowered in Hu, Hv.
    rewrite distance_of_lowered_ne in Hdu by congruence.
    destruct (decide (nb = v)) as [<-|Hnv].
    + rewrite Hdn. exists (e_g x + 1). split; [reflexivity|].
      destruct (decide (u = e_node x)) as [->|Hux].
      * rewrite Hdx in Hdu. injection Hdu as <-. lia.
      * destruct (inv_expanded _ _ _ _ _ _ H u gu nb Hu Hdu Hin Henv Hv)
          as (gv & Hgv & Hle); [simpl; intros; congruence|].
        rewrite Hgv in Hlt. simpl in Hlt. apply Nat.ltb_lt in Hlt. lia.
    + rewrite distance_of_lowered_ne by assumption.
      apply (inv_expanded _ _ _ _ _ _ H u gu v); auto. simpl.
      intros Hux. specialize (Hcur Hux). apply in_app_or in Hcur.
      destruct Hcur as [Hdone|[<-|[]]]; [exact Hdone|congruence].
Qed.

Lemma pass_done x (m1 m : Maze) pq :
  pass_inv maze start e x m1 (neighbors m1 (e_node x)) m pq ->
  search_inv maze start e None m pq.
Proof.
  intros (H & Hm1 & Hvx & Hdx). constructor; try apply H.
  intros u gu v Hu Hdu Hin Hen Hv _.
  apply (inv_expanded _ _ _ _ _ _ H u gu v); auto. simpl.
  intros ->. rewrite (same_neighbors m1 maze _ Hm1). exact Hin.
Qed.

(** The invariant holds when the loop ends. *)
Lemma search_loop_search_inv fuel (m m' : Maze) pq :
  search_inv maze start e None m pq ->
  search_loop fuel e m pq = Some m' ->
  search_inv maze start e None m' [].
Proof.
  apply (search_loop_inv e (search_inv maze start e None) (pass_inv maze start e)).
  - exact inv_skip.
  - exact inv_mark.
  - exact pass_skip.
  - exact pass_push.
  - exact pass_done.
Qed.

Lemma visit_search_inv (m : Maze) pq x pq' :
  search_inv maze start e None m pq ->
  heappop (entry_lt m) pq = Some (x, pq') ->
  search_inv maze start e None (fst (visit e x m pq')) (snd (visit e x m pq')).
Proof.
  apply (visit_inv e (search_inv maze start e None) (pass_inv maze start e)).
  - exact inv_skip.
  - exact inv_mark.
  - exact pass_skip.
  - exact pass_push.
  - exact pass_done.
Qed.

End SearchFacts.


(** * The search loop ends *)

Lemma relax_all_measure e g : forall nbs (m : Maze) pq,
  length (snd (fold_left (relax e g) nbs (m, pq))) <= length pq + length nbs /\
  unvisited (fst (fold_left (relax e g) nbs (m, pq))) = unvisited m.
Proof.
  induction nbs as [|nb nbs IH]; intros m pq; [simpl; lia|].
  cbn [fold_left]. rewrite relax_eq. destruct (relaxes g m nb).
  - destruct (IH (lowered g nb m)
                (heappush (entry_lt (lowered g nb m)) pq (pushed e g nb))) as [H1 H2].
    rewrite heappush_length in H1. rewrite unvisited_lowered in H2. simpl. lia.
  - destruct (IH m pq) as [H1 H2]. simpl. lia.
Qed.

Section SearchEnds.
Variables (rows cols : nat) (maze : Maze) (start e : coord).
Hypothesis Hwf : wf_maze rows cols maze.
Hypothesis Hstart : is_Some (node_at maze start).

Lemma visit_measure (m : Maze) pq x pq' :
  search_inv maze start e None m pq ->
  heappop (entry_lt m) pq = Some (x, pq') ->
  5 * unvisited (fst (visit e x m pq')) + length (snd (visit e x m pq'))
  < 5 * unvisited m + length pq.
Proof.
  intros H Hpop. pose proof (heappop_length _ _ _ _ Hpop) as Hlen.
  rewrite visit_eq. destruct (visited_of m (e_node x)) eqn:Hx; [simpl; lia|].
  assert (Hxin : In x pq) by (apply (heappop_in _ _ _ _ x Hpop); left; reflexivity).
  destruct (inv_queue _ _ _ _ _ _ H x Hxin) as [(Hcell & _) _].
  apply (inv_in_maze maze start e _ _ _ _ H) in Hcell.
  pose proof (unvisited_mark x m Hcell Hx) as Hu.
  destruct (relax_all_measure e (e_g x) (neighbors (mark x m) (e_node x)) (mark x m) pq')
    as [H1 H2].
  pose proof (neighbors_length (mark x m) (e_node x)). lia.
Qed.

Lemma search_loop_total fuel : forall (m : Maze) pq,
  search_inv maze start e None m pq ->
  5 * unvisited m + length pq < fuel ->
  exists m', search_loop fuel e m pq = Some m'.
Proof.
  induction fuel as [|fuel IH]; intros m pq H Hfuel; [lia|].
  cbn [search_loop].
  destruct (heappop (entry_lt m) pq) as [[x pq']|] eqn:Hpop; [|eauto].
  apply IH.
  - eapply visit_search_inv; eauto.
  - pose proof (visit_measure m pq x pq' H Hpop). lia.
Qed.

(** The loop of [astar] empties the queue within its fuel, and the invariant
    holds of the maze it leaves. *)
Lemma searched_total :
  exists maze1, searched maze start e = Some maze1 /\
                search_inv maze start e None maze1 [].
Proof.
  pose proof (inv_init maze start e Hstart) as Hinit.
  destruct (search_loop_total (search_fuel (reset_maze maze)) (reset_maze maze)
              (initial_queue start e) Hinit) as [maze1 H].
  { unfold search_fuel. rewrite unvisited_reset, cells_reset. simpl. lia. }
  exists maze1. split; [exact H|].
  eapply search_loop_search_inv; eauto.
Qed.

(** ** The descent *)

Lemma descent_reconstruct (m : Maze) cur l :
  descent m start cur l ->
  forall fuel acc, length l <= fuel ->
                   reconstruct fuel m start cur acc = Ret (rev (acc ++ l)).
Proof.
  induction 1 as [|cur next l Hne Hmin Hd IH]; intros fuel acc Hfuel.
  - destruct fuel as [|fuel]; [simpl in Hfuel; lia|].
    cbn [reconstruct]. rewrite coord_eqb_refl. reflexivity.
  - destruct fuel as [|fuel]; [simpl in Hfuel; lia|].
    cbn [reconstruct]. apply coord_eqb_neq in Hne. rewrite Hne, Hmin.
    rewrite IH by (simpl in Hfuel; lia). rewrite <- app_assoc. reflexivity.
Qed.

Section Descent.
Variable maze1 : Maze.
Hypothesis Hinv : search_inv maze start e None maze1 [].
Hypothesis Hfree : enemy_of maze start = false.

Lemma labelled_visited v g : distance_of maze1 v = Finite g -> visited_of maze1 v = true.
Proof.
  intros Hd. destruct (visited_of maze1 v) eqn:Hv; [reflexivity|].
  destruct (inv_open _ _ _ _ _ _ Hinv v g Hv Hd) as (x & [] & _).
Qed.

Lemma visited_free v : visited_of maze1 v = true -> enemy_of maze v = false.
Proof.
  intros Hv. destruct (inv_visited _ _ _ _ _ _ Hinv v Hv) as (g & _ & [[-> _]|[H _]] & _);
    assumption.
Qed.

(** From a visited node of distance [g] the descent reaches the start node
    in at most [g] steps. *)
Lemma descent_exists : forall g v,
  visited_of maze1 v = true -> distance_of maze1 v = Finite g ->
  exists l, descent maze1 start v l /\ length l <= g + 1.
Proof.
  induction g as [g IH] using lt_wf_ind. intros v Hv Hd.
  destruct (decide (v = start)) as [->|Hne].
  { exists [start]. split; [constructor|simpl; lia]. }
  destruct (inv_visited _ _ _ _ _ _ Hinv v Hv) as (g' & Hd' & Hr & _).
  rewrite Hd in Hd'. injection Hd' as <-.
  destruct Hr as [[-> _]|(Hen & u & gu & Hu & Hdu & -> & Hin)]; [congruence|].
  assert (Hvalid : In u (valid_neighbors maze1 v)).
  { apply valid_neighbors_spec.
    rewrite (same_neighbors maze1 maze v (inv_frame _ _ _ _ _ _ Hinv)).
    rewrite (same_enemy maze1 maze u (inv_frame _ _ _ _ _ _ Hinv)).
    split; [eapply neighbors_mutual; eauto|apply visited_free, Hu]. }
  destruct (min_by_distance_nonempty maze1 (valid_neighbors maze1 v)) as [next Hmin].
  { intros Hnil. rewrite Hnil in Hvalid. destruct Hvalid. }
  destruct (min_by_distance_spec _ _ _ Hmin) as [Hnext Hleast].
  specialize (Hleast u Hvalid). rewrite Hdu in Hleast.
  destruct (distance_of maze1 next) as [gn|] eqn:Hdn; [|discriminate].
  simpl in Hleast. apply Nat.ltb_ge in Hleast.
  destruct (IH gn ltac:(lia) next (labelled_visited next gn Hdn) Hdn) as (l & Hl & Hlen).
  exists (v :: l). split; [econstructor; eauto|simpl; lia].
Qed.

End Descent.

End SearchEnds.

Lemma corridor_steps fuel : forall maze1 acc,
  min_by_distance maze1 (valid_neighbors maze1 (1, 2)) = Some (1, 1) ->
  min_by_distance maze1 (valid_neighbors maze1 (1, 1)) = Some (1, 2) ->
  reconstruct fuel maze1 (1, 0) (1, 2) acc = Diverge /\
  reconstruct fuel maze1 (1, 0) (1, 1) acc = Diverge.
Proof.
  induction fuel as [|fuel IH]; intros maze1 acc H2 H1; [split; reflexivity|].
  cbn [reconstruct]. change (coord_eqb (1, 2) (1, 0)) with false.
  change (coord_eqb (1, 1) (1, 0)) with false. cbv iota. rewrite H1, H2.
  split; apply IH; assumption.
Qed.

(** C3. The code at the failing input: the source (1,0) of this generated
    maze is an obstacle cell.  The search, which expands the start node
    without a look at its flag, gives the destination (1,2) the distance 2;
    the descent, which skips obstacle cells, steps from (1,2) to (1,1) and
    back for ever, and the call does not return the path that its comments
    announce. *)
Lemma descent_loops_on_blocked_start :
  generate_random_maze 3 3 1 [1; 1; 1; 1; 1; 0; 1; 0; 1; 1; 1; 1; 1; 0]
    = Ret (corridor_maze, []) /\
  wf_maze 3 3 corridor_maze /\
  exists maze1,
    searched corridor_maze (1, 0) (1, 2) = Some maze1 /\
    distance_of maze1 (1, 2) = Finite 2 /\
    (forall fuel, reconstruct fuel maze1 (1, 0) (1, 2) [] = Diverge) /\
    snd (astar corridor_maze (1, 0) (1, 2)) = Diverge.
Proof.
  split; [reflexivity|]. split.
  { apply (generate_random_maze_wf 3 3 1
             [1; 1; 1; 1; 1; 0; 1; 0; 1; 1; 1; 1; 1; 0] corridor_maze []).
    reflexivity. }
  eexists. split; [vm_compute; reflexivity|]. split; [reflexivity|]. split.
  - intros fuel. apply corridor_steps; reflexivity.
  - reflexivity.
Qed.

(** When the search leaves the destination with the distance [g], [astar]
    returns a path of at most [g + 1] coordinates. *)
Lemma astar_descends (rows cols : nat) (maze maze1 : Maze) (start e : coord) g :
  wf_maze rows cols maze ->
  is_Some (node_at maze start) -> is_Some (node_at maze e) ->
  enemy_of maze start = false ->
  searched maze start e = Some maze1 ->
  search_inv maze start e None maze1 [] ->
  distance_of maze1 e = Finite g ->
  exists path,
    (forall fuel, length path <= fuel ->
                  reconstruct fuel maze1 start e [] = Ret path) /\
    length path <= g + 1 /\
    length path < descent_fuel maze1 /\
    head path = Some start /\
    snd (astar maze start e) = Ret (Some path).
Proof.
  intros Hwf Hs He Hfree Hrun Hinv Hd.
  pose proof (labelled_visited maze start e maze1 Hinv e g Hd) as Hv.
  destruct (descent_exists rows cols maze start e Hwf maze1 Hinv Hfree g e Hv Hd)
    as (l & Hl & Hlen).
  destruct (inv_visited _ _ _ _ _ _ Hinv e Hv) as (g' & Hd' & _ & Hb).
  rewrite Hd in Hd'. injection Hd' as <-.
  assert (Hsize : cells maze1 = cells maze) by (apply same_size, Hinv).
  assert (Hrec : forall fuel, length (rev l) <= fuel ->
                              reconstruct fuel maze1 start e [] = Ret (rev l)).
  { intros fuel Hfuel. rewrite length_rev in Hfuel.
    apply (descent_reconstruct start maze1 e l Hl fuel [] Hfuel). }
  exists (rev l). split; [exact Hrec|]. rewrite length_rev.
  split; [exact Hlen|]. split; [unfold descent_fuel; lia|]. split.
  - assert (Hrev : rev l = reverse l) by (unfold reverse; apply rev_alt).
    rewrite Hrev, head_reverse. eapply descent_last; eauto.
  - rewrite (astar_searched maze start e Hs He), Hrun, Hd. cbn [snd].
    rewrite Hrec; [reflexivity|]. rewrite length_rev. unfold descent_fuel. lia.
Qed.

(** In a grid whose source is not an obstacle cell, the search loop ends,
    and when it leaves the destination with a finite distance the descent
    reaches the source: it returns a path from the source, after fewer steps
    than the maze has cells. *)
Lemma descent_reaches_start (rows cols : nat) (maze : Maze) (start e : coord) :
  wf_maze rows cols maze ->
  is_Some (node_at maze start) -> is_Some (node_at maze e) ->
  enemy_of maze start = false ->
  exists maze1,
    searched maze start e = Some maze1 /\
    (distance_of maze1 e <> Infinity ->
     exists path,
       (forall fuel, length path <= fuel ->
                     reconstruct fuel maze1 start e [] = Ret path) /\
       length path < descent_fuel maze1 /\
       head path = Some start /\
       snd (astar maze start e) = Ret (Some path)).
Proof.
  intros Hwf Hs He Hfree.
  destruct (searched_total rows cols maze start e Hwf Hs) as (maze1 & Hrun & Hinv).
  exists maze1. split; [exact Hrun|]. intros Hfin.
  destruct (distance_of maze1 e) as [g|] eqn:Hd; [|congruence].
  destruct (astar_descends rows cols maze maze1 start e g Hwf Hs He Hfree Hrun Hinv Hd)
    as (path & H1 & _ & H3 & H4 & H5).
  exists path. auto.
Qed.

Lemma descent_reaches_start_witness :
  exists maze1,
    searched corner_maze (1, 0) (0, 1) = Some maze1 /\
    (distance_of maze1 (0, 1) <> Infinity ->
     exists path,
       (forall fuel, length path <= fuel ->
                     reconstruct fuel maze1 (1, 0) (0, 1) [] = Ret path) /\
       length path < descent_fuel maze1 /\
       head path = Some (1, 0) /\
       snd (astar corner_maze (1, 0) (0, 1)) = Ret (Some path)).
Proof.
  apply (descent_reaches_start 2 2 corner_maze (1, 0) (0, 1)).
  - apply (generate_random_maze_wf 2 2 0 [0; 0; 1; 1] corner_maze []). reflexivity.
  - eexists. reflexivity.
  - eexists. reflexivity.
  - reflexivity.
Defined.


(** * The order of the keys *)

Section FvalOrder.
Import Reals Lra Psatz.
Local Open Scope R_scope.

Lemma Zlt_IZR (z1 z2 : Z) : (z1 < z2)%Z <-> IZR z1 < IZR z2.
Proof. split; [apply IZR_lt|apply lt_IZR]. Qed.

Lemma Zle_IZR (z1 z2 : Z) : (z1 <= z2)%Z <-> IZR z1 <= IZR z2.
Proof. split; [apply IZR_le|apply le_IZR]. Qed.

(** [sqrt a < d + sqrt b] for [d >= 0], on the squares. *)
Lemma square_lt (x y : R) : 0 <= x -> 0 <= y -> (x * x < y * y <-> x < y).
Proof. intros Hx Hy. split; intros H; nra. Qed.

(** [sqrt a < d + sqrt b] for [d >= 0], on the squares. *)
Lemma sqrt_lt_shift_pos (a b d sa sb : R) :
  0 <= sa -> 0 <= sb -> sa * sa = a -> sb * sb = b -> 0 <= d ->
  (a - d * d - b < 0 \/ (a - d * d - b) * (a - d * d - b) < 4 * d * d * b)
  <-> sa < d + sb.
Proof.
  intros Hsa Hsb Ha Hb Hd. subst a b.
  pose proof (Rmult_le_pos d sb Hd Hsb) as Hdsb.
  rewrite <- (square_lt sa (d + sb)) by lra.
  replace ((d + sb) * (d + sb)) with (d * d + sb * sb + 2 * (d * sb)) by ring.
  set (c := sa * sa - d * d - sb * sb).
  replace (4 * d * d * (sb * sb)) with ((2 * (d * sb)) * (2 * (d * sb))) by ring.
  assert (Hiff : sa * sa < d * d + sb * sb + 2 * (d * sb) <-> c < 2 * (d * sb)).
  { unfold c. split; intros; lra. }
  rewrite Hiff. clearbody c. clear Hiff. split.
  - intros [H|H]; [lra|].
    destruct (Rlt_le_dec c 0) as [Hc|Hc]; [lra|].
    apply (square_lt c (2 * (d * sb))); [exact Hc|lra|exact H].
  - intros H. destruct (Rlt_le_dec c 0) as [Hc|Hc]; [left; exact Hc|right].
    apply (square_lt c (2 * (d * sb))); [exact Hc|lra|exact H].
Qed.

(** [e + sqrt a < sqrt b] for [e = - d > 0], on the squares. *)
Lemma sqrt_lt_shift_neg (a b d sa sb : R) :
  0 <= sa -> 0 <= sb -> sa * sa = a -> sb * sb = b -> d < 0 ->
  (0 < b - d * d - a /\ 4 * d * d * a < (b - d * d - a) * (b - d * d - a))
  <-> sa < d + sb.
Proof.
  intros Hsa Hsb Ha Hb Hd. subst a b.
  assert (Hesa : 0 <= (- d) * sa) by (apply Rmult_le_pos; lra).
  assert (Hgoal : sa < d + sb <-> sa + - d < sb) by (split; intros; lra).
  rewrite Hgoal. rewrite <- (square_lt (sa + - d) sb) by lra.
  replace ((sa + - d) * (sa + - d)) with (sa * sa + d * d + 2 * (- d * sa)) by ring.
  set (c := sb * sb - d * d - sa * sa).
  replace (4 * d * d * (sa * sa)) with ((2 * (- d * sa)) * (2 * (- d * sa))) by ring.
  assert (Hiff : sa * sa + d * d + 2 * (- d * sa) < sb * sb <-> 2 * (- d * sa) < c).
  { unfold c. split; intros; lra. }
  rewrite Hiff. clearbody c. clear Hiff. split.
  - intros [H1 H2]. apply (square_lt (2 * (- d * sa)) c); [lra|lra|exact H2].
  - intros H. split; [lra|].
    apply (square_lt (2 * (- d * sa)) c); [lra|lra|exact H].
Qed.

Lemma fval_ltb_spec x y : fval_ltb x y = true <-> fval_val x < fval_val y.
Proof.
  destruct x as [gx a], y as [gy b]. unfold fval_ltb, fval_val. cbn [f_int f_rad].
  set (d := (Z.of_nat gy - Z.of_nat gx)%Z).
  assert (Hd : IZR d = INR gy - INR gx).
  { unfold d. rewrite minus_IZR, <- !INR_IZR_INZ. reflexivity. }
  pose proof (sqrt_pos (INR a)) as Hsa. pose proof (sqrt_pos (INR b)) as Hsb.
  pose proof (sqrt_sqrt (INR a) (pos_INR a)) as Ha.
  pose proof (sqrt_sqrt (INR b) (pos_INR b)) as Hb.
  assert (Hgoal : INR gx + sqrt (INR a) < INR gy + sqrt (INR b)
                  <-> sqrt (INR a) < IZR d + sqrt (INR b)).
  { rewrite Hd. split; intros; lra. }
  rewrite Hgoal.
  destruct (Z.leb_spec 0 d) as [Hpos|Hneg].
  - rewrite orb_true_iff, !Z.ltb_lt, !Zlt_IZR.
    rewrite !mult_IZR, !minus_IZR, !mult_IZR, <- !INR_IZR_INZ.
    apply sqrt_lt_shift_pos; auto. apply (IZR_le 0), Hpos.
  - rewrite andb_true_iff, !Z.ltb_lt, !Zlt_IZR.
    rewrite !mult_IZR, !minus_IZR, !mult_IZR, <- !INR_IZR_INZ.
    apply sqrt_lt_shift_neg; auto. apply (IZR_lt _ 0), Hneg.
Qed.

Lemma fval_eqb_spec x y : fval_eqb x y = true <-> fval_val x = fval_val y.
Proof.
  unfold fval_eqb. rewrite andb_true_iff, !negb_true_iff.
  pose proof (fval_ltb_spec x y) as H1. pose proof (fval_ltb_spec y x) as H2.
  destruct (fval_ltb x y), (fval_ltb y x); split; intros H;
    try (destruct H; discriminate); try (split; reflexivity).
  - assert (fval_val x < fval_val y) by (apply H1; reflexivity).
    assert (fval_val y < fval_val x) by (apply H2; reflexivity). lra.
  - assert (fval_val x < fval_val y) by (apply H1; reflexivity). lra.
  - assert (fval_val y < fval_val x) by (apply H2; reflexivity). lra.
  - destruct (Rtotal_order (fval_val x) (fval_val y)) as [Hlt|[Heq|Hgt]].
    + apply H1 in Hlt. discriminate.
    + exact Heq.
    + apply H2 in Hgt. discriminate.
Qed.

Lemma key_le_refl a : key_le a a.
Proof. right. split; [reflexivity|lia]. Qed.

Lemma key_le_trans a b c : key_le a b -> key_le b c -> key_le a c.
Proof.
  unfold key_le. intros [H1|[H1 H1']] [H2|[H2 H2']].
  - left. lra.
  - left. lra.
  - left. lra.
  - right. split; [lra|lia].
Qed.

Lemma key_le_total a b : key_le a b \/ key_le b a.
Proof.
  unfold key_le.
  destruct (Rtotal_order (fval_val (e_f a)) (fval_val (e_f b))) as [H|[H|H]].
  - left. left. exact H.
  - destruct (Nat.le_ge_cases (e_g a) (e_g b)).
    + left. right. split; assumption.
    + right. right. split; [symmetry; exact H|assumption].
  - right. left. exact H.
Qed.

(** The comparison of the tuples refines the order of the keys, whatever the
    distances of the nodes are. *)
Lemma entry_lt_key_le (m : Maze) a b : entry_lt m a b = true -> key_le a b.
Proof.
  unfold entry_lt, key_le. destruct (fval_eqb (e_f a) (e_f b)) eqn:Ef; simpl.
  - apply fval_eqb_spec in Ef. destruct (Nat.eqb_spec (e_g a) (e_g b)) as [Hg|Hg]; simpl.
    + intros _. right. split; [exact Ef|lia].
    + intros H. apply Nat.ltb_lt in H. right. split; [exact Ef|lia].
  - intros H. apply fval_ltb_spec in H. left. exact H.
Qed.

Lemma entry_lt_false_key_le (m : Maze) a b : entry_lt m a b = false -> key_le b a.
Proof.
  unfold entry_lt, key_le. destruct (fval_eqb (e_f a) (e_f b)) eqn:Ef; simpl.
  - apply fval_eqb_spec in Ef. destruct (Nat.eqb_spec (e_g a) (e_g b)) as [Hg|Hg]; simpl.
    + intros _. right. split; [symmetry; exact Ef|lia].
    + intros H. apply Nat.ltb_ge in H. right. split; [symmetry; exact Ef|lia].
  - intros H. left.
    destruct (Rtotal_order (fval_val (e_f a)) (fval_val (e_f b))) as [Hlt|[Heq|Hgt]].
    + apply fval_ltb_spec in Hlt. congruence.
    + apply fval_eqb_spec in Heq. congruence.
    + exact Hgt.
Qed.

Lemma key_le_not_lt a b : key_le a b -> fval_ltb (e_f b) (e_f a) = false.
Proof.
  intros H. destruct (fval_ltb (e_f b) (e_f a)) eqn:E; [|reflexivity].
  apply fval_ltb_spec in E. destruct H as [H|[H _]]; lra.
Qed.

End FvalOrder.

(** A key whose integer part is ahead by more than [j] is larger, when the
    radicands differ by at most [2 j]: [sqrt (a + 2 j) < sqrt a + j + 1]. *)
Lemma fval_ltb_far gy ay g ax j :
  gy + j + 1 <= g -> ay <= ax + 2 * j -> fval_ltb (FVal gy ay) (FVal g ax) = true.
Proof.
  intros Hg Ha. unfold fval_ltb. cbn [f_int f_rad].
  destruct (Z.leb_spec 0 (Z.of_nat g - Z.of_nat gy)) as [_|H]; [|lia].
  apply orb_true_iff. left. apply Z.ltb_lt. nia.
Qed.


(** * heapq keeps the heap order *)

Lemma parent_cases i :
  0 < i -> i = 2 * Nat.div2 (i - 1) + 1 \/ i = 2 * Nat.div2 (i - 1) + 2.
Proof.
  intros H. pose proof (Nat.div2_odd (i - 1)) as E.
  destruct (Nat.odd (i - 1)); simpl in E; lia.
Qed.

Lemma parent_left p : Nat.div2 (2 * p + 1 - 1) = p.
Proof. replace (2 * p + 1 - 1) with (2 * p) by lia. apply Nat.div2_double. Qed.

Lemma parent_right p : Nat.div2 (2 * p + 2 - 1) = p.
Proof. replace (2 * p + 2 - 1) with (S (2 * p)) by lia. apply Nat.div2_succ_double. Qed.

Section HeapOrder.
Context {A : Type}.
Variable lt : A -> A -> bool.
Variable le : A -> A -> Prop.
Hypothesis le_trans : forall a b c, le a b -> le b c -> le a c.
Hypothesis lt_le : forall a b, lt a b = true -> le a b.
Hypothesis nlt_le : forall a b, lt a b = false -> le b a.

Lemma le_refl' a : le a a.
Proof. destruct (lt a a) eqn:E; [apply lt_le|apply nlt_le]; exact E. Qed.

Lemma filled_insert (heap : list A) pos newitem k :
  pos < length heap -> <[pos := newitem]> heap !! k = filled heap pos newitem k.
Proof.
  intros H. unfold filled. rewrite list_lookup_insert.
  destruct (decide (pos = k)), (decide (pos = k /\ pos < length heap));
    try reflexivity; exfalso; tauto.
Qed.

Lemma sifting_down_done (heap : list A) pos newitem :
  sifting_down le heap pos newitem ->
  (0 < pos -> forall p, heap !! Nat.div2 (pos - 1) = Some p -> le p newitem) ->
  heap_ordered le (<[pos := newitem]> heap).
Proof.
  intros (Hlen & Hedges & _) Htop i p c Hi Hp Hc.
  rewrite filled_insert in Hp, Hc by assumption.
  destruct (decide (i = pos)) as [->|Hne]; [|eapply Hedges; eauto].
  unfold filled in Hp, Hc. pose proof (parent_cases pos Hi).
  destruct (decide (pos = Nat.div2 (pos - 1))); [lia|].
  destruct (decide (pos = pos)); [|congruence]. injection Hc as <-.
  apply Htop; assumption.
Qed.

Lemma siftdown_loop_ordered fuel : forall (heap : list A) pos newitem,
  pos <= fuel -> sifting_down le heap pos newitem ->
  heap_ordered le (siftdown_loop lt fuel heap 0 pos newitem).
Proof.
  induction fuel as [|fuel IH]; intros heap pos newitem Hfuel Hsd.
  - cbn [siftdown_loop]. apply sifting_down_done; [exact Hsd|lia].
  - cbn [siftdown_loop]. destruct (Nat.ltb_spec 0 pos) as [Hpos|Hpos];
      [|apply sifting_down_done; [exact Hsd|lia]].
    pose proof (parent_cases pos Hpos) as Hpp.
    destruct (heap !! Nat.div2 (pos - 1)) as [parent|] eqn:Hparent;
      [|apply sifting_down_done;
         [exact Hsd|intros _ p Hp; rewrite Hparent in Hp; discriminate]].
    destruct (lt newitem parent) eqn:Hlt;
      [|apply sifting_down_done;
         [exact Hsd|intros _ p Hp; rewrite Hparent in Hp; injection Hp as <-;
                    apply nlt_le; exact Hlt]].
    apply lt_le in Hlt. destruct Hsd as (Hlen & Hedges & Hgrand).
    apply IH; [lia|]. set (pp := Nat.div2 (pos - 1)) in *.
    assert (Hfill : forall k,
              filled (<[pos := parent]> heap) pp newitem k =
              if decide (pp = k) then Some newitem
              else if decide (pos = k) then Some parent
              else filled heap pos newitem k).
    { intros k. unfold filled. rewrite list_lookup_insert.
      destruct (decide (pp = k)); [reflexivity|].
      destruct (decide (pos = k)), (decide (pos = k /\ pos < length heap));
        try reflexivity; exfalso; tauto. }
    assert (Hold : filled heap pos newitem pp = Some parent).
    { unfold filled. destruct (decide (pos = pp)); [lia|exact Hparent]. }
    split; [rewrite length_insert; lia|]. split.
    + intros i p c Hi Hne Hp Hc. rewrite Hfill in Hp, Hc.
      pose proof (parent_cases i Hi) as Hpi.
      destruct (decide (pp = i)) as [|_]; [congruence|].
      destruct (decide (pos = i)) as [<-|Hnpos].
      * fold pp in Hp. destruct (decide (pp = pp)); [|congruence].
        injection Hp as <-. injection Hc as <-. exact Hlt.
      * destruct (decide (pp = Nat.div2 (i - 1))) as [Heq|Hnpp].
        -- injection Hp as <-. apply le_trans with parent; [exact Hlt|].
           apply (Hedges i parent c Hi); [congruence| |exact Hc].
           rewrite <- Heq. exact Hold.
        -- destruct (decide (pos = Nat.div2 (i - 1))) as [Heq|Hnp].
           ++ injection Hp as <-.
              apply (Hgrand i parent c Hpos Hi); [congruence|exact Hold|exact Hc].
           ++ apply (Hedges i p c Hi); [congruence|exact Hp|exact Hc].
    + intros i p c Hppos Hi Hpar Hp Hc. rewrite Hfill in Hp, Hc.
      pose proof (parent_cases pp Hppos) as Hppp.
      destruct (decide (pp = Nat.div2 (pp - 1))); [lia|].
      destruct (decide (pos = Nat.div2 (pp - 1))); [lia|].
      destruct (decide (pp = i)); [pose proof (parent_cases i Hi); lia|].
      assert (Hpparent : le p parent).
      { apply (Hedges pp p parent Hppos); [lia|exact Hp|exact Hold]. }
      destruct (decide (pos = i)) as [<-|Hnpos].
      * injection Hc as <-. exact Hpparent.
      * apply le_trans with parent; [exact Hpparent|].
        apply (Hedges i parent c Hi); [congruence| |exact Hc].
        rewrite Hpar. exact Hold.
Qed.

Lemma filled_same (heap : list A) pos newitem k :
  heap !! pos = Some newitem -> filled heap pos newitem k = heap !! k.
Proof. intros H. unfold filled. destruct (decide (pos = k)); congruence. Qed.

Lemma heappush_ordered (heap : list A) item :
  heap_ordered le heap -> heap_ordered le (heappush lt heap item).
Proof.
  intros Hord. unfold heappush, siftdown.
  assert (Hitem : (heap ++ [item]) !! length heap = Some item).
  { rewrite lookup_app_r by lia. rewrite Nat.sub_diag. reflexivity. }
  rewrite Hitem. apply siftdown_loop_ordered; [lia|].
  split; [rewrite length_app; simpl; lia|]. split.
  - intros i p c Hi Hne Hp Hc. rewrite filled_same in Hp, Hc by assumption.
    pose proof (parent_cases i Hi) as Hpi.
    assert (Hlt : i < length heap).
    { apply lookup_lt_Some in Hc. rewrite length_app in Hc. simpl in Hc. lia. }
    rewrite lookup_app_l in Hp, Hc by lia. eapply Hord; eauto.
  - intros i p c Hpos Hi Hpar _ Hc. rewrite filled_same in Hc by assumption.
    apply lookup_lt_Some in Hc. rewrite length_app in Hc. simpl in Hc.
    pose proof (parent_cases i Hi). lia.
Qed.

Lemma siftup_leaf_ordered (heap : list A) pos newitem :
  bubbling_up le heap pos -> length heap <= 2 * pos + 1 ->
  heap_ordered le (siftdown lt (<[pos := newitem]> heap) 0 pos).
Proof.
  intros (Hlen & Hedges & _) Hleaf. unfold siftdown.
  rewrite list_lookup_insert_eq by assumption.
  apply siftdown_loop_ordered; [lia|].
  assert (Hfill : forall k, filled (<[pos := newitem]> heap) pos newitem k
                            = filled heap pos newitem k).
  { intros k. unfold filled. destruct (decide (pos = k)); [reflexivity|].
    apply list_lookup_insert_ne. assumption. }
  split; [rewrite length_insert; exact Hlen|]. split.
  - intros i p c Hi Hne Hp Hc. rewrite Hfill in Hp, Hc.
    pose proof (parent_cases i Hi) as Hpi.
    unfold filled in Hp, Hc.
    destruct (decide (pos = i)); [congruence|].
    destruct (decide (pos = Nat.div2 (i - 1))) as [Heq|Hnp].
    + apply lookup_lt_Some in Hc. lia.
    + eapply Hedges; eauto.
  - intros i p c Hpos Hi Hpar _ Hc. rewrite Hfill in Hc.
    pose proof (parent_cases i Hi) as Hpi. unfold filled in Hc.
    destruct (decide (pos = i)); [lia|]. apply lookup_lt_Some in Hc. lia.
Qed.

Lemma siftup_loop_ordered fuel : forall (heap : list A) pos newitem,
  length heap <= fuel + pos -> bubbling_up le heap pos ->
  heap_ordered le (siftup_loop lt fuel heap (length heap) 0 pos newitem).
Proof.
  induction fuel as [|fuel IH]; intros heap pos newitem Hfuel Hbu.
  - destruct Hbu as (Hlen & _). lia.
  - cbn [siftup_loop].
    destruct (Nat.ltb_spec (2 * pos + 1) (length heap)) as [Hchild|Hleaf];
      [|apply siftup_leaf_ordered; [exact Hbu|lia]].
    destruct (lookup_lt_is_Some_2 heap (2 * pos + 1) Hchild) as [cl Hcl].
    rewrite Hcl.
    set (childpos' := match heap !! (2 * pos + 1 + 1) with
                      | Some r => if negb (lt cl r) then 2 * pos + 1 + 1 else 2 * pos + 1
                      | None => 2 * pos + 1
                      end).
    assert (Hchoice : exists c, heap !! childpos' = Some c /\
              (childpos' = 2 * pos + 1 \/ childpos' = 2 * pos + 2) /\
              forall i s, (i = 2 * pos + 1 \/ i = 2 * pos + 2) ->
                          heap !! i = Some s -> le c s).
    { unfold childpos'. destruct (heap !! (2 * pos + 1 + 1)) as [cr|] eqn:Hcr.
      - destruct (lt cl cr) eqn:Hlt; cbn [negb].
        + exists cl. split; [exact Hcl|]. split; [left; reflexivity|].
          intros i s [Hi|Hi] Hs; subst i.
          * rewrite Hcl in Hs. injection Hs as <-. apply le_refl'.
          * replace (2 * pos + 2) with (2 * pos + 1 + 1) in Hs by lia.
            rewrite Hcr in Hs. injection Hs as <-. apply lt_le, Hlt.
        + exists cr. split; [exact Hcr|]. split; [right; lia|].
          intros i s [Hi|Hi] Hs; subst i.
          * rewrite Hcl in Hs. injection Hs as <-. apply nlt_le, Hlt.
          * replace (2 * pos + 2) with (2 * pos + 1 + 1) in Hs by lia.
            rewrite Hcr in Hs. injection Hs as <-. apply le_refl'.
      - exists cl. split; [exact Hcl|]. split; [left; reflexivity|].
        intros i s [Hi|Hi] Hs; subst i.
        + rewrite Hcl in Hs. injection Hs as <-. apply le_refl'.
        + replace (2 * pos + 2) with (2 * pos + 1 + 1) in Hs by lia. congruence. }
    clearbody childpos'. destruct Hchoice as (c & Hc & Hwhich & Hsmall).
    rewrite Hc. destruct Hbu as (Hlen & Hedges & Hgrand).
    assert (Hpar : Nat.div2 (childpos' - 1) = pos).
    { destruct Hwhich as [Hw|Hw]; rewrite Hw; [apply parent_left|apply parent_right]. }
    assert (Hlook : forall k, <[pos := c]> heap !! k
                              = if decide (pos = k) then Some c else heap !! k).
    { intros k. rewrite list_lookup_insert.
      destruct (decide (pos = k)), (decide (pos = k /\ pos < length heap));
        try reflexivity; exfalso; tauto. }
    rewrite <- (length_insert heap pos c). apply IH.
    { rewrite length_insert. lia. }
    split; [rewrite length_insert; apply lookup_lt_Some in Hc; exact Hc|]. split.
    + intros i p s Hi Hne Hnpar Hp Hs. rewrite Hlook in Hp, Hs.
      pose proof (parent_cases i Hi) as Hpi.
      destruct (decide (pos = i)) as [<-|Hnpos].
      * injection Hs as <-.
        destruct (decide (pos = Nat.div2 (pos - 1))); [lia|].
        apply (Hgrand childpos' p c Hi); [lia|exact Hpar|exact Hp|exact Hc].
      * destruct (decide (pos = Nat.div2 (i - 1))) as [Heq|Hnp].
        -- injection Hp as <-. apply (Hsmall i s); [lia|exact Hs].
        -- apply (Hedges i p s Hi); [congruence|congruence|exact Hp|exact Hs].
    + intros i p s Hcpos Hi Hipar Hp Hs. rewrite Hlook in Hp, Hs.
      rewrite Hpar in Hp. destruct (decide (pos = pos)); [|congruence].
      injection Hp as <-. pose proof (parent_cases i Hi) as Hpi.
      destruct (decide (pos = i)); [lia|].
      apply (Hedges i c s Hi); [lia|lia| |exact Hs]. rewrite Hipar. exact Hc.
Qed.

Lemma heappop_ordered (heap : list A) x rest :
  heap_ordered le heap -> heappop lt heap = Some (x, rest) ->
  heap_ordered le rest /\ heap !! 0 = Some x.
Proof.
  intros Hord. unfold heappop.
  destruct (last heap) as [lastelt|] eqn:E; [|discriminate].
  apply last_Some in E. destruct E as [init ->].
  rewrite length_app. simpl. replace (length init + 1 - 1) with (length init) by lia.
  rewrite take_app_length. destruct init as [|returnitem rest0].
  - intros [= <- <-]. split; [|reflexivity]. intros i p c _ Hp. discriminate.
  - intros [= <- <-]. split; [|reflexivity].
    unfold siftup. cbn [lookup list_lookup].
    change (length (lastelt :: rest0)) with (length (lastelt :: rest0)).
    apply siftup_loop_ordered; [lia|].
    split; [simpl; lia|]. split; [|intros; lia].
    intros i p c Hi _ Hnpar Hp Hc. pose proof (parent_cases i Hi) as Hpi.
    assert (Hlt : i < length (lastelt :: rest0)) by (eapply lookup_lt_Some; eauto).
    simpl in Hlt.
    apply (Hord i p c Hi).
    + destruct (Nat.div2 (i - 1)) as [|k] eqn:Ek; [congruence|].
      simpl in Hp. simpl. rewrite lookup_app_l by lia. exact Hp.
    + destruct i as [|k]; [lia|]. simpl in Hc. simpl.
      rewrite lookup_app_l by lia. exact Hc.
Qed.

(** The root of a heap is its least item. *)
Lemma heap_root_least (heap : list A) x :
  heap_ordered le heap -> heap !! 0 = Some x ->
  forall y, In y heap -> le x y.
Proof.
  intros Hord Hx y Hy. apply list_elem_of_In, list_elem_of_lookup_1 in Hy.
  destruct Hy as [i Hi]. revert y Hi.
  induction i as [i IH] using lt_wf_ind. intros y Hi.
  destruct i as [|k]; [rewrite Hx in Hi; injection Hi as <-; apply le_refl'|].
  pose proof (parent_cases (S k) ltac:(lia)) as Hp.
  destruct (lookup_lt_is_Some_2 heap (Nat.div2 (S k - 1))) as [p Hpv].
  { apply lookup_lt_Some in Hi. lia. }
  apply le_trans with p.
  - apply (IH (Nat.div2 (S k - 1))); [lia|exact Hpv].
  - apply (Hord (S k) p y); [lia|exact Hpv|exact Hi].
Qed.

End HeapOrder.


(** * The distances are the shortest *)

Section Optimal.
Variables (rows cols : nat) (maze : Maze) (start e : coord).
Hypothesis Hwf : wf_maze rows cols maze.
Hypothesis Hstart : is_Some (node_at maze start).

(** One step changes [row + col] by one, and the radicand by two. *)
Lemma hrad_step u v : In v (neighbors maze u) -> hrad e u <= hrad e v + 2.
Proof.
  intros H. apply neighbors_ptr in H. unfold hrad, heuristic, fsqrt. cbn [f_rad].
  destruct u as [ur uc], v as [vr vc].
  destruct H as [H|[H|[H|H]]];
    [apply (wf_left _ _ _ Hwf) in H|apply (wf_right _ _ _ Hwf) in H
    |apply (wf_up _ _ _ Hwf) in H|apply (wf_down _ _ _ Hwf) in H];
    simpl in H; destruct H as [Hb [= -> ->]]; simpl; lia.
Qed.

(** A walk to a node not visited yet crosses the queue: some entry lies on
    a walk that is no longer. *)
Lemma frontier (m : Maze) pq :
  search_inv maze start e None m pq -> optimal maze start m ->
  forall k v, walk maze start k v -> visited_of m v = false ->
  exists y i j, In y pq /\ i + j = k /\ e_g y <= i /\
                hrad e (e_node y) <= hrad e v + 2 * j.
Proof.
  intros Hinv Hopt k v Hw. induction Hw as [|k u v Hw IH Hin Hen]; intros Hv.
  - destruct (inv_start _ _ _ _ _ _ Hinv) as [Hs|(y & Hy & Hn & Hg)]; [congruence|].
    exists y, 0, 0. rewrite Hn, Hg. repeat split; auto; lia.
  - destruct (visited_of m u) eqn:Hu.
    + destruct (inv_visited _ _ _ _ _ _ Hinv u Hu) as (gu & Hdu & _).
      pose proof (Hopt u gu k Hu Hdu Hw) as Hle.
      destruct (inv_expanded _ _ _ _ _ _ Hinv u gu v Hu Hdu Hin Hen Hv I)
        as (gv & Hdv & Hgv).
      destruct (inv_open _ _ _ _ _ _ Hinv v gv Hv Hdv) as (y & Hy & Hn & Hg).
      exists y, (S k), 0. rewrite Hn, Hg. repeat split; auto; lia.
    + destruct (IH eq_refl) as (y & i & j & Hy & Hij & Hgy & Hh).
      exists y, i, (S j). pose proof (hrad_step u v Hin).
      repeat split; auto; lia.
Qed.

Lemma entry_key (m : Maze) x :
  entry_ok maze start e m x -> e_f x = FVal (e_g x) (hrad e (e_node x)).
Proof.
  intros (_ & H & _). rewrite H. unfold fadd, hrad, heuristic, fsqrt. cbn [f_int f_rad].
  rewrite Nat.add_0_r. reflexivity.
Qed.

(** The entry popped belongs to a shortest walk to its node. *)
Lemma popped_optimal (m : Maze) pq x pq' :
  search_inv maze start e None m pq -> heap_ordered key_le pq -> optimal maze start m ->
  heappop (entry_lt m) pq = Some (x, pq') ->
  visited_of m (e_node x) = false ->
  forall k, walk maze start k (e_node x) -> e_g x <= k.
Proof.
  intros Hinv Hord Hopt Hpop Hx k Hw.
  destruct (frontier m pq Hinv Hopt k (e_node x) Hw Hx) as (y & i & j & Hy & Hij & Hgy & Hh).
  destruct (heappop_ordered (entry_lt m) key_le key_le_trans
              (entry_lt_key_le m) (entry_lt_false_key_le m) pq x pq' Hord Hpop)
    as [_ Hroot].
  pose proof (heap_root_least (entry_lt m) key_le key_le_trans
                (entry_lt_key_le m) (entry_lt_false_key_le m) pq x Hord Hroot y Hy)
    as Hle.
  apply key_le_not_lt in Hle.
  assert (Hxin : In x pq) by (apply (heappop_in _ _ _ _ x Hpop); left; reflexivity).
  destruct (inv_queue _ _ _ _ _ _ Hinv x Hxin) as [Hokx _].
  destruct (inv_queue _ _ _ _ _ _ Hinv y Hy) as [Hoky _].
  rewrite (entry_key m x Hokx), (entry_key m y Hoky) in Hle.
  destruct (Nat.le_gt_cases (e_g x) k) as [Hok|Hbad]; [exact Hok|].
  rewrite (fval_ltb_far (e_g y) (hrad e (e_node y)) (e_g x) (hrad e (e_node x)) j)
    in Hle; [discriminate|lia|lia].
Qed.

Lemma optimal_keeps (m m' : Maze) :
  (forall v, visited_of m' v = true ->
             visited_of m v = true /\ distance_of m' v = distance_of m v) ->
  optimal maze start m -> optimal maze start m'.
Proof.
  intros Hk Hopt v g k Hv Hd Hw. destruct (Hk v Hv) as [Hv' Hd'].
  rewrite Hd' in Hd. eapply Hopt; eauto.
Qed.

Lemma search_loop_best fuel (m m' : Maze) pq :
  best_inv maze start e m pq -> search_loop fuel e m pq = Some m' ->
  best_inv maze start e m' [].
Proof.
  apply (search_loop_inv e (best_inv maze start e) (best_pass maze start e)).
  - intros m0 pq0 x pq' (Hinv & Hord & Hopt) Hpop Hx. split; [|split].
    + eapply inv_skip; eauto.
    + eapply heappop_ordered; eauto using key_le_trans, entry_lt_key_le,
        entry_lt_false_key_le.
    + exact Hopt.
  - intros m0 pq0 x pq' (Hinv & Hord & Hopt) Hpop Hx. split; [|split].
    + eapply inv_mark; eauto.
    + eapply heappop_ordered; eauto using key_le_trans, entry_lt_key_le,
        entry_lt_false_key_le.
    + assert (Hxin : In x pq0) by (apply (heappop_in _ _ _ _ x Hpop); left; reflexivity).
      destruct (inv_queue _ _ _ _ _ _ Hinv x Hxin) as [(Hcell & _) _].
      apply (inv_in_maze maze start e _ _ _ _ Hinv) in Hcell.
      intros v g k Hv Hd Hw. destruct (decide (e_node x = v)) as [<-|Hne].
      * rewrite distance_of_mark_eq in Hd by assumption. injection Hd as <-.
        eapply popped_optimal; eauto.
      * rewrite visited_of_mark_ne in Hv by assumption.
        rewrite distance_of_mark_ne in Hd by assumption. eapply Hopt; eauto.
  - intros x m1 done m0 pq0 nb (Hpass & Hord & Hopt) Hnb Hrel. split; [|split]; auto.
    eapply pass_skip; eauto.
  - intros x m1 done m0 pq0 nb (Hpass & Hord & Hopt) Hnb Hrel. split; [|split].
    + eapply pass_push; eauto.
    + apply (heappush_ordered _ key_le key_le_trans (entry_lt_key_le _)
               (entry_lt_false_key_le _)). exact Hord.
    + apply relaxes_true in Hrel. destruct Hrel as (Hvn & _).
      apply (optimal_keeps m0); [|exact Hopt].
      intros v Hv. rewrite visited_of_lowered in Hv. split; [exact Hv|].
      apply distance_of_lowered_ne. congruence.
  - intros x m1 m0 pq0 (Hpass & Hord & Hopt). split; [|split]; auto.
    eapply pass_done; eauto.
Qed.

Lemma best_init : best_inv maze start e (reset_maze maze) (initial_queue start e).
Proof.
  split; [apply inv_init; assumption|]. split.
  - intros i p c Hi _ Hc. destruct i; [lia|discriminate].
  - intros v g k Hv. rewrite visited_of_reset in Hv. discriminate.
Qed.

(** A visited node of distance [g] is at the end of a walk of [g] steps. *)
Lemma visited_walk (m : Maze) pq :
  search_inv maze start e None m pq ->
  forall g v, visited_of m v = true -> distance_of m v = Finite g ->
              walk maze start g v.
Proof.
  intros Hinv. induction g as [|g IH]; intros v Hv Hd;
    destruct (inv_visited _ _ _ _ _ _ Hinv v Hv) as (g' & Hd' & Hr & _);
    rewrite Hd in Hd'; injection Hd' as <-;
    destruct Hr as [[-> Hg]|(Hen & u & gu & Hu & Hdu & Hg & Hin)]; try lia.
  - constructor.
  - replace gu with g in Hdu by lia. econstructor; eauto.
Qed.

End Optimal.


(** * The path returned is a shortest route *)

Lemma chain_walk (maze : Maze) start : forall l a k b,
  walk maze start k a ->
  (forall c, In c l -> enemy_of maze c = false) ->
  (forall i x y, (a :: l) !! i = Some x -> (a :: l) !! S i = Some y ->
                 In y (neighbors maze x)) ->
  last (a :: l) = Some b ->
  walk maze start (k + length l) b.
Proof.
  induction l as [|c l IH]; intros a k b Hw Hfree Hlinks Hlast.
  - simpl in Hlast. injection Hlast as <-. rewrite Nat.add_0_r. exact Hw.
  - replace (k + length (c :: l)) with (S k + length l) by (simpl; lia).
    apply (IH c).
    + econstructor; [exact Hw| |].
      * apply (Hlinks 0 a c); reflexivity.
      * apply Hfree. left. reflexivity.
    + intros x Hx. apply Hfree. right. exact Hx.
    + intros i x y Hx Hy. apply (Hlinks (S i) x y); assumption.
    + exact Hlast.
Qed.

Lemma route_walk (maze : Maze) s e l :
  route maze s e l -> walk maze s (length l - 1) e.
Proof.
  intros (Hhead & Hlast & Hcells & Hlinks).
  destruct l as [|a l]; [discriminate|]. simpl in Hhead. injection Hhead as ->.
  replace (length (s :: l) - 1) with (0 + length l) by (simpl; lia).
  apply (chain_walk maze s l s 0 e).
  - constructor.
  - intros c Hc. apply Hcells. right. exact Hc.
  - exact Hlinks.
  - exact Hlast.
Qed.

Lemma route_endpoints (maze : Maze) s e l :
  route maze s e l ->
  (is_Some (node_at maze s) /\ enemy_of maze s = false) /\
  (is_Some (node_at maze e) /\ enemy_of maze e = false) /\ 0 < length l.
Proof.
  intros (Hhead & Hlast & Hcells & _). split; [|split].
  - apply Hcells. destruct l; [discriminate|]. injection Hhead as ->. left. reflexivity.
  - apply Hcells. apply list_elem_of_In. eapply last_Some_elem_of; eauto.
  - destruct l; [discriminate|simpl; lia].
Qed.

(** In a grid a returned path is a route. *)
Lemma returned_path_route rows cols (maze : Maze) s e path :
  wf_maze rows cols maze -> is_Some (node_at maze s) -> enemy_of maze s = false ->
  snd (astar maze s e) = Ret (Some path) -> route maze s e path.
Proof.
  intros Hwf Hs Hfree H.
  destruct (returned_path_shape maze s e path H) as (H1 & H2 & H3 & H4).
  assert (Hlinks : forall i a b, path !! i = Some a -> path !! S i = Some b ->
                                 In b (neighbors maze a)).
  { intros i a b Ha Hb. eapply neighbors_mutual; eauto. }
  split; [exact H1|]. split; [exact H2|]. split; [|exact Hlinks].
  intros c Hc. split; [|apply H4; auto].
  apply list_elem_of_In, list_elem_of_lookup_1 in Hc. destruct Hc as [i Hi].
  destruct i as [|i].
  - destruct path; [discriminate|]. simpl in H1, Hi. congruence.
  - destruct (lookup_lt_is_Some_2 path i) as [a Ha].
    { apply lookup_lt_Some in Hi. lia. }
    eapply neighbors_in_maze; [exact Hwf|]. eapply Hlinks; eauto.
Qed.

(** C1. In a grid, for a source and a destination that differ and are
    joined by at least one obstacle-free route, [astar] returns a path; the
    path is itself an obstacle-free route from the source to the destination,
    and no such route has fewer coordinates: its edge count is the minimum. *)
Theorem astar_shortest (rows cols : nat) (maze : Maze) (s e : coord)
    (r : list coord) :
  wf_maze rows cols maze -> s <> e -> route maze s e r ->
  exists path,
    snd (astar maze s e) = Ret (Some path) /\
    route maze s e path /\
    forall r', route maze s e r' -> length path <= length r'.
Proof.
  intros Hwf Hne Hr.
  destruct (route_endpoints maze s e r Hr) as ((Hs & Hfree) & (He & _) & _).
  destruct (searched_total rows cols maze s e Hwf Hs) as (maze1 & Hrun & Hinv).
  assert (Hbest : best_inv maze s e maze1 []).
  { eapply (search_loop_best rows cols maze s e Hwf Hs); [|exact Hrun].
    apply best_init. exact Hs. }
  destruct Hbest as (_ & _ & Hopt).
  assert (Hvis : visited_of maze1 e = true).
  { destruct (visited_of maze1 e) eqn:Hv; [reflexivity|].
    destruct (frontier rows cols maze s e Hwf maze1 [] Hinv Hopt _ e (route_walk _ _ _ _ Hr) Hv)
      as (y & _ & _ & [] & _). }
  destruct (inv_visited _ _ _ _ _ _ Hinv e Hvis) as (g & Hd & _).
  destruct (astar_descends rows cols maze maze1 s e g Hwf Hs He Hfree Hrun Hinv Hd)
    as (path & _ & Hlen & _ & _ & Hret).
  exists path. split; [exact Hret|]. split.
  - eapply returned_path_route; eauto.
  - intros r' Hr'. pose proof (route_walk _ _ _ _ Hr') as Hw.
    pose proof (Hopt e g _ Hvis Hd Hw) as Hle.
    destruct (route_endpoints maze s e r' Hr') as (_ & _ & Hpos). lia.
Qed.

Lemma astar_shortest_witness :
  exists path,
    snd (astar corner_maze (1, 0) (0, 1)) = Ret (Some path) /\
    route corner_maze (1, 0) (0, 1) path /\
    forall r', route corner_maze (1, 0) (0, 1) r' -> length path <= length r'.
Proof.
  apply (astar_shortest 2 2 corner_maze (1, 0) (0, 1) [(1, 0); (0, 0); (0, 1)]).
  - apply (generate_random_maze_wf 2 2 0 [0; 0; 1; 1] corner_maze []). reflexivity.
  - discriminate.
  - split; [reflexivity|]. split; [reflexivity|]. split.
    + intros c [<-|[<-|[<-|[]]]]; (split; [eexists; reflexivity|reflexivity]).
    + intros [|[|i]] a b Ha Hb; simpl in Ha, Hb.
      * injection Ha as <-. injection Hb as <-. simpl. auto.
      * injection Ha as <-. injection Hb as <-. simpl. auto.
      * destruct i; discriminate.
Defined.


(** * The fuel of the descent

    [astar] gives the descent one step per cell of the maze and one more.
    In a grid that is enough: a descent that is still going after so many
    steps has come back to a node, and goes round for ever. *)

Section DescentFuel.
Variables (rows cols : nat) (maze : Maze) (start : coord).
Hypothesis Hwf : wf_maze rows cols maze.

Lemma reconstruct_diverges fuel : forall c acc,
  reconstruct fuel maze start c acc = Diverge <->
  exists l d, trail maze start c l d /\ length l = fuel.
Proof.
  induction fuel as [|fuel IH]; intros c acc.
  - split; [intros _; exists [], c; split; [constructor|reflexivity]|reflexivity].
  - cbn [reconstruct]. destruct (coord_eqb c start) eqn:E.
    + apply coord_eqb_eq in E. split; [discriminate|].
      intros (l & d & Ht & Hlen).
      inversion Ht as [|c0 next l0 d0 Hne Hmin Ht']; subst; [discriminate|congruence].
    + apply coord_eqb_neq in E.
      destruct (min_by_distance maze (valid_neighbors maze c)) as [next|] eqn:Hmin.
      * rewrite IH. split.
        -- intros (l & d & Ht & Hlen). exists (c :: l), d.
           split; [econstructor; eauto|simpl; lia].
        -- intros (l & d & Ht & Hlen).
           inversion Ht as [|c0 next0 l0 d0 Hne Hmin0 Ht']; subst; [discriminate|].
           exists l0, d. split; [congruence|simpl in Hlen; lia].
      * split; [discriminate|].
        intros (l & d & Ht & Hlen).
        inversion Ht as [|c0 next0 l0 d0 Hne Hmin0 Ht']; subst; [discriminate|congruence].
Qed.

Lemma trail_app c l1 l2 d :
  trail maze start c (l1 ++ l2) d <->
  exists x, trail maze start c l1 x /\ trail maze start x l2 d.
Proof.
  revert c. induction l1 as [|a l1 IH]; intros c; simpl.
  - split; [intros H; exists c; split; [constructor|exact H]|].
    intros (x & H1 & H2). inversion H1; subst. exact H2.
  - split.
    + intros H. inversion H as [|c0 next l0 d0 Hne Hmin Ht]; subst.
      apply IH in Ht. destruct Ht as (x & H1 & H2).
      exists x. split; [econstructor; eauto|exact H2].
    + intros (x & H1 & H2). inversion H1 as [|c0 next l0 d0 Hne Hmin Ht]; subst.
      econstructor; eauto. apply IH. eauto.
Qed.

Lemma trail_head c a l d : trail maze start c (a :: l) d -> a = c.
Proof. intros H. inversion H. reflexivity. Qed.

Lemma trail_cells c l d :
  is_Some (node_at maze c) -> trail maze start c l d ->
  forall x, In x l -> is_Some (node_at maze x).
Proof.
  intros Hc Ht. induction Ht as [|c next l d Hne Hmin Ht IH]; intros x Hx; [destruct Hx|].
  destruct Hx as [<-|Hx]; [exact Hc|]. apply IH; [|exact Hx].
  apply min_by_distance_spec in Hmin. destruct Hmin as [Hin _].
  apply valid_neighbors_spec in Hin.
  apply (neighbors_in_maze rows cols maze c next Hwf), Hin.
Qed.

Lemma shape_cells (m : Maze) : shape rows cols m -> cells m = rows * cols.
Proof.
  intros [Hr Hc]. unfold cells. rewrite <- Hr. clear Hr.
  induction m as [|row m IH]; [reflexivity|].
  simpl. rewrite length_app, (Hc 0 row eq_refl). f_equal. apply IH.
  intros r row' H. apply (Hc (S r)). exact H.
Qed.

(** More nodes of the maze than it has cells: one of them twice. *)
Lemma crowded (l : list coord) :
  (forall x, In x l -> is_Some (node_at maze x)) -> cells maze < length l ->
  exists a l1 l2 l3, l = l1 ++ a :: l2 ++ a :: l3.
Proof.
  intros Hin Hlen.
  apply ListDec.not_NoDup.
  { intros x y. destruct (decide (x = y)); [left|right]; assumption. }
  intros Hnd.
  pose proof (wf_maze_shape _ _ _ Hwf) as Hsh.
  assert (Hincl : incl l (list_prod (seq 0 rows) (seq 0 cols))).
  { intros [r c] Hx. apply in_prod_iff. rewrite !in_seq.
    apply Hin in Hx. apply (shape_node_at rows cols) in Hx; [|exact Hsh].
    simpl in Hx. lia. }
  pose proof (NoDup_incl_length Hnd Hincl) as Hle.
  rewrite length_prod, !length_seq in Hle.
  rewrite (shape_cells maze Hsh) in Hlen. lia.
Qed.

Lemma trail_round a cyc : trail maze start a cyc a ->
  forall k, exists l, trail maze start a l a /\ length l = k * length cyc.
Proof.
  intros Hc. induction k as [|k (l & Hl & Hlen)].
  - exists []. split; [constructor|reflexivity].
  - exists (cyc ++ l). split; [apply trail_app; eauto|].
    rewrite length_app. simpl. lia.
Qed.

(** A descent of the grid that has not ended within the fuel of [astar]
    does not end. *)
Lemma descent_fuel_enough c acc :
  is_Some (node_at maze c) ->
  reconstruct (descent_fuel maze) maze start c acc = Diverge ->
  forall fuel acc', reconstruct fuel maze start c acc' = Diverge.
Proof.
  intros Hc H fuel acc'. apply reconstruct_diverges in H.
  destruct H as (l & d & Ht & Hlen). unfold descent_fuel in Hlen.
  destruct (crowded l (trail_cells c l d Hc Ht) ltac:(lia)) as (a & l1 & l2 & l3 & ->).
  apply trail_app in Ht. destruct Ht as (x & H1 & H2).
  pose proof (trail_head _ _ _ _ H2) as <-.
  change (a :: l2 ++ a :: l3) with ((a :: l2) ++ a :: l3) in H2.
  apply trail_app in H2. destruct H2 as (y & H2 & H3).
  pose proof (trail_head _ _ _ _ H3) as <-.
  destruct (trail_round a (a :: l2) H2 fuel) as (lc & Hlc & Hlenc).
  assert (Hlong : trail maze start c (l1 ++ lc) a) by (apply trail_app; eauto).
  rewrite <- (take_drop fuel (l1 ++ lc)) in Hlong.
  apply trail_app in Hlong. destruct Hlong as (z & Hz & _).
  apply reconstruct_diverges. exists (take fuel (l1 ++ lc)), z.
  split; [exact Hz|]. rewrite length_take, length_app, Hlenc. simpl. nia.
Qed.

End DescentFuel.


(** * Examples *)

(** The arrays of [heapq] after each [heappush] of 5, 3, 8, 1, 9, 2, then
    the items and arrays of two calls of [heappop]. *)
Example heapq_pushes :
  fold_left (fun hs x => hs ++ [heappush Nat.ltb (List.last hs []) x])
    [5; 3; 8; 1; 9; 2] []
  = [[5]; [3; 5]; [3; 5; 8]; [1; 3; 8; 5]; [1; 3; 8; 5; 9]; [1; 3; 2; 5; 9; 8]].
Proof. reflexivity. Qed.

Example heapq_pops :
  heappop Nat.ltb [1; 3; 2; 5; 9; 8] = Some (1, [2; 3; 8; 5; 9]) /\
  heappop Nat.ltb [2; 3; 8; 5; 9] = Some (2, [3; 5; 8; 9]).
Proof. split; reflexivity. Qed.

(** The heuristic overestimates next to the destination: [sqrt 2 > 1]. *)
Example heuristic_next_to_destination :
  heuristic (1, 1) (1, 2) = fsqrt 2 /\ fval_ltb (fadd 1 (fsqrt 0)) (fsqrt 2) = true.
Proof. split; reflexivity. Qed.

(** In the open maze the path from (1,0) to (1,2) goes straight; with an
    obstacle on (1,1) it goes round. *)
Example astar_open_maze :
  snd (astar open_maze (1, 0) (1, 2)) = Ret (Some [(1, 0); (1, 1); (1, 2)]).
Proof. reflexivity. Qed.

Example astar_round_obstacle :
  snd (astar (upd_node (set_is_enemy true) (1, 1) open_maze) (1, 0) (1, 2))
  = Ret (Some [(1, 0); (0, 0); (0, 1); (0, 2); (1, 2)]).
Proof. reflexivity. Qed.

(** The distance field of the second search: the obstacle keeps its
    infinite distance. *)
Example astar_round_obstacle_distances :
  map (map distance)
    (fst (astar (upd_node (set_is_enemy true) (1, 1) open_maze) (1, 0) (1, 2)))
  = [[Finite 1; Finite 2; Finite 3];
     [Finite 0; Infinity; Finite 4];
     [Finite 1; Finite 2; Finite 3]].
Proof. reflexivity. Qed.


(** * More on the border points and the heuristic *)

(** X1. [generate_start_on_border] ignores [cols].  With a draw at hand it
    returns when the grid has three rows or more, and then a point of the
    left column that is no corner, using one draw; with fewer rows it raises
    [ValueError] ([randint(1, rows - 2)] on an empty range). *)
Theorem start_on_border_cases (rows cols : Z) (d : nat) (ds : list nat) :
  match generate_start_on_border rows cols (d :: ds) with
  | Ret (start, ds') =>
      (3 <= rows)%Z /\ (1 <= fst start <= rows - 2)%Z /\ snd start = 0%Z /\ ds' = ds
  | Raise x => (rows < 3)%Z /\ x = ValueError
  | Diverge => False
  end.
Proof.
  unfold generate_start_on_border, rbind, rret, randint.
  destruct (Z.ltb_spec (rows - 2) 1) as [Hlt|Hge].
  - split; [lia|reflexivity].
  - cbn [fst snd]. pose proof (Z.mod_pos_bound (Z.of_nat d) (rows - 2 - 1 + 1)).
    repeat split; lia.
Qed.

(** The side draws of [generate_end_on_border] for a start point of the left
    column: "left" draws again, the other sides are accepted. *)
Lemma end_on_border_sides (rows cols sr : Z) : forall ds e ds',
  (1 <= sr <= rows - 2)%Z ->
  generate_end_on_border rows cols (sr, 0%Z) ds = Ret (e, ds') ->
  exists c,
    (e = (0%Z, c) /\ (1 <= c <= cols - 2)%Z) \/
    (e = ((rows - 1)%Z, c) /\ (1 <= c <= cols - 2)%Z) \/
    (e = (c, (cols - 1)%Z) /\ (1 <= c <= rows - 2)%Z /\ cols <> 1%Z).
Proof.
  intros ds e ds' Hsr. revert e ds'.
  induction ds as [|d ds IH]; intros e ds'; [discriminate|].
  cbn [generate_end_on_border fst snd].
  assert (Hside : d mod 4 < 4) by (apply Nat.mod_upper_bound; lia).
  destruct (d mod 4) as [|[|[|[|k]]]] eqn:Ed; [| | | |exfalso; lia]; cbn [nth].
  - replace (sr =? 0)%Z with false by (symmetry; apply Z.eqb_neq; lia). cbn [negb].
    unfold rbind, rret.
    destruct (randint 1 (cols - 2) ds) as [[c ds0]|x|] eqn:E; try discriminate.
    intros [= <- <-]. apply randint_range in E. exists c. left. auto.
  - replace (sr =? rows - 1)%Z with false by (symmetry; apply Z.eqb_neq; lia).
    cbn [negb]. unfold rbind, rret.
    destruct (randint 1 (cols - 2) ds) as [[c ds0]|x|] eqn:E; try discriminate.
    intros [= <- <-]. apply randint_range in E. exists c. right. left. auto.
  - cbn [negb Z.eqb]. apply IH.
  - destruct (Z.eqb_spec 0 (cols - 1)) as [Hc|Hc]; cbn [negb]; [apply IH|].
    unfold rbind, rret.
    destruct (randint 1 (rows - 2) ds) as [[c ds0]|x|] eqn:E; try discriminate.
    intros [= <- <-]. apply randint_range in E. exists c. right. right.
    repeat split; auto; lia.
Qed.

(** X2. The point that [generate_end_on_border] returns for a start point
    of [generate_start_on_border] is never in the column of the start (the
    left side) and never a corner: it is on the top or the bottom row at a
    column of [1 .. cols - 2], or in the last column at a row of
    [1 .. rows - 2]. *)
Theorem end_on_border_other_side (rows cols : Z) (ds0 ds1 : list nat)
    (start : Z * Z) (ds : list nat) (e : Z * Z) (ds' : list nat) :
  generate_start_on_border rows cols ds0 = Ret (start, ds1) ->
  generate_end_on_border rows cols start ds = Ret (e, ds') ->
  snd e <> snd start /\
  (((fst e = 0 \/ fst e = rows - 1) /\ 1 <= snd e <= cols - 2) \/
   (snd e = cols - 1 /\ 1 <= fst e <= rows - 2))%Z.
Proof.
  intros Hstart Hend. apply start_on_border_shape in Hstart.
  destruct start as [sr sc]. cbn [fst snd] in *. destruct Hstart as [Hsr ->].
  destruct (end_on_border_sides rows cols sr ds e ds' Hsr Hend)
    as (c & [[-> Hc]|[[-> Hc]|[-> [Hc Hne]]]]); cbn [fst snd]; split; lia.
Qed.

Lemma end_on_border_other_side_witness :
  snd (1, 4)%Z <> snd (2, 0)%Z /\
  (((fst (1, 4) = 0 \/ fst (1, 4) = 5 - 1) /\ 1 <= snd (1, 4) <= 5 - 2) \/
   (snd (1, 4) = 5 - 1 /\ 1 <= fst (1, 4) <= 5 - 2))%Z.
Proof.
  exact (end_on_border_other_side 5 5 [1] [] (2, 0)%Z [2; 3; 0] (1, 4)%Z []
           eq_refl eq_refl).
Defined.

(** X3. In a grid of three columns or more the start point and the end
    point are neither the same cell nor next to each other: they are two
    steps or more apart, so that a path between them has a cell strictly
    between its ends. *)
Theorem border_points_apart (rows cols : Z) (ds0 ds1 : list nat)
    (start : Z * Z) (ds : list nat) (e : Z * Z) (ds' : list nat) :
  (3 <= cols)%Z ->
  generate_start_on_border rows cols ds0 = Ret (start, ds1) ->
  generate_end_on_border rows cols start ds = Ret (e, ds') ->
  (2 <= Z.abs (fst e - fst start) + Z.abs (snd e - snd start))%Z.
Proof.
  intros Hcols Hstart Hend. apply start_on_border_shape in Hstart.
  destruct start as [sr sc]. cbn [fst snd] in *. destruct Hstart as [Hsr ->].
  destruct (end_on_border_sides rows cols sr ds e ds' Hsr Hend)
    as (c & [[-> Hc]|[[-> Hc]|[-> [Hc Hne]]]]); cbn [fst snd]; lia.
Qed.

Lemma border_points_apart_witness :
  (2 <= Z.abs (fst (1, 4) - fst (2, 0)) + Z.abs (snd (1, 4) - snd (2, 0)))%Z.
Proof.
  exact (border_points_apart 5 5 [1] [] (2, 0)%Z [2; 3; 0] (1, 4)%Z []
           ltac:(lia) eq_refl eq_refl).
Defined.

(** X4. In a grid of fewer than three columns the call can raise: when the
    side drawn is the top or the bottom and the start is not on it,
    [randint(1, cols - 2)] has an empty range and [ValueError] comes out of
    [generate_end_on_border]. *)
Theorem end_on_border_narrow_raises (rows cols : Z) (start : Z * Z) (d : nat)
    (ds : list nat) :
  (cols < 3)%Z ->
  (d mod 4 = 0 /\ fst start <> 0%Z) \/ (d mod 4 = 1 /\ fst start <> (rows - 1)%Z) ->
  generate_end_on_border rows cols start (d :: ds) = Raise ValueError.
Proof.
  intros Hcols [[Hd Hs]|[Hd Hs]]; cbn [generate_end_on_border]; rewrite Hd; cbn [nth].
  - apply Z.eqb_neq in Hs. rewrite Hs. cbn [negb]. unfold rbind, randint.
    destruct (Z.ltb_spec (cols - 2) 1); [reflexivity|lia].
  - apply Z.eqb_neq in Hs. rewrite Hs. cbn [negb]. unfold rbind, randint.
    destruct (Z.ltb_spec (cols - 2) 1); [reflexivity|lia].
Qed.

Lemma end_on_border_narrow_raises_witness :
  generate_end_on_border 5 2 (2, 0)%Z [0; 7] = Raise ValueError.
Proof.
  apply (end_on_border_narrow_raises 5 2 (2, 0)%Z 0 [7]); [lia|].
  left. split; [reflexivity|discriminate].
Defined.

(** ** The heuristic *)

(** X5. The estimate of [heuristic] depends only on the difference of
    [row + col] between the node and the end point: it is the square root of
    twice that difference, and so it is zero on the whole anti-diagonal of
    the end point, not only at the end point. *)
Theorem heuristic_antidiagonal (node e : coord) :
  heuristic node e
  = fsqrt (2 * Z.abs_nat (Z.of_nat (fst node + snd node) - Z.of_nat (fst e + snd e))) /\
  (heuristic node e = fsqrt 0 <-> fst node + snd node = fst e + snd e).
Proof.
  unfold heuristic, fsqrt. destruct node as [r c], e as [er ec]. cbn [fst snd].
  split.
  - f_equal. lia.
  - split.
    + intros [= H]. lia.
    + intros H. f_equal. lia.
Qed.

(** X6. The estimate is not a lower bound of the number of steps left: at
    every cell next to the end point in the grid it is [sqrt 2], more than
    the one step that remains. *)
Theorem heuristic_overestimates (node e : coord) :
  (fst node = fst e /\ (snd node = snd e + 1 \/ snd e = snd node + 1)) \/
  (snd node = snd e /\ (fst node = fst e + 1 \/ fst e = fst node + 1)) ->
  heuristic node e = fsqrt 2 /\ fval_ltb (FVal 1 0) (heuristic node e) = true.
Proof.
  intros H.
  assert (Hh : heuristic node e = fsqrt 2).
  { unfold heuristic, fsqrt. destruct node as [r c], e as [er ec].
    cbn [fst snd] in *. f_equal. lia. }
  rewrite Hh. split; reflexivity.
Qed.

Lemma heuristic_overestimates_witness :
  heuristic (3, 4) (3, 5) = fsqrt 2 /\
  fval_ltb (FVal 1 0) (heuristic (3, 4) (3, 5)) = true.
Proof.
  apply (heuristic_overestimates (3, 4) (3, 5)). left. split; [reflexivity|].
  right. reflexivity.
Defined.


(** * The maze that [astar] leaves *)

Section Field.
Variables (rows cols : nat) (maze : Maze) (start e : coord).
Hypothesis Hwf : wf_maze rows cols maze.
Hypothesis Hstart : is_Some (node_at maze start).

(** The search ends, with the invariant and the shortest distances. *)
Lemma searched_best :
  exists maze1, searched maze start e = Some maze1 /\ best_inv maze start e maze1 [].
Proof.
  destruct (searched_total rows cols maze start e Hwf Hstart) as (maze1 & Hrun & _).
  exists maze1. split; [exact Hrun|].
  eapply (search_loop_best rows cols maze start e Hwf Hstart); [|exact Hrun].
  apply best_init. exact Hstart.
Qed.

Section Left.
Variable maze1 : Maze.
Hypothesis Hbest : best_inv maze start e maze1 [].

Lemma left_inv : search_inv maze start e None maze1 [].
Proof. apply Hbest. Qed.

Lemma start_visited : visited_of maze1 start = true.
Proof.
  destruct (inv_start _ _ _ _ _ _ left_inv) as [H|(x & [] & _)]. exact H.
Qed.

(** The search has gone everywhere a walk goes. *)
Lemma walk_visited k v : walk maze start k v -> visited_of maze1 v = true.
Proof.
  induction 1 as [|k u v Hw IH Hin Hen]; [apply start_visited|].
  destruct (visited_of maze1 v) eqn:Hv; [reflexivity|].
  destruct (inv_visited _ _ _ _ _ _ left_inv u IH) as (gu & Hdu & _).
  destruct (inv_expanded _ _ _ _ _ _ left_inv u gu v IH Hdu Hin Hen Hv I)
    as (gv & Hdv & _).
  destruct (inv_open _ _ _ _ _ _ left_inv v gv Hv Hdv) as (x & [] & _).
Qed.

Lemma visited_shortest v :
  visited_of maze1 v = true ->
  exists g, distance_of maze1 v = Finite g /\ walk maze start g v /\
            forall k, walk maze start k v -> g <= k.
Proof.
  intros Hv. destruct (inv_visited _ _ _ _ _ _ left_inv v Hv) as (g & Hd & _).
  exists g. split; [exact Hd|]. split.
  - eapply visited_walk; [apply left_inv|exact Hv|exact Hd].
  - intros k Hw. destruct Hbest as (_ & _ & Hopt). eapply Hopt; eauto.
Qed.

Lemma field_visited v : visited_of maze1 v = true <-> exists k, walk maze start k v.
Proof.
  split.
  - intros Hv. destruct (visited_shortest v Hv) as (g & _ & Hw & _). eauto.
  - intros [k Hw]. eapply walk_visited; eauto.
Qed.

Lemma field_distance v g :
  distance_of maze1 v = Finite g <->
  walk maze start g v /\ forall k, walk maze start k v -> g <= k.
Proof.
  split.
  - intros Hd. pose proof (labelled_visited maze start e maze1 left_inv v g Hd) as Hv.
    destruct (visited_shortest v Hv) as (g' & Hd' & Hw & Hmin).
    rewrite Hd in Hd'. injection Hd' as <-. auto.
  - intros [Hw Hmin]. pose proof (walk_visited g v Hw) as Hv.
    destruct (visited_shortest v Hv) as (g' & Hd' & Hw' & Hmin').
    rewrite Hd'. f_equal. pose proof (Hmin g' Hw'). pose proof (Hmin' g Hw). lia.
Qed.

Lemma start_distance : distance_of maze1 start = Finite 0.
Proof.
  apply field_distance. split; [constructor|]. intros k _. lia.
Qed.

(** ** The distances along the descent *)

Hypothesis Hfree : enemy_of maze start = false.

Lemma left_enemy p : enemy_of maze1 p = enemy_of maze p.
Proof. apply same_enemy, left_inv. Qed.

Lemma left_neighbors p : neighbors maze1 p = neighbors maze p.
Proof. apply same_neighbors, left_inv. Qed.

(** A step of the descent goes to a node of distance one less. *)
Lemma descent_step_down cur next g :
  cur <> start -> distance_of maze1 cur = Finite g ->
  min_by_distance maze1 (valid_neighbors maze1 cur) = Some next ->
  exists g', g = S g' /\ distance_of maze1 next = Finite g'.
Proof.
  intros Hne Hd Hmin.
  pose proof (labelled_visited maze start e maze1 left_inv cur g Hd) as Hv.
  destruct (inv_visited _ _ _ _ _ _ left_inv cur Hv) as (g0 & Hd0 & Hr & _).
  rewrite Hd in Hd0. injection Hd0 as <-.
  destruct Hr as [[-> _]|(Hen & u & gu & Hu & Hdu & -> & Hin)]; [congruence|].
  exists gu. split; [lia|].
  destruct (min_by_distance_spec _ _ _ Hmin) as [Hnext Hleast].
  assert (Hvalid : In u (valid_neighbors maze1 cur)).
  { apply valid_neighbors_spec. rewrite left_neighbors, left_enemy.
    split; [eapply neighbors_mutual; eauto|].
    eapply (visited_free maze start e maze1 left_inv Hfree); eauto. }
  specialize (Hleast u Hvalid). rewrite Hdu in Hleast.
  destruct (distance_of maze1 next) as [gn|] eqn:Hdn; [|discriminate].
  simpl in Hleast. apply Nat.ltb_ge in Hleast. f_equal.
  apply valid_neighbors_spec in Hnext. rewrite left_neighbors, left_enemy in Hnext.
  destruct Hnext as [Hnb Hnfree].
  apply field_distance in Hdn. destruct Hdn as [Hwn _].
  apply field_distance in Hd. destruct Hd as [_ Hmin'].
  assert (Hw : walk maze start (S gn) cur).
  { econstructor; [exact Hwn|eapply neighbors_mutual; eauto|exact Hen]. }
  specialize (Hmin' _ Hw). lia.
Qed.

Lemma descent_distances cur l :
  descent maze1 start cur l ->
  forall g, distance_of maze1 cur = Finite g ->
  length l = g + 1 /\
  forall j c, l !! j = Some c -> distance_of maze1 c = Finite (g - j).
Proof.
  induction 1 as [|cur next l Hne Hmin Hd IH]; intros g Hg.
  - rewrite start_distance in Hg. injection Hg as <-. split; [reflexivity|].
    intros [|j] c Hc; [|discriminate]. injection Hc as <-. apply start_distance.
  - destruct (descent_step_down cur next g Hne Hg Hmin) as (g' & -> & Hg').
    destruct (IH g' Hg') as [Hlen Hall]. split; [simpl; lia|].
    intros [|j] c Hc.
    + injection Hc as <-. exact Hg.
    + apply (Hall j c) in Hc. exact Hc.
Qed.

End Left.

End Field.

(** The maze that a call of [astar] with its end points in the maze leaves is
    the maze that its search loop leaves. *)
Lemma astar_leaves (maze maze1 : Maze) start e :
  is_Some (node_at maze start) -> is_Some (node_at maze e) ->
  searched maze start e = Some maze1 -> fst (astar maze start e) = maze1.
Proof.
  intros Hs He Hrun. rewrite (astar_searched maze start e Hs He), Hrun.
  destruct (distance_of maze1 e); reflexivity.
Qed.

Lemma ptr_reset sel (m : Maze) p :
  (forall n, sel (reset_node n) = sel n) -> ptr sel (reset_maze m) p = ptr sel m p.
Proof.
  intros Hsel. unfold ptr. rewrite node_at_reset.
  destruct (node_at m p); simpl; auto.
Qed.

Lemma same_ptr sel (m1 m2 : Maze) p :
  (forall n, sel (reset_node n) = sel n) ->
  reset_maze m1 = reset_maze m2 -> ptr sel m1 p = ptr sel m2 p.
Proof.
  intros Hsel H. rewrite <- (ptr_reset sel m1), <- (ptr_reset sel m2), H; auto.
Qed.

Lemma same_shape rows cols (m1 m2 : Maze) :
  reset_maze m1 = reset_maze m2 -> shape rows cols m2 -> shape rows cols m1.
Proof.
  intros H [Hr Hc]. split.
  - rewrite <- Hr. unfold reset_maze in H.
    apply (f_equal length) in H. rewrite !length_fmap in H. exact H.
  - intros r row Hrow.
    assert (H1 : reset_maze m1 !! r = Some (reset_node <$> row)).
    { unfold reset_maze. rewrite list_lookup_fmap, Hrow. reflexivity. }
    rewrite H in H1. unfold reset_maze in H1. rewrite list_lookup_fmap in H1.
    destruct (m2 !! r) as [row2|] eqn:E; [|discriminate]. simpl in H1.
    injection H1 as H1. apply (f_equal length) in H1. rewrite !length_fmap in H1.
    rewrite <- H1. eapply Hc; eauto.
Qed.

(** Being a grid is a matter of the cells and the pointers only. *)
Lemma same_wf rows cols (m1 m2 : Maze) :
  reset_maze m1 = reset_maze m2 -> wf_maze rows cols m2 -> wf_maze rows cols m1.
Proof.
  intros H Hwf.
  destruct (same_shape rows cols m1 m2 H (wf_maze_shape _ _ _ Hwf)) as [Hr Hc].
  assert (Hl : forall p, ptr left m1 p = ptr left m2 p)
    by (intros p; apply same_ptr; [destruct n; reflexivity|exact H]).
  assert (Hri : forall p, ptr right m1 p = ptr right m2 p)
    by (intros p; apply same_ptr; [destruct n; reflexivity|exact H]).
  assert (Hu : forall p, ptr up m1 p = ptr up m2 p)
    by (intros p; apply same_ptr; [destruct n; reflexivity|exact H]).
  assert (Hd : forall p, ptr down m1 p = ptr down m2 p)
    by (intros p; apply same_ptr; [destruct n; reflexivity|exact H]).
  constructor; [exact Hr|exact Hc| | | | | |].
  - intros p q. rewrite Hl. apply (wf_left _ _ _ Hwf).
  - intros p q. rewrite Hri. apply (wf_right _ _ _ Hwf).
  - intros p q. rewrite Hu. apply (wf_up _ _ _ Hwf).
  - intros p q. rewrite Hd. apply (wf_down _ _ _ Hwf).
  - intros p q. rewrite Hri, Hl. apply (wf_left_right _ _ _ Hwf).
  - intros p q. rewrite Hd, Hu. apply (wf_up_down _ _ _ Hwf).
Qed.

Lemma count_enemies_reset (m : Maze) : count_enemies (reset_maze m) = count_enemies m.
Proof.
  unfold count_enemies, reset_maze. induction m as [|row m IH]; [reflexivity|].
  rewrite fmap_cons. cbn [concat]. rewrite !filter_app, !length_app, IH. f_equal.
  clear IH. induction row as [|n row IH]; [reflexivity|].
  rewrite fmap_cons. destruct (is_enemy n) eqn:E.
  - rewrite !filter_cons_True by (try exact E; destruct n; exact E).
    simpl. rewrite IH. reflexivity.
  - rewrite !filter_cons_False by (try congruence; destruct n; simpl in *; congruence).
    exact IH.
Qed.

(** X7. [astar] writes only [distance] and [visited]: whatever its outcome,
    the maze it leaves has the same cells, the same pointers and the same
    obstacle flags, as many obstacle cells, and is a grid if the maze was
    one. *)
Theorem astar_keeps_layout (maze : Maze) (start e : coord) :
  (forall p, is_Some (node_at (fst (astar maze start e)) p) <-> is_Some (node_at maze p)) /\
  (forall p, neighbors (fst (astar maze start e)) p = neighbors maze p) /\
  (forall p, enemy_of (fst (astar maze start e)) p = enemy_of maze p) /\
  count_enemies (fst (astar maze start e)) = count_enemies maze /\
  (forall rows cols, wf_maze rows cols maze ->
                     wf_maze rows cols (fst (astar maze start e))).
Proof.
  pose proof (astar_frame maze start e) as H.
  split; [intros p; apply same_cells, H|]. split; [intros p; apply same_neighbors, H|].
  split; [intros p; apply same_enemy, H|]. split.
  - rewrite <- (count_enemies_reset (fst (astar maze start e))), H.
    apply count_enemies_reset.
  - intros rows cols. apply same_wf, H.
Qed.

(** X8. The search does not stop at the end point: in a grid, a call of
    [astar] with its end points in the maze leaves the whole field of
    distances from the start.  A node is visited exactly when a walk over
    pointers, stepping only onto free cells, leads to it from the start; its
    distance is then the number of steps of a shortest such walk, and the
    distance of every other node is infinite. *)
Theorem astar_distance_field (rows cols : nat) (maze : Maze) (start e : coord)
    (v : coord) :
  wf_maze rows cols maze ->
  is_Some (node_at maze start) -> is_Some (node_at maze e) ->
  (visited_of (fst (astar maze start e)) v = true <-> exists k, walk maze start k v) /\
  (forall g, distance_of (fst (astar maze start e)) v = Finite g <->
             walk maze start g v /\ forall k, walk maze start k v -> g <= k) /\
  (distance_of (fst (astar maze start e)) v = Infinity <->
   forall k, ~ walk maze start k v).
Proof.
  intros Hwf Hs He.
  destruct (searched_best rows cols maze start e Hwf Hs) as (maze1 & Hrun & Hbest).
  rewrite (astar_leaves maze maze1 start e Hs He Hrun).
  split; [apply (field_visited maze start e maze1 Hbest)|].
  split; [intros g; apply (field_distance maze start e maze1 Hbest)|].
  split.
  - intros Hinf k Hw.
    pose proof (walk_visited maze start e maze1 Hbest k v Hw) as Hv.
    destruct (visited_shortest maze start e maze1 Hbest v Hv)
      as (g & Hd & _). congruence.
  - intros Hno. destruct (distance_of maze1 v) as [g|] eqn:Hd; [|reflexivity].
    apply (field_distance maze start e maze1 Hbest) in Hd.
    destruct Hd as [Hw _]. destruct (Hno g Hw).
Qed.

Lemma astar_distance_field_witness :
  (visited_of (fst (astar corner_maze (1, 0) (0, 1))) (1, 1) = true <->
   exists k, walk corner_maze (1, 0) k (1, 1)) /\
  (forall g, distance_of (fst (astar corner_maze (1, 0) (0, 1))) (1, 1) = Finite g <->
             walk corner_maze (1, 0) g (1, 1) /\
             forall k, walk corner_maze (1, 0) k (1, 1) -> g <= k) /\
  (distance_of (fst (astar corner_maze (1, 0) (0, 1))) (1, 1) = Infinity <->
   forall k, ~ walk corner_maze (1, 0) k (1, 1)).
Proof.
  apply (astar_distance_field 2 2 corner_maze (1, 0) (0, 1) (1, 1)).
  - apply (generate_random_maze_wf 2 2 0 [0; 0; 1; 1] corner_maze []). reflexivity.
  - eexists. reflexivity.
  - eexists. reflexivity.
Defined.

(** X9. A call whose end point is its start point returns the path of that
    one cell, in every grid and whatever the obstacle flags are. *)
Theorem astar_same_cell (rows cols : nat) (maze : Maze) (start : coord) :
  wf_maze rows cols maze -> is_Some (node_at maze start) ->
  snd (astar maze start start) = Ret (Some [start]).
Proof.
  intros Hwf Hs.
  destruct (searched_best rows cols maze start start Hwf Hs) as (maze1 & Hrun & Hbest).
  rewrite (astar_searched maze start start Hs Hs), Hrun.
  rewrite (start_distance maze start start maze1 Hbest).
  cbn [snd]. unfold descent_fuel. rewrite Nat.add_1_r. cbn [reconstruct].
  rewrite coord_eqb_refl. reflexivity.
Qed.

Lemma astar_same_cell_witness :
  snd (astar blocked_corner_maze (0, 0) (0, 0)) = Ret (Some [(0, 0)]).
Proof.
  apply (astar_same_cell 2 2 blocked_corner_maze (0, 0)).
  - apply (generate_random_maze_wf 2 2 1 [0; 0; 1; 1; 0; 0] blocked_corner_maze []).
    reflexivity.
  - eexists. reflexivity.
Defined.

(** In a grid with a free start a call returns a route or [None]. *)
Lemma astar_total (rows cols : nat) (maze : Maze) (start e : coord) :
  wf_maze rows cols maze ->
  is_Some (node_at maze start) -> is_Some (node_at maze e) ->
  enemy_of maze start = false ->
  (exists path, snd (astar maze start e) = Ret (Some path) /\
                route maze start e path) \/
  (snd (astar maze start e) = Ret None /\ forall r, ~ route maze start e r).
Proof.
  intros Hwf Hs He Hfree.
  destruct (searched_best rows cols maze start e Hwf Hs) as (maze1 & Hrun & Hbest).
  pose proof (left_inv maze start e maze1 Hbest) as Hinv.
  destruct (distance_of maze1 e) as [g|] eqn:Hd.
  - left.
    destruct (astar_descends rows cols maze maze1 start e g Hwf Hs He Hfree Hrun Hinv Hd)
      as (path & _ & _ & _ & _ & Hret).
    exists path. split; [exact Hret|]. eapply returned_path_route; eauto.
  - right. split.
    + rewrite (astar_searched maze start e Hs He), Hrun, Hd. reflexivity.
    + intros r Hr. apply route_walk in Hr.
      pose proof (walk_visited maze start e maze1 Hbest _ e Hr) as Hv.
      destruct (visited_shortest maze start e maze1 Hbest e Hv)
        as (g & Hd' & _). congruence.
Qed.

(** X10. In a grid, with the end points in the maze and a start that is no
    obstacle cell, [astar] always returns, and it returns [None] exactly when
    no obstacle-free route joins the start to the end point; otherwise it
    returns such a route. *)
Theorem astar_decides_reachability (rows cols : nat) (maze : Maze)
    (start e : coord) :
  wf_maze rows cols maze ->
  is_Some (node_at maze start) -> is_Some (node_at maze e) ->
  enemy_of maze start = false ->
  (exists path, snd (astar maze start e) = Ret (Some path) /\
                route maze start e path) \/
  (snd (astar maze start e) = Ret None /\ forall r, ~ route maze start e r).
Proof. apply astar_total. Qed.

Lemma astar_decides_reachability_witness :
  (exists path, snd (astar corner_maze (1, 0) (1, 1)) = Ret (Some path) /\
                route corner_maze (1, 0) (1, 1) path) \/
  (snd (astar corner_maze (1, 0) (1, 1)) = Ret None /\
   forall r, ~ route corner_maze (1, 0) (1, 1) r).
Proof.
  apply (astar_decides_reachability 2 2 corner_maze (1, 0) (1, 1)).
  - apply (generate_random_maze_wf 2 2 0 [0; 0; 1; 1] corner_maze []). reflexivity.
  - eexists. reflexivity.
  - eexists. reflexivity.
  - reflexivity.
Defined.

(** The cells of a returned path carry the distances 0, 1, 2, ... *)
Lemma returned_path_distances (rows cols : nat) (maze : Maze) (start e : coord)
    (path : list coord) :
  wf_maze rows cols maze ->
  is_Some (node_at maze start) -> is_Some (node_at maze e) ->
  enemy_of maze start = false ->
  snd (astar maze start e) = Ret (Some path) ->
  exists g, distance_of (fst (astar maze start e)) e = Finite g /\
            length path = g + 1 /\
            forall i c, path !! i = Some c ->
                        distance_of (fst (astar maze start e)) c = Finite i.
Proof.
  intros Hwf Hs He Hfree Hret.
  destruct (astar_returns_path maze start e path Hret) as (maze1 & l & Hrun & Hfin & Hl & ->).
  destruct (searched_best rows cols maze start e Hwf Hs) as (maze1' & Hrun' & Hbest).
  rewrite Hrun in Hrun'. injection Hrun' as <-.
  rewrite (astar_leaves maze maze1 start e Hs He Hrun).
  destruct (distance_of maze1 e) as [g|] eqn:Hd; [|congruence].
  destruct (descent_distances rows cols maze start e Hwf maze1 Hbest Hfree e l Hl g Hd)
    as [Hlen Hall].
  exists g. split; [reflexivity|]. rewrite length_rev. split; [exact Hlen|].
  intros i c Hc.
  assert (Hrev : rev l = reverse l) by (unfold reverse; apply rev_alt).
  rewrite Hrev in Hc. pose proof (lookup_lt_Some _ _ _ Hc) as Hi.
  rewrite length_reverse in Hi. rewrite reverse_lookup in Hc by exact Hi.
  apply Hall in Hc. rewrite Hc. f_equal. lia.
Qed.

(** X11. In a grid, with a start that is no obstacle cell, the cell at the
    index [i] of a returned path has the distance [i] in the maze the call
    leaves: the path has one coordinate more than the distance of the end
    point, and no cell occurs twice on it. *)
Theorem astar_path_distances (rows cols : nat) (maze : Maze) (start e : coord)
    (path : list coord) :
  wf_maze rows cols maze ->
  is_Some (node_at maze start) -> is_Some (node_at maze e) ->
  enemy_of maze start = false ->
  snd (astar maze start e) = Ret (Some path) ->
  (forall i c, path !! i = Some c ->
               distance_of (fst (astar maze start e)) c = Finite i) /\
  distance_of (fst (astar maze start e)) e = Finite (length path - 1) /\
  NoDup path.
Proof.
  intros Hwf Hs He Hfree Hret.
  destruct (returned_path_distances rows cols maze start e path Hwf Hs He Hfree Hret)
    as (g & Hd & Hlen & Hall).
  split; [exact Hall|]. split.
  - rewrite Hd. f_equal. lia.
  - apply NoDup_alt. intros i j c Hi Hj.
    apply Hall in Hi. apply Hall in Hj. congruence.
Qed.

Lemma astar_path_distances_witness :
  (forall i c, [(1, 0); (0, 0); (0, 1)] !! i = Some c ->
               distance_of (fst (astar corner_maze (1, 0) (0, 1))) c = Finite i) /\
  distance_of (fst (astar corner_maze (1, 0) (0, 1))) (0, 1)
    = Finite (length [(1, 0); (0, 0); (0, 1)] - 1) /\
  NoDup [(1, 0); (0, 0); (0, 1)].
Proof.
  apply (astar_path_distances 2 2 corner_maze (1, 0) (0, 1) [(1, 0); (0, 0); (0, 1)]).
  - apply (generate_random_maze_wf 2 2 0 [0; 0; 1; 1] corner_maze []). reflexivity.
  - eexists. reflexivity.
  - eexists. reflexivity.
  - reflexivity.
  - reflexivity.
Defined.

(** ** Calls that return no path *)

(** X26. A call of [astar] with a start point or an end point outside the
    maze raises [IndexError], and only after the reset: the maze it leaves
    has no visited node and no finite distance, the result of an earlier
    search is lost. *)
Theorem astar_out_of_range (maze : Maze) (start e : coord) :
  node_at maze start = None \/ node_at maze e = None ->
  snd (astar maze start e) = Raise IndexError /\
  forall p, visited_of (fst (astar maze start e)) p = false /\
            distance_of (fst (astar maze start e)) p = Infinity.
Proof.
  intros H.
  assert (Ha : astar maze start e = (reset_maze maze, Raise IndexError)).
  { unfold astar. rewrite !node_at_reset.
    destruct H as [-> | ->]; [reflexivity|].
    destruct (node_at maze start); reflexivity. }
  rewrite Ha. split; [reflexivity|]. intros p. cbn [fst].
  split; [apply visited_of_reset|apply distance_of_reset].
Qed.

Lemma astar_out_of_range_witness :
  snd (astar corner_maze (0, 0) (2, 0)) = Raise IndexError /\
  forall p, visited_of (fst (astar corner_maze (0, 0) (2, 0))) p = false /\
            distance_of (fst (astar corner_maze (0, 0) (2, 0))) p = Infinity.
Proof.
  apply (astar_out_of_range corner_maze (0, 0) (2, 0)). right. reflexivity.
Defined.

(** X27. In a grid, a call whose end point is an obstacle cell other than
    the start returns [None], whether the start is free or not: the search
    never gives an obstacle cell a distance. *)
Theorem astar_blocked_end (rows cols : nat) (maze : Maze) (start e : coord) :
  wf_maze rows cols maze ->
  is_Some (node_at maze start) -> is_Some (node_at maze e) ->
  enemy_of maze e = true -> e <> start ->
  snd (astar maze start e) = Ret None.
Proof.
  intros Hwf Hs He Hen Hne.
  destruct (searched_best rows cols maze start e Hwf Hs) as (maze1 & Hrun & Hbest).
  rewrite (astar_searched maze start e Hs He), Hrun.
  destruct (distance_of maze1 e) as [g|] eqn:Hd; [|reflexivity].
  apply (field_distance maze start e maze1 Hbest) in Hd. destruct Hd as [Hw _].
  inversion Hw; subst; congruence.
Qed.

Lemma astar_blocked_end_witness :
  snd (astar blocked_corner_maze (1, 0) (0, 0)) = Ret None.
Proof.
  apply (astar_blocked_end 2 2 blocked_corner_maze (1, 0) (0, 0)).
  - apply (generate_random_maze_wf 2 2 1 [0; 0; 1; 1; 0; 0] blocked_corner_maze []).
    reflexivity.
  - eexists. reflexivity.
  - eexists. reflexivity.
  - reflexivity.
  - discriminate.
Defined.

(** X28. In any maze, a call whose start point is an obstacle cell and whose
    end point is another cell never returns a path: the descent steps only
    onto free cells and cannot arrive at the start. *)
Theorem astar_blocked_start (maze : Maze) (start e : coord) (path : list coord) :
  enemy_of maze start = true -> e <> start ->
  snd (astar maze start e) <> Ret (Some path).
Proof.
  intros Hen Hne Hret.
  destruct (astar_returns_path maze start e path Hret) as (maze1 & l & Hrun & _ & Hl & _).
  destruct (searched_clear maze maze1 start e Hrun) as [Hframe _].
  pose proof (descent_head _ _ _ _ Hl) as Hhead.
  pose proof (descent_last _ _ _ _ Hl) as Hlast.
  pose proof (descent_links _ _ _ _ Hl) as Hlinks.
  rewrite last_lookup in Hlast.
  destruct l as [|a l]; [discriminate|]. cbn in Hhead. injection Hhead as ->.
  destruct l as [|b l]; [cbn in Hlast; congruence|].
  cbn [length Nat.pred] in Hlast.
  destruct (lookup_lt_is_Some_2 (e :: b :: l) (length l)) as [c Hc]; [simpl; lia|].
  destruct (Hlinks (length l) c start Hc Hlast) as [_ Hfree].
  rewrite (same_enemy maze1 maze start Hframe) in Hfree. congruence.
Qed.

Lemma astar_blocked_start_witness :
  snd (astar corridor_maze (1, 0) (1, 2)) <> Ret (Some [(1, 0); (1, 1); (1, 2)]).
Proof.
  apply (astar_blocked_start corridor_maze (1, 0) (1, 2)); [reflexivity|discriminate].
Defined.


(** * More on add_enemies_along_path *)

(** Marking a free cell of the maze adds one obstacle cell. *)
Lemma count_enemies_mark_free p nd (maze : Maze) :
  node_at maze p = Some nd -> is_enemy nd = false ->
  count_enemies (upd_node (set_is_enemy true) p maze) = S (count_enemies maze).
Proof.
  intros Hnd Hfree. pose proof (count_if_upd is_enemy (set_is_enemy true) p maze) as H.
  rewrite Hnd, Hfree in H. cbn in H.
  change (count_if is_enemy (upd_node (set_is_enemy true) p maze))
    with (count_enemies (upd_node (set_is_enemy true) p maze)) in H.
  change (count_if is_enemy maze) with (count_enemies maze) in H. lia.
Qed.

Lemma add_enemies_loop_exact n : forall (maze : Maze) path added ds maze' added' ds',
  add_enemies_loop n maze path added ds = (maze', Ret (added', ds')) ->
  count_enemies maze' + added = count_enemies maze + added'.
Proof.
  induction n as [|n IH]; intros maze path added ds maze' added' ds' H.
  - cbn in H. inversion H. reflexivity.
  - cbn [add_enemies_loop] in H.
    destruct (randint 1 (Z.of_nat (length path) - 2) ds) as [[i ds0]|x|];
      [|discriminate|discriminate].
    destruct (path !! Z.to_nat i) as [q|]; [|discriminate].
    destruct (node_at maze q) as [nd|] eqn:Hnd; [|discriminate].
    destruct (is_enemy nd) eqn:Hen; cbn [negb] in H; apply IH in H.
    + exact H.
    + rewrite (count_enemies_mark_free q nd maze Hnd Hen) in H. lia.
Qed.

(** A mark clears no flag. *)
Lemma enemy_of_mark_mono p q (maze : Maze) :
  enemy_of maze q = true -> enemy_of (upd_node (set_is_enemy true) p maze) q = true.
Proof.
  intros Hq. destruct (decide (p = q)) as [->|Hne].
  - apply enemy_of_set_eq. unfold enemy_of in Hq.
    destruct (node_at maze q); [eexists; reflexivity|discriminate].
  - rewrite enemy_of_set_ne by exact Hne. exact Hq.
Qed.

(** A mark leaves fewer free cells in a list that holds the cell marked. *)
Lemma free_cells_mark p (maze : Maze) l :
  free_cells (upd_node (set_is_enemy true) p maze) l <= free_cells maze l /\
  (In p l -> enemy_of maze p = false -> is_Some (node_at maze p) ->
   free_cells (upd_node (set_is_enemy true) p maze) l < free_cells maze l).
Proof.
  unfold free_cells. induction l as [|q l [IH1 IH2]]; [split; [reflexivity|intros []]|].
  rewrite !filter_cons.
  destruct (decide (enemy_of (upd_node (set_is_enemy true) p maze) q = false)) as [Ha|Ha];
    destruct (decide (enemy_of maze q = false)) as [Hb|Hb]; cbn [length].
  - split; [lia|]. intros [->|Hin] Hf Hs.
    + rewrite enemy_of_set_eq in Ha by exact Hs. discriminate.
    + specialize (IH2 Hin Hf Hs). lia.
  - exfalso. apply not_false_is_true in Hb.
    rewrite (enemy_of_mark_mono p q maze Hb) in Ha. discriminate.
  - split; [lia|]. intros; lia.
  - split; [exact IH1|]. intros [->|Hin] Hf Hs; [congruence|auto].
Qed.

Lemma add_enemies_loop_free n : forall (maze : Maze) path added ds maze' added' ds',
  add_enemies_loop n maze path added ds = (maze', Ret (added', ds')) ->
  added' + free_cells maze' (interior path) <= added + free_cells maze (interior path).
Proof.
  induction n as [|n IH]; intros maze path added ds maze' added' ds' H.
  - cbn in H. inversion H. reflexivity.
  - cbn [add_enemies_loop] in H.
    destruct (randint 1 (Z.of_nat (length path) - 2) ds) as [[i ds0]|x|] eqn:Hr;
      [|discriminate|discriminate].
    destruct (path !! Z.to_nat i) as [q|] eqn:Hq; [|discriminate].
    destruct (node_at maze q) as [nd|] eqn:Hnd; [|discriminate].
    destruct (is_enemy nd) eqn:Hen; cbn [negb] in H; apply IH in H; [exact H|].
    destruct (free_cells_mark q maze (interior path)) as [_ Hlt].
    assert (free_cells (upd_node (set_is_enemy true) q maze) (interior path)
            < free_cells maze (interior path)).
    { apply Hlt.
      - eapply drawn_index_interior; eauto.
      - unfold enemy_of. rewrite Hnd. exact Hen.
      - rewrite Hnd. eexists. reflexivity. }
    lia.
Qed.

Lemma interior_length (path : list coord) : length (interior path) = length path - 2.
Proof.
  unfold interior. destruct path as [|a [|b l]]; [reflexivity|reflexivity|].
  cbn [tl]. rewrite removelast_firstn_len, length_firstn. simpl. lia.
Qed.

Lemma free_cells_le (maze : Maze) l : free_cells maze l <= length l.
Proof. unfold free_cells. apply length_filter. Qed.

(** X12. The number that [add_enemies_along_path] returns is the number of
    obstacle cells it has added to the maze. *)
Theorem add_enemies_counts_marks (maze : Maze) (path : list coord)
    (num_enemies : nat) (ds : list nat) (maze' : Maze) (enemies_added : nat)
    (ds' : list nat) :
  add_enemies_along_path maze path num_enemies ds = (maze', Ret (enemies_added, ds')) ->
  count_enemies maze' = count_enemies maze + enemies_added.
Proof.
  intros H. apply add_enemies_loop_exact in H. lia.
Qed.

Lemma add_enemies_counts_marks_witness :
  count_enemies (upd_node (set_is_enemy true) (0, 0) corner_maze)
  = count_enemies corner_maze + 1.
Proof.
  exact (add_enemies_counts_marks corner_maze [(1, 0); (0, 0); (0, 1)] 2 [0; 0]
           (upd_node (set_is_enemy true) (0, 0) corner_maze) 1 [] eq_refl).
Defined.

(** X13. The number returned is at most the number of free cells between
    the two ends of the path, hence at most [len(path) - 2]: on a path of
    three coordinates a call never adds two obstacles, however many it is
    asked for. *)
Theorem add_enemies_bounded_by_interior (maze : Maze) (path : list coord)
    (num_enemies : nat) (ds : list nat) (maze' : Maze) (enemies_added : nat)
    (ds' : list nat) :
  add_enemies_along_path maze path num_enemies ds = (maze', Ret (enemies_added, ds')) ->
  enemies_added <= free_cells maze (interior path) /\
  enemies_added <= length path - 2.
Proof.
  intros H. apply add_enemies_loop_free in H.
  pose proof (free_cells_le maze (interior path)) as Hle.
  rewrite interior_length in Hle. lia.
Qed.

Lemma add_enemies_bounded_by_interior_witness :
  1 <= free_cells corner_maze (interior [(1, 0); (0, 0); (0, 1)]) /\
  1 <= length [(1, 0); (0, 0); (0, 1)] - 2.
Proof.
  exact (add_enemies_bounded_by_interior corner_maze [(1, 0); (0, 0); (0, 1)] 2 [0; 0]
           (upd_node (set_is_enemy true) (0, 0) corner_maze) 1 [] eq_refl).
Defined.

(** What the loop leaves alone. *)
Lemma add_enemies_loop_keeps n : forall (maze : Maze) path added ds p,
    neighbors (fst (add_enemies_loop n maze path added ds)) p = neighbors maze p /\
    distance_of (fst (add_enemies_loop n maze path added ds)) p = distance_of maze p /\
    visited_of (fst (add_enemies_loop n maze path added ds)) p = visited_of maze p /\
    (is_Some (node_at (fst (add_enemies_loop n maze path added ds)) p)
     <-> is_Some (node_at maze p)) /\
    (enemy_of maze p = true ->
     enemy_of (fst (add_enemies_loop n maze path added ds)) p = true).
Proof.
  induction n as [|n IH]; intros maze path added ds p.
  { cbn. repeat split; auto. }
  cbn [add_enemies_loop].
  destruct (randint 1 (Z.of_nat (length path) - 2) ds) as [[i ds0]|x|];
    [|cbn; repeat split; auto|cbn; repeat split; auto].
  destruct (path !! Z.to_nat i) as [q|]; [|cbn; repeat split; auto].
  destruct (node_at maze q) as [nd|] eqn:Hnd; [|cbn; repeat split; auto].
  destruct (negb (is_enemy nd)); [|apply IH].
  destruct (IH (upd_node (set_is_enemy true) q maze) path (added + 1) ds0 p)
    as (H1 & H2 & H3 & H4 & H5).
  rewrite H1, H2, H3, H4.
  split; [apply neighbors_upd; destruct n0; reflexivity|].
  split; [apply distance_of_upd; destruct n0; reflexivity|].
  split; [apply visited_of_upd; destruct n0; reflexivity|].
  split; [apply node_at_is_Some_upd|].
  intros Hp. apply H5, enemy_of_mark_mono, Hp.
Qed.

Lemma add_enemies_loop_wf rows cols n : forall (maze : Maze) path added ds,
  wf_maze rows cols maze ->
  wf_maze rows cols (fst (add_enemies_loop n maze path added ds)).
Proof.
  induction n as [|n IH]; intros maze path added ds Hwf; [exact Hwf|].
  cbn [add_enemies_loop].
  destruct (randint 1 (Z.of_nat (length path) - 2) ds) as [[i ds0]|x|];
    [|exact Hwf|exact Hwf].
  destruct (path !! Z.to_nat i) as [q|]; [|exact Hwf].
  destruct (node_at maze q) as [nd|]; [|exact Hwf].
  destruct (negb (is_enemy nd)); apply IH; [|exact Hwf].
  apply wf_set_is_enemy, Hwf.
Qed.

(** X14. [add_enemies_along_path] only sets obstacle flags: however the
    call ends, the maze it leaves has the same cells and pointers, the
    distances and the visited marks of the last search, and every obstacle
    cell it had; a grid stays a grid. *)
Theorem add_enemies_only_sets_flags (maze : Maze) (path : list coord)
    (num_enemies : nat) (ds : list nat) :
  (forall p,
     neighbors (fst (add_enemies_along_path maze path num_enemies ds)) p
       = neighbors maze p /\
     distance_of (fst (add_enemies_along_path maze path num_enemies ds)) p
       = distance_of maze p /\
     visited_of (fst (add_enemies_along_path maze path num_enemies ds)) p
       = visited_of maze p /\
     (is_Some (node_at (fst (add_enemies_along_path maze path num_enemies ds)) p)
      <-> is_Some (node_at maze p)) /\
     (enemy_of maze p = true ->
      enemy_of (fst (add_enemies_along_path maze path num_enemies ds)) p = true)) /\
  (forall rows cols, wf_maze rows cols maze ->
     wf_maze rows cols (fst (add_enemies_along_path maze path num_enemies ds))).
Proof.
  split.
  - intros p. apply add_enemies_loop_keeps.
  - intros rows cols. apply add_enemies_loop_wf.
Qed.

(** ** A second search after the obstacles *)

(** When the count has moved, a cell between the ends of the path is an
    obstacle. *)
Lemma add_enemies_loop_marked n : forall (maze : Maze) path added ds maze' added' ds',
  add_enemies_loop n maze path added ds = (maze', Ret (added', ds')) ->
  added < added' ->
  exists p, In p (interior path) /\ enemy_of maze' p = true.
Proof.
  induction n as [|n IH]; intros maze path added ds maze' added' ds' H Hlt.
  - cbn in H. inversion H. lia.
  - cbn [add_enemies_loop] in H.
    destruct (randint 1 (Z.of_nat (length path) - 2) ds) as [[i ds0]|x|] eqn:Hr;
      [|discriminate|discriminate].
    destruct (path !! Z.to_nat i) as [q|] eqn:Hq; [|discriminate].
    destruct (node_at maze q) as [nd|] eqn:Hnd; [|discriminate].
    destruct (is_enemy nd) eqn:Hen; cbn [negb] in H; [eapply IH; eauto|].
    exists q. split; [eapply drawn_index_interior; eauto|].
    pose proof (add_enemies_loop_keeps n (upd_node (set_is_enemy true) q maze)
                  path (added + 1) ds0 q) as (_ & _ & _ & _ & Hkeep).
    rewrite H in Hkeep. apply Hkeep, enemy_of_set_eq. rewrite Hnd. eexists. reflexivity.
Qed.

(** In a grid a returned path is no longer than any route. *)
Lemma returned_path_shortest (rows cols : nat) (maze : Maze) (start e : coord)
    (path r : list coord) :
  wf_maze rows cols maze ->
  is_Some (node_at maze start) -> is_Some (node_at maze e) ->
  enemy_of maze start = false ->
  snd (astar maze start e) = Ret (Some path) ->
  route maze start e r -> length path <= length r.
Proof.
  intros Hwf Hs He Hfree Hret Hr.
  destruct (returned_path_distances rows cols maze start e path Hwf Hs He Hfree Hret)
    as (g & Hd & Hlen & _).
  destruct (searched_best rows cols maze start e Hwf Hs) as (maze1 & Hrun & Hbest).
  rewrite (astar_leaves maze maze1 start e Hs He Hrun) in Hd.
  apply (field_distance maze start e maze1 Hbest) in Hd. destruct Hd as [_ Hmin].
  pose proof (Hmin _ (route_walk _ _ _ _ Hr)).
  destruct (route_endpoints _ _ _ _ Hr) as (_ & _ & Hpos). lia.
Qed.

Lemma replanned_path (rows cols : nat) (maze : Maze) (start e : coord)
    (path : list coord) (num_enemies : nat) (ds : list nat)
    (new_path : list coord) :
  wf_maze rows cols maze ->
  is_Some (node_at maze start) -> is_Some (node_at maze e) ->
  enemy_of maze start = false ->
  snd (astar maze start e) = Ret (Some path) ->
  snd (astar (fst (add_enemies_along_path (fst (astar maze start e)) path
                     num_enemies ds)) start e) = Ret (Some new_path) ->
  length path <= length new_path /\
  (forall c, In c new_path ->
     enemy_of (fst (add_enemies_along_path (fst (astar maze start e)) path
                      num_enemies ds)) c = false) /\
  (forall enemies_added ds',
     snd (add_enemies_along_path (fst (astar maze start e)) path num_enemies ds)
       = Ret (enemies_added, ds') ->
     0 < enemies_added -> new_path <> path).
Proof.
  intros Hwf Hs He Hfree Hret Hret2.
  set (maze1 := fst (astar maze start e)) in *.
  set (maze2 := fst (add_enemies_along_path maze1 path num_enemies ds)) in *.
  pose proof (astar_frame maze start e) as Hframe. fold maze1 in Hframe.
  assert (Hwf1 : wf_maze rows cols maze1) by (eapply same_wf; eauto).
  assert (Hwf2 : wf_maze rows cols maze2) by (apply add_enemies_loop_wf, Hwf1).
  assert (Hkeep := fun p => add_enemies_loop_keeps num_enemies maze1 path 0 ds p).
  fold (add_enemies_along_path maze1 path num_enemies ds) in Hkeep. fold maze2 in Hkeep.
  assert (Hcells : forall p, is_Some (node_at maze2 p) <-> is_Some (node_at maze p)).
  { intros p. destruct (Hkeep p) as (_ & _ & _ & H & _). rewrite H.
    apply same_cells, Hframe. }
  assert (Hnb : forall p, neighbors maze2 p = neighbors maze p).
  { intros p. destruct (Hkeep p) as (H & _). rewrite H. apply same_neighbors, Hframe. }
  assert (Hmono : forall p, enemy_of maze2 p = false -> enemy_of maze p = false).
  { intros p Hp. destruct (Hkeep p) as (_ & _ & _ & _ & H).
    rewrite <- (same_enemy maze1 maze p Hframe).
    destruct (enemy_of maze1 p); [rewrite H in Hp by reflexivity; discriminate|reflexivity]. }
  destruct (returned_path_shape maze start e path Hret) as (Hhead & _).
  destruct (returned_path_distances rows cols maze start e path Hwf Hs He Hfree Hret)
    as (g & _ & _ & Hall).
  assert (Hnd : NoDup path).
  { apply NoDup_alt. intros i j c Hi Hj. apply Hall in Hi. apply Hall in Hj. congruence. }
  assert (Hfree2 : enemy_of maze2 start = false).
  { unfold maze2, add_enemies_along_path.
    rewrite add_enemies_loop_frame by (apply head_not_interior; assumption).
    rewrite (same_enemy maze1 maze start Hframe). exact Hfree. }
  assert (Hs2 : is_Some (node_at maze2 start)) by (apply Hcells, Hs).
  pose proof (returned_path_route rows cols maze2 start e new_path Hwf2 Hs2 Hfree2 Hret2)
    as (R1 & R2 & R3 & R4).
  split; [|split].
  - apply (returned_path_shortest rows cols maze start e path new_path Hwf Hs He Hfree Hret).
    split; [exact R1|]. split; [exact R2|]. split.
    + intros c Hc. destruct (R3 c Hc) as [Hc1 Hc2]. split; [apply Hcells, Hc1|].
      apply Hmono, Hc2.
    + intros i a b Ha Hb. rewrite <- Hnb. eapply R4; eauto.
  - intros c Hc. apply R3, Hc.
  - intros k ds' Hadd Hk ->.
    assert (E : add_enemies_loop num_enemies maze1 path 0 ds = (maze2, Ret (k, ds'))).
    { rewrite <- Hadd. apply surjective_pairing. }
    destruct (add_enemies_loop_marked _ _ _ _ _ _ _ _ E Hk) as (p & Hp & Hen).
    apply interior_in in Hp. destruct (R3 p Hp) as [_ Hf]. congruence.
Qed.

(** X15. Searching again after [add_enemies_along_path] has put obstacles on
    the path of a first search: in a grid with a free start, when the second
    call of [astar] returns a path, this path avoids every obstacle, the new
    ones included, it has at least as many coordinates as the first, and it
    is another path as soon as one obstacle was added. *)
Theorem replanned_path_no_shorter (rows cols : nat) (maze : Maze) (start e : coord)
    (path : list coord) (num_enemies : nat) (ds : list nat)
    (new_path : list coord) :
  wf_maze rows cols maze ->
  is_Some (node_at maze start) -> is_Some (node_at maze e) ->
  enemy_of maze start = false ->
  snd (astar maze start e) = Ret (Some path) ->
  snd (astar (fst (add_enemies_along_path (fst (astar maze start e)) path
                     num_enemies ds)) start e) = Ret (Some new_path) ->
  length path <= length new_path /\
  (forall c, In c new_path ->
     enemy_of (fst (add_enemies_along_path (fst (astar maze start e)) path
                      num_enemies ds)) c = false) /\
  (forall enemies_added ds',
     snd (add_enemies_along_path (fst (astar maze start e)) path num_enemies ds)
       = Ret (enemies_added, ds') ->
     0 < enemies_added -> new_path <> path).
Proof. apply replanned_path. Qed.

Lemma replanned_path_no_shorter_witness :
  length [(1, 0); (1, 1); (1, 2)] <= length [(1, 0); (0, 0); (0, 1); (0, 2); (1, 2)] /\
  (forall c, In c [(1, 0); (0, 0); (0, 1); (0, 2); (1, 2)] ->
     enemy_of (fst (add_enemies_along_path (fst (astar open_maze (1, 0) (1, 2)))
                      [(1, 0); (1, 1); (1, 2)] 1 [0])) c = false) /\
  (forall enemies_added ds',
     snd (add_enemies_along_path (fst (astar open_maze (1, 0) (1, 2)))
            [(1, 0); (1, 1); (1, 2)] 1 [0]) = Ret (enemies_added, ds') ->
     0 < enemies_added ->
     [(1, 0); (0, 0); (0, 1); (0, 2); (1, 2)] <> [(1, 0); (1, 1); (1, 2)]).
Proof.
  apply (replanned_path_no_shorter 3 3 open_maze (1, 0) (1, 2)
           [(1, 0); (1, 1); (1, 2)] 1 [0] [(1, 0); (0, 0); (0, 1); (0, 2); (1, 2)]).
  - apply (generate_random_maze_wf 3 3 0 (repeat 0 12) open_maze []). reflexivity.
  - eexists. reflexivity.
  - eexists. reflexivity.
  - reflexivity.
  - reflexivity.
  - reflexivity.
Defined.


(** * The draws of generate_random_maze *)

Lemma draws_of_cons {X} (cost : X -> nat) x xs :
  draws_of cost (x :: xs) = cost x + draws_of cost xs.
Proof. reflexivity. Qed.

(** A loop whose passes neither raise nor stop early uses the draws of its
    passes, one pass after the other. *)
Lemma for_each_draws {X S} (cost : X -> nat) (body : X -> S -> Rand S) :
  forall (xs : list X),
  (forall x s ds, In x xs ->
     match body x s ds with
     | Ret (_, ds') => cost x <= length ds /\ ds' = drop (cost x) ds
     | Raise _ => False
     | Diverge => length ds < cost x
     end) ->
  forall s ds,
    match for_each xs body s ds with
    | Ret (_, ds') => draws_of cost xs <= length ds /\ ds' = drop (draws_of cost xs) ds
    | Raise _ => False
    | Diverge => length ds < draws_of cost xs
    end.
Proof.
  induction xs as [|x xs IH]; intros Hbody s ds.
  - cbn. split; [lia|reflexivity].
  - cbn [for_each]. unfold rbind. rewrite draws_of_cons.
    pose proof (Hbody x s ds ltac:(left; reflexivity)) as Hx.
    destruct (body x s ds) as [[s1 ds1]|e|]; cbv beta iota; [|exact Hx|lia].
    destruct Hx as [Hle ->].
    specialize (IH (fun y s ds Hy => Hbody y s ds (or_intror Hy)) s1 (drop (cost x) ds)).
    destruct (for_each xs body s1 (drop (cost x) ds)) as [[s2 ds2]|e|].
    + destruct IH as [IH1 ->]. rewrite length_drop in IH1. split; [lia|].
      rewrite drop_drop. reflexivity.
    + exact IH.
    + rewrite length_drop in IH. lia.
Qed.

Lemma choice_draws {A} (x : A) xs ds :
  match choice x xs ds with
  | Ret (_, ds') => 1 <= length ds /\ ds' = drop 1 ds
  | Raise _ => False
  | Diverge => length ds < 1
  end.
Proof.
  unfold choice. destruct ds as [|d ds]; simpl; [lia|]. split; [lia|].
  rewrite drop_0. reflexivity.
Qed.

(** A link made on the toss of a coin, when its guard holds. *)
Lemma link_draws (guard : bool) (f : Maze -> Maze) (maze : Maze) ds :
  match (if guard
         then b <- choice true [false] ;;
              if (b : bool) then rret (f maze) else rret maze
         else rret maze) ds with
  | Ret (_, ds') =>
      (if guard then 1 else 0) <= length ds /\ ds' = drop (if guard then 1 else 0) ds
  | Raise _ => False
  | Diverge => length ds < (if guard then 1 else 0)
  end.
Proof.
  destruct guard; unfold rbind, rret, choice.
  - destruct ds as [|d ds]; [simpl; lia|].
    destruct (nth _ _ _); simpl; (split; [lia|]); rewrite drop_0; reflexivity.
  - split; [lia|]. rewrite drop_0. reflexivity.
Qed.

Lemma connect_cell_draws rows cols row col (maze : Maze) ds :
  match connect_cell rows cols row col maze ds with
  | Ret (_, ds') =>
      connect_draws rows cols row col <= length ds /\
      ds' = drop (connect_draws rows cols row col) ds
  | Raise _ => False
  | Diverge => length ds < connect_draws rows cols row col
  end.
Proof.
  unfold connect_cell, connect_draws. unfold rbind at 1.
  pose proof (link_draws (col <? cols - 1) (link_right row col) maze ds) as H1.
  destruct ((if col <? cols - 1
             then b <- choice true [false] ;;
                  if (b : bool) then rret (link_right row col maze) else rret maze
             else rret maze) ds) as [[maze1 ds1]|e|]; [|exact H1|lia].
  destruct H1 as [H1 ->].
  pose proof (link_draws (row <? rows - 1) (link_down row col) maze1
                (drop (if col <? cols - 1 then 1 else 0) ds)) as H2.
  destruct ((if row <? rows - 1
             then b <- choice true [false] ;;
                  if (b : bool) then rret (link_down row col maze1) else rret maze1
             else rret maze1) (drop (if col <? cols - 1 then 1 else 0) ds))
    as [[maze2 ds2]|e|].
  - destruct H2 as [H2 ->]. rewrite length_drop in H2. split; [lia|].
    rewrite drop_drop. reflexivity.
  - exact H2.
  - rewrite length_drop in H2. lia.
Qed.

Lemma place_enemy_draws rows cols i (maze : Maze) ds :
  0 < rows -> 0 < cols ->
  match place_enemy rows cols i maze ds with
  | Ret (_, ds') => 2 <= length ds /\ ds' = drop 2 ds
  | Raise _ => False
  | Diverge => length ds < 2
  end.
Proof.
  intros Hr Hc. unfold place_enemy, rbind, rret, randint.
  destruct (Z.ltb_spec (Z.of_nat rows - 1) 0); [lia|].
  destruct (Z.ltb_spec (Z.of_nat cols - 1) 0); [lia|].
  destruct ds as [|d1 [|d2 ds]]; simpl; try lia.
  split; [lia|]. rewrite drop_0. reflexivity.
Qed.

(** The number of indices of [0 .. n - 1] below [k]. *)
Lemma draws_below k n :
  draws_of (fun i => if i <? k then 1 else 0) (seq 0 n) = Nat.min k n.
Proof.
  unfold draws_of. induction n as [|n IH]; [simpl; lia|].
  rewrite seq_S, map_app, list_sum_app, IH. simpl.
  destruct (Nat.ltb_spec n k); lia.
Qed.

Lemma draws_of_add {X} (f g : X -> nat) xs :
  draws_of (fun x => f x + g x) xs = draws_of f xs + draws_of g xs.
Proof.
  induction xs as [|x xs IH]; [reflexivity|].
  rewrite !draws_of_cons, IH. lia.
Qed.

Lemma draws_of_const {X} c (xs : list X) : draws_of (fun _ => c) xs = c * length xs.
Proof.
  induction xs as [|x xs IH]; [cbn; lia|].
  rewrite draws_of_cons, IH. cbn [length]. lia.
Qed.

Lemma draws_of_scale {X} c (f : X -> nat) xs :
  draws_of (fun x => c * f x) xs = c * draws_of f xs.
Proof.
  induction xs as [|x xs IH]; [cbn; lia|].
  rewrite !draws_of_cons, IH. lia.
Qed.

Lemma draws_of_ext {X} (f g : X -> nat) xs :
  (forall x, f x = g x) -> draws_of f xs = draws_of g xs.
Proof.
  intros H. unfold draws_of. f_equal. apply map_ext. exact H.
Qed.

Lemma row_draws_sum rows cols row :
  draws_of (connect_draws rows cols row) (seq 0 cols)
  = (cols - 1) + cols * (if row <? rows - 1 then 1 else 0).
Proof.
  unfold connect_draws.
  rewrite (draws_of_add (fun col => if col <? cols - 1 then 1 else 0)
             (fun _ => if row <? rows - 1 then 1 else 0)).
  rewrite draws_below, draws_of_const, length_seq. lia.
Qed.

Lemma maze_draws_sum rows cols :
  draws_of (fun row => draws_of (connect_draws rows cols row) (seq 0 cols)) (seq 0 rows)
  = rows * (cols - 1) + (rows - 1) * cols.
Proof.
  rewrite (draws_of_ext _ (fun row => (cols - 1)
                                      + cols * (if row <? rows - 1 then 1 else 0)))
    by (intros row; apply row_draws_sum).
  rewrite (draws_of_add (fun _ => cols - 1)
             (fun row => cols * (if row <? rows - 1 then 1 else 0))).
  rewrite draws_of_const, length_seq, draws_of_scale, draws_below. nia.
Qed.

Lemma generate_random_maze_uses (rows cols num_enemies : nat) (ds : list nat) :
  0 < rows -> 0 < cols ->
  match generate_random_maze rows cols num_enemies ds with
  | Ret (_, ds') =>
      maze_draws rows cols num_enemies <= length ds /\
      ds' = drop (maze_draws rows cols num_enemies) ds
  | Raise _ => False
  | Diverge => length ds < maze_draws rows cols num_enemies
  end.
Proof.
  intros Hr Hc. unfold generate_random_maze, rbind, maze_draws.
  set (maze0 := replicate rows (replicate cols new_node)).
  pose proof (for_each_draws
                (fun row => draws_of (connect_draws rows cols row) (seq 0 cols))
                (fun row => for_each (seq 0 cols) (connect_cell rows cols row))
                (seq 0 rows)) as H1.
  specialize (H1 (fun row s ds0 _ =>
                    for_each_draws (connect_draws rows cols row)
                      (connect_cell rows cols row) (seq 0 cols)
                      (fun col s1 ds1 _ => connect_cell_draws rows cols row col s1 ds1)
                      s ds0) maze0 ds).
  rewrite maze_draws_sum in H1.
  destruct (for_each (seq 0 rows)
              (fun row => for_each (seq 0 cols) (connect_cell rows cols row)) maze0 ds)
    as [[maze1 ds1]|e|]; [|exact H1|lia].
  destruct H1 as [H1 ->].
  pose proof (for_each_draws (fun _ => 2) (place_enemy rows cols) (seq 0 num_enemies)
                (fun i s ds0 _ => place_enemy_draws rows cols i s ds0 Hr Hc)
                maze1 (drop (rows * (cols - 1) + (rows - 1) * cols) ds)) as H2.
  rewrite draws_of_const, length_seq, length_drop in H2.
  destruct (for_each (seq 0 num_enemies) (place_enemy rows cols) maze1
              (drop (rows * (cols - 1) + (rows - 1) * cols) ds)) as [[maze2 ds2]|e|].
  - destruct H2 as [H2 ->]. split; [lia|]. rewrite drop_drop. reflexivity.
  - exact H2.
  - lia.
Qed.

(** X16. In a grid with at least one row and one column
    [generate_random_maze] never raises; it takes one draw for every pair of
    cells side by side and every pair one above the other, and two for every
    obstacle: [rows * (cols - 1) + (rows - 1) * cols + 2 * num_enemies]
    draws, and it returns as soon as it gets them. *)
Theorem generate_random_maze_draws (rows cols num_enemies : nat) (ds : list nat) :
  0 < rows -> 0 < cols ->
  match generate_random_maze rows cols num_enemies ds with
  | Ret (_, ds') =>
      maze_draws rows cols num_enemies <= length ds /\
      ds' = drop (maze_draws rows cols num_enemies) ds
  | Raise _ => False
  | Diverge => length ds < maze_draws rows cols num_enemies
  end.
Proof. apply generate_random_maze_uses. Qed.

Lemma generate_random_maze_draws_witness :
  maze_draws 2 2 1 <= length [0; 0; 1; 1; 0; 0] /\
  [] = drop (maze_draws 2 2 1) [0; 0; 1; 1; 0; 0].
Proof.
  exact (generate_random_maze_draws 2 2 1 [0; 0; 1; 1; 0; 0] ltac:(lia) ltac:(lia)).
Defined.

(** The loops that connect the cells of a grid without columns do nothing. *)
Lemma connect_no_columns rows : forall (rws : list nat) (maze : Maze) ds,
  for_each rws (fun row => for_each (seq 0 0) (connect_cell rows 0 row)) maze ds
  = Ret (maze, ds).
Proof.
  induction rws as [|r rws IH]; intros maze ds; [reflexivity|].
  cbn [for_each seq]. unfold rbind, rret. apply IH.
Qed.

(** X17. An obstacle cannot be placed in a grid without rows or without
    columns: with [num_enemies > 0] the call raises [ValueError] at the first
    obstacle ([randint(0, -1)]). *)
Theorem generate_random_maze_empty_raises (rows cols num_enemies : nat) (d : nat)
    (ds : list nat) :
  rows = 0 \/ cols = 0 -> 0 < num_enemies ->
  generate_random_maze rows cols num_enemies (d :: ds) = Raise ValueError.
Proof.
  intros Hz Hn. destruct num_enemies as [|n]; [lia|].
  unfold generate_random_maze, rbind.
  destruct rows as [|rows].
  - reflexivity.
  - destruct Hz as [Hz|Hz]; [discriminate|]. subst cols.
    rewrite connect_no_columns. cbn [seq for_each]. unfold rbind, place_enemy, rbind, randint.
    destruct (Z.ltb_spec (Z.of_nat (S rows) - 1) 0); [lia|]. reflexivity.
Qed.

Lemma generate_random_maze_empty_raises_witness :
  generate_random_maze 3 0 1 [5; 6] = Raise ValueError.
Proof.
  apply (generate_random_maze_empty_raises 3 0 1 5 [6]); [right; reflexivity|lia].
Defined.


(** * The drawing *)

Lemma in_draw_row r row el :
  In el (draw_row r row) <->
  exists c node, row !! c = Some node /\ In el (draw_cell r c node).
Proof.
  unfold draw_row. rewrite in_concat. split.
  - intros (l & Hl & Hel). apply list_elem_of_In, elem_of_lookup_imap in Hl.
    destruct Hl as (c & node & -> & Hc). eauto.
  - intros (c & node & Hc & Hel). exists (draw_cell r c node). split; [|exact Hel].
    apply list_elem_of_In, elem_of_lookup_imap. eauto.
Qed.

(** The elements of the maze are those of its cells. *)
Lemma in_draw_maze (maze : Maze) el :
  In el (draw_maze maze) <->
  exists r c node, node_at maze (r, c) = Some node /\ In el (draw_cell r c node).
Proof.
  unfold draw_maze. rewrite in_concat. split.
  - intros (l & Hl & Hel). apply list_elem_of_In, elem_of_lookup_imap in Hl.
    destruct Hl as (r & row & -> & Hr). apply in_draw_row in Hel.
    destruct Hel as (c & node & Hc & Hel). exists r, c, node. split; [|exact Hel].
    unfold node_at. cbn [fst snd]. rewrite Hr. exact Hc.
  - intros (r & c & node & Hn & Hel). unfold node_at in Hn. cbn [fst snd] in Hn.
    destruct (maze !! r) as [row|] eqn:Hr; [|discriminate].
    exists (draw_row r row). split.
    + apply list_elem_of_In, elem_of_lookup_imap. eauto.
    + apply in_draw_row. eauto.
Qed.

Lemma in_draw_path stroke path el :
  In el (draw_path stroke path) ->
  exists a b, el = line (cell_centre a) (cell_centre b) stroke (Some 4%Z).
Proof.
  intros H. apply list_elem_of_In, list_elem_of_lookup_1 in H. destruct H as [i Hi].
  apply lookup_zip_with_Some in Hi. destruct Hi as (a & b & -> & _). eauto.
Qed.

(** The elements of a drawing, by the statements that add them. *)
Lemma in_drawing (maze : Maze) path start e enemies d el :
  visualize_maze_svg maze path start e enemies = Ret d ->
  In el (elements d) ->
  In el (draw_maze maze) \/ In el (draw_path blue path) \/
  draw_flag flag_start red start = el \/ draw_flag flag_end green e = el \/
  In el (draw_path green enemies) \/
  exists maze_width, In el (draw_legend maze_width).
Proof.
  unfold visualize_maze_svg. destruct maze as [|row0 maze]; [discriminate|].
  intros [= <-]. cbn [elements]. rewrite !in_app_iff. cbn [In].
  intros [H|[H|[H|[H|H]]]]; auto 7. apply in_app_iff in H. destruct H; eauto 10.
Qed.

Lemma maze_in_drawing (maze : Maze) path start e enemies d el :
  visualize_maze_svg maze path start e enemies = Ret d ->
  In el (draw_maze maze) -> In el (elements d).
Proof.
  unfold visualize_maze_svg. destruct maze as [|row0 maze]; [discriminate|].
  intros [= <-]. cbn [elements]. rewrite in_app_iff. auto.
Qed.

(** The walls and the bombs of a drawing are those of the maze: the lines of
    the paths and of the legend have a width. *)
Lemma wall_in_drawing (maze : Maze) path start e enemies d p q :
  visualize_maze_svg maze path start e enemies = Ret d ->
  (In (line p q black None) (elements d) <-> In (line p q black None) (draw_maze maze)).
Proof.
  intros Hd. split; [|apply (maze_in_drawing _ _ _ _ _ _ _ Hd)].
  intros H. apply (in_drawing _ _ _ _ _ _ _ Hd) in H.
  destruct H as [H|[H|[H|[H|[H|[w H]]]]]]; [exact H| | | | |].
  - apply in_draw_path in H. destruct H as (a & b & H). discriminate.
  - discriminate.
  - discriminate.
  - apply in_draw_path in H. destruct H as (a & b & H). discriminate.
  - cbn in H. repeat (destruct H as [H|H]; [discriminate|]). destruct H.
Qed.

Lemma bomb_in_drawing (maze : Maze) path start e enemies d x y :
  visualize_maze_svg maze path start e enemies = Ret d ->
  (In (bomb x y) (elements d) <-> In (bomb x y) (draw_maze maze)).
Proof.
  intros Hd. split; [|apply (maze_in_drawing _ _ _ _ _ _ _ Hd)].
  intros H. apply (in_drawing _ _ _ _ _ _ _ Hd) in H.
  destruct H as [H|[H|[H|[H|[H|[w H]]]]]]; [exact H| | | | |].
  - apply in_draw_path in H. destruct H as (a & b & H). discriminate.
  - discriminate.
  - discriminate.
  - apply in_draw_path in H. destruct H as (a & b & H). discriminate.
  - cbn in H. repeat (destruct H as [H|H]; [discriminate|]). destruct H.
Qed.

(** The cells that draw a given wall. *)
Lemma wall_left_cases r c r' c' node :
  In (wall_left_of r c) (draw_cell r' c' node) <->
  r' = r /\ ((c' = c /\ left node = None) \/ (c' + 1 = c /\ right node = None)).
Proof.
  unfold wall_left_of, draw_cell, cell_size. rewrite !in_app_iff. split.
  - intros [H|[H|[H|[H|H]]]].
    + destruct (left node) eqn:E; [destruct H|].
      destruct H as [[= H1 H2]|[]]. split; [lia|]. left. split; [lia|reflexivity].
    + destruct (right node) eqn:E; [destruct H|].
      destruct H as [[= H1 H2]|[]]. split; [lia|]. right. split; [lia|reflexivity].
    + destruct (up node); [destruct H|]. destruct H as [[= H1 H2 H3 H4]|[]]. lia.
    + destruct (down node); [destruct H|]. destruct H as [[= H1 H2 H3 H4]|[]]. lia.
    + destruct (is_enemy node); [destruct H as [H|[]]; discriminate|destruct H].
  - intros [-> [[-> E]|[<- E]]]; rewrite E.
    + left. left. reflexivity.
    + right. left. left. f_equal; f_equal; lia.
Qed.

Lemma wall_above_cases r c r' c' node :
  In (wall_above r c) (draw_cell r' c' node) <->
  c' = c /\ ((r' = r /\ up node = None) \/ (r' + 1 = r /\ down node = None)).
Proof.
  unfold wall_above, draw_cell, cell_size. rewrite !in_app_iff. split.
  - intros [H|[H|[H|[H|H]]]].
    + destruct (left node); [destruct H|]. destruct H as [[= H1 H2 H3 H4]|[]]. lia.
    + destruct (right node); [destruct H|]. destruct H as [[= H1 H2 H3 H4]|[]]. lia.
    + destruct (up node) eqn:E; [destruct H|].
      destruct H as [[= H1 H2]|[]]. split; [lia|]. left. split; [lia|reflexivity].
    + destruct (down node) eqn:E; [destruct H|].
      destruct H as [[= H1 H2]|[]]. split; [lia|]. right. split; [lia|reflexivity].
    + destruct (is_enemy node); [destruct H as [H|[]]; discriminate|destruct H].
  - intros [-> [[-> E]|[<- E]]]; rewrite E.
    + right. right. left. left. reflexivity.
    + right. right. right. left. left. f_equal; f_equal; lia.
Qed.

Section Walls.
Variables (rows cols : nat) (maze : Maze).
Hypothesis Hwf : wf_maze rows cols maze.

Lemma wf_cell r c : r < rows -> c < cols -> is_Some (node_at maze (r, c)).
Proof.
  intros Hr Hc. apply (shape_node_at rows cols); [apply wf_maze_shape, Hwf|].
  cbn [fst snd]. lia.
Qed.

Lemma wf_cell_inv r c : is_Some (node_at maze (r, c)) -> r < rows /\ c < cols.
Proof.
  intros H. apply (shape_node_at rows cols) in H; [exact H|apply wf_maze_shape, Hwf].
Qed.

(** Two cells side by side are joined exactly when the first has its right
    pointer, exactly when the second has its left pointer. *)
Lemma beside_right r c :
  In (r, c + 1) (neighbors maze (r, c)) <-> ptr right maze (r, c) <> None.
Proof.
  rewrite neighbors_ptr. split.
  - intros [H|[H|[H|H]]].
    + apply (wf_left _ _ _ Hwf) in H. cbn [fst snd] in H. destruct H as [_ [= H]]. lia.
    + congruence.
    + apply (wf_up _ _ _ Hwf) in H. cbn [fst snd] in H. destruct H as [_ [= H1 H2]]. lia.
    + apply (wf_down _ _ _ Hwf) in H. cbn [fst snd] in H. destruct H as [_ [= H1 H2]]. lia.
  - intros H. right. left. destruct (ptr right maze (r, c)) as [q|] eqn:E; [|congruence].
    destruct (wf_right _ _ _ Hwf _ _ E) as [_ ->]. reflexivity.
Qed.

Lemma beside_left r c :
  In (r, c + 1) (neighbors maze (r, c)) <-> ptr left maze (r, c + 1) <> None.
Proof.
  rewrite beside_right. split.
  - intros H. destruct (ptr right maze (r, c)) as [q|] eqn:E; [|congruence].
    destruct (wf_right _ _ _ Hwf _ _ E) as [_ ->]. cbn [fst snd] in E.
    apply (wf_left_right _ _ _ Hwf) in E. congruence.
  - intros H. destruct (ptr left maze (r, c + 1)) as [q|] eqn:E; [|congruence].
    destruct (wf_left _ _ _ Hwf _ _ E) as [_ ->]. cbn [fst snd] in E.
    replace (c + 1 - 1) with c in E by lia.
    apply (wf_left_right _ _ _ Hwf) in E. congruence.
Qed.

Lemma below_down r c :
  In (r + 1, c) (neighbors maze (r, c)) <-> ptr down maze (r, c) <> None.
Proof.
  rewrite neighbors_ptr. split.
  - intros [H|[H|[H|H]]].
    + apply (wf_left _ _ _ Hwf) in H. cbn [fst snd] in H. destruct H as [_ [= H1 H2]]. lia.
    + apply (wf_right _ _ _ Hwf) in H. cbn [fst snd] in H. destruct H as [_ [= H1 H2]]. lia.
    + apply (wf_up _ _ _ Hwf) in H. cbn [fst snd] in H. destruct H as [_ [= H]]. lia.
    + congruence.
  - intros H. right. right. right.
    destruct (ptr down maze (r, c)) as [q|] eqn:E; [|congruence].
    destruct (wf_down _ _ _ Hwf _ _ E) as [_ ->]. reflexivity.
Qed.

Lemma below_up r c :
  In (r + 1, c) (neighbors maze (r, c)) <-> ptr up maze (r + 1, c) <> None.
Proof.
  rewrite below_down. split.
  - intros H. destruct (ptr down maze (r, c)) as [q|] eqn:E; [|congruence].
    destruct (wf_down _ _ _ Hwf _ _ E) as [_ ->]. cbn [fst snd] in E.
    apply (wf_up_down _ _ _ Hwf) in E. congruence.
  - intros H. destruct (ptr up maze (r + 1, c)) as [q|] eqn:E; [|congruence].
    destruct (wf_up _ _ _ Hwf _ _ E) as [_ ->]. cbn [fst snd] in E.
    replace (r + 1 - 1) with r in E by lia.
    apply (wf_up_down _ _ _ Hwf) in E. congruence.
Qed.

(** The wall between two cells side by side is drawn exactly when they are
    not joined. *)
Lemma wall_beside r c :
  r < rows -> c + 1 < cols ->
  (In (wall_left_of r (c + 1)) (draw_maze maze) <->
   ~ In (r, c + 1) (neighbors maze (r, c))).
Proof.
  intros Hr Hc. rewrite in_draw_maze. split.
  - intros (r' & c' & node & Hn & Hel). apply wall_left_cases in Hel.
    destruct Hel as [-> [[-> E]|[E1 E]]].
    + rewrite beside_left. unfold ptr. rewrite Hn, E. congruence.
    + assert (c' = c) by lia. subst c'. rewrite beside_right. unfold ptr.
      rewrite Hn, E. congruence.
  - intros H. destruct (wf_cell r c Hr ltac:(lia)) as [node Hn].
    exists r, c, node. split; [exact Hn|]. apply wall_left_cases.
    split; [reflexivity|]. right. split; [reflexivity|].
    rewrite beside_right in H. unfold ptr in H. rewrite Hn in H.
    destruct (right node); [exfalso; apply H; discriminate|reflexivity].
Qed.

Lemma wall_below r c :
  r + 1 < rows -> c < cols ->
  (In (wall_above (r + 1) c) (draw_maze maze) <->
   ~ In (r + 1, c) (neighbors maze (r, c))).
Proof.
  intros Hr Hc. rewrite in_draw_maze. split.
  - intros (r' & c' & node & Hn & Hel). apply wall_above_cases in Hel.
    destruct Hel as [-> [[-> E]|[E1 E]]].
    + rewrite below_up. unfold ptr. rewrite Hn, E. congruence.
    + assert (r' = r) by lia. subst r'. rewrite below_down. unfold ptr.
      rewrite Hn, E. congruence.
  - intros H. destruct (wf_cell r c ltac:(lia) Hc) as [node Hn].
    exists r, c, node. split; [exact Hn|]. apply wall_above_cases.
    split; [reflexivity|]. right. split; [reflexivity|].
    rewrite below_down in H. unfold ptr in H. rewrite Hn in H.
    destruct (down node); [exfalso; apply H; discriminate|reflexivity].
Qed.

(** The walls of the outer sides. *)
Lemma wall_outer_left r : r < rows -> 0 < cols -> In (wall_left_of r 0) (draw_maze maze).
Proof.
  intros Hr Hc. destruct (wf_cell r 0 Hr Hc) as [node Hn]. apply in_draw_maze.
  exists r, 0, node. split; [exact Hn|]. apply wall_left_cases. split; [reflexivity|].
  left. split; [reflexivity|].
  destruct (left node) as [q|] eqn:E; [|reflexivity].
  assert (H : ptr left maze (r, 0) = Some q) by (unfold ptr; rewrite Hn; exact E).
  apply (wf_left _ _ _ Hwf) in H. cbn [snd] in H. lia.
Qed.

Lemma wall_outer_right r : r < rows -> 0 < cols -> In (wall_left_of r cols) (draw_maze maze).
Proof.
  intros Hr Hc. destruct (wf_cell r (cols - 1) Hr ltac:(lia)) as [node Hn].
  apply in_draw_maze. exists r, (cols - 1), node. split; [exact Hn|].
  apply wall_left_cases. split; [reflexivity|]. right. split; [lia|].
  destruct (right node) as [q|] eqn:E; [|reflexivity].
  assert (H : ptr right maze (r, cols - 1) = Some q) by (unfold ptr; rewrite Hn; exact E).
  apply (wf_right _ _ _ Hwf) in H. cbn [snd] in H. lia.
Qed.

Lemma wall_outer_top c : c < cols -> 0 < rows -> In (wall_above 0 c) (draw_maze maze).
Proof.
  intros Hc Hr. destruct (wf_cell 0 c Hr Hc) as [node Hn]. apply in_draw_maze.
  exists 0, c, node. split; [exact Hn|]. apply wall_above_cases. split; [reflexivity|].
  left. split; [reflexivity|].
  destruct (up node) as [q|] eqn:E; [|reflexivity].
  assert (H : ptr up maze (0, c) = Some q) by (unfold ptr; rewrite Hn; exact E).
  apply (wf_up _ _ _ Hwf) in H. cbn [fst] in H. lia.
Qed.

Lemma wall_outer_bottom c : c < cols -> 0 < rows -> In (wall_above rows c) (draw_maze maze).
Proof.
  intros Hc Hr. destruct (wf_cell (rows - 1) c ltac:(lia) Hc) as [node Hn].
  apply in_draw_maze. exists (rows - 1), c, node. split; [exact Hn|].
  apply wall_above_cases. split; [reflexivity|]. right. split; [lia|].
  destruct (down node) as [q|] eqn:E; [|reflexivity].
  assert (H : ptr down maze (rows - 1, c) = Some q) by (unfold ptr; rewrite Hn; exact E).
  apply (wf_down _ _ _ Hwf) in H. cbn [fst] in H. lia.
Qed.

End Walls.

Lemma drawing_walls_core (rows cols : nat) (maze : Maze) (path : list coord)
    (start e : Z * Z) (enemies : list coord) (d : drawing) :
  wf_maze rows cols maze ->
  visualize_maze_svg maze path start e enemies = Ret d ->
  (forall r c, r < rows -> c + 1 < cols ->
     (In (wall_left_of r (c + 1)) (elements d) <->
      ~ In (r, c + 1) (neighbors maze (r, c)))) /\
  (forall r c, r + 1 < rows -> c < cols ->
     (In (wall_above (r + 1) c) (elements d) <->
      ~ In (r + 1, c) (neighbors maze (r, c)))).
Proof.
  intros Hwf Hd. split; intros r c Hr Hc.
  - unfold wall_left_of. rewrite (wall_in_drawing _ _ _ _ _ _ _ _ Hd).
    apply (wall_beside rows cols maze Hwf r c Hr Hc).
  - unfold wall_above. rewrite (wall_in_drawing _ _ _ _ _ _ _ _ Hd).
    apply (wall_below rows cols maze Hwf r c Hr Hc).
Qed.

(** X18. In the drawing of a grid the wall between two cells side by side,
    and between two cells one above the other, is drawn exactly when no
    pointer joins the two cells. *)
Theorem drawing_walls (rows cols : nat) (maze : Maze) (path : list coord)
    (start e : Z * Z) (enemies : list coord) (d : drawing) :
  wf_maze rows cols maze ->
  visualize_maze_svg maze path start e enemies = Ret d ->
  (forall r c, r < rows -> c + 1 < cols ->
     (In (wall_left_of r (c + 1)) (elements d) <->
      ~ In (r, c + 1) (neighbors maze (r, c)))) /\
  (forall r c, r + 1 < rows -> c < cols ->
     (In (wall_above (r + 1) c) (elements d) <->
      ~ In (r + 1, c) (neighbors maze (r, c)))).
Proof. apply drawing_walls_core. Qed.

(** X19. The drawing of a grid is closed: every cell of the first and of
    the last column has its outer wall, and every cell of the first and of
    the last row. *)
Theorem drawing_closed (rows cols : nat) (maze : Maze) (path : list coord)
    (start e : Z * Z) (enemies : list coord) (d : drawing) :
  wf_maze rows cols maze ->
  visualize_maze_svg maze path start e enemies = Ret d ->
  (forall r, r < rows -> 0 < cols ->
     In (wall_left_of r 0) (elements d) /\ In (wall_left_of r cols) (elements d)) /\
  (forall c, c < cols -> 0 < rows ->
     In (wall_above 0 c) (elements d) /\ In (wall_above rows c) (elements d)).
Proof.
  intros Hwf Hd. split.
  - intros r Hr Hc. unfold wall_left_of.
    rewrite !(wall_in_drawing _ _ _ _ _ _ _ _ Hd). split.
    + apply (wall_outer_left rows cols maze Hwf r Hr Hc).
    + apply (wall_outer_right rows cols maze Hwf r Hr Hc).
  - intros c Hc Hr. unfold wall_above.
    rewrite !(wall_in_drawing _ _ _ _ _ _ _ _ Hd). split.
    + apply (wall_outer_top rows cols maze Hwf c Hc Hr).
    + apply (wall_outer_bottom rows cols maze Hwf c Hc Hr).
Qed.

Lemma bomb_cases x y r c node :
  In (bomb x y) (draw_cell r c node) <->
  (x = Z.of_nat c * cell_size /\ y = Z.of_nat r * cell_size)%Z /\ is_enemy node = true.
Proof.
  unfold draw_cell. rewrite !in_app_iff. split.
  - intros [H|[H|[H|[H|H]]]].
    + destruct (left node); [destruct H|destruct H as [H|[]]; discriminate].
    + destruct (right node); [destruct H|destruct H as [H|[]]; discriminate].
    + destruct (up node); [destruct H|destruct H as [H|[]]; discriminate].
    + destruct (down node); [destruct H|destruct H as [H|[]]; discriminate].
    + destruct (is_enemy node); [|destruct H].
      destruct H as [[= <- <-]|[]]. auto.
  - intros [[-> ->] E]. rewrite E. right. right. right. right. left. reflexivity.
Qed.

Lemma bomb_of_enemy (maze : Maze) r c :
  In (bomb (Z.of_nat c * cell_size) (Z.of_nat r * cell_size)) (draw_maze maze) <->
  enemy_of maze (r, c) = true.
Proof.
  rewrite in_draw_maze. split.
  - intros (r' & c' & node & Hn & Hel). apply bomb_cases in Hel.
    destruct Hel as [[H1 H2] E]. unfold cell_size in H1, H2.
    assert (c' = c) by lia. assert (r' = r) by lia. subst.
    unfold enemy_of. rewrite Hn. exact E.
  - intros H. unfold enemy_of in H. destruct (node_at maze (r, c)) as [node|] eqn:Hn;
      [|discriminate].
    exists r, c, node. split; [exact Hn|]. apply bomb_cases. auto.
Qed.

(** X20. A bomb is drawn in a cell exactly when the cell is an obstacle
    cell of the maze, whatever the paths are. *)
Theorem drawing_bombs (maze : Maze) (path : list coord) (start e : Z * Z)
    (enemies : list coord) (d : drawing) (r c : nat) :
  visualize_maze_svg maze path start e enemies = Ret d ->
  (In (bomb (Z.of_nat c * cell_size) (Z.of_nat r * cell_size)) (elements d) <->
   enemy_of maze (r, c) = true).
Proof.
  intros Hd. rewrite (bomb_in_drawing _ _ _ _ _ _ _ _ Hd). apply bomb_of_enemy.
Qed.

Lemma drawing_walls_witness :
  exists d,
    visualize_maze_svg corner_maze [(1, 0); (0, 0); (0, 1)] (1, 0)%Z (0, 1)%Z [] = Ret d /\
    (forall r c, r < 2 -> c + 1 < 2 ->
       (In (wall_left_of r (c + 1)) (elements d) <->
        ~ In (r, c + 1) (neighbors corner_maze (r, c)))) /\
    (forall r c, r + 1 < 2 -> c < 2 ->
       (In (wall_above (r + 1) c) (elements d) <->
        ~ In (r + 1, c) (neighbors corner_maze (r, c)))).
Proof.
  eexists. split; [reflexivity|].
  apply (drawing_walls 2 2 corner_maze [(1, 0); (0, 0); (0, 1)] (1, 0)%Z (0, 1)%Z []).
  - apply (generate_random_maze_wf 2 2 0 [0; 0; 1; 1] corner_maze []). reflexivity.
  - reflexivity.
Defined.

Lemma drawing_closed_witness :
  exists d,
    visualize_maze_svg corner_maze [(1, 0); (0, 0); (0, 1)] (1, 0)%Z (0, 1)%Z [] = Ret d /\
    (forall r, r < 2 -> 0 < 2 ->
       In (wall_left_of r 0) (elements d) /\ In (wall_left_of r 2) (elements d)) /\
    (forall c, c < 2 -> 0 < 2 ->
       In (wall_above 0 c) (elements d) /\ In (wall_above 2 c) (elements d)).
Proof.
  eexists. split; [reflexivity|].
  apply (drawing_closed 2 2 corner_maze [(1, 0); (0, 0); (0, 1)] (1, 0)%Z (0, 1)%Z []).
  - apply (generate_random_maze_wf 2 2 0 [0; 0; 1; 1] corner_maze []). reflexivity.
  - reflexivity.
Defined.

Lemma drawing_bombs_witness :
  exists d,
    visualize_maze_svg blocked_corner_maze [] (1, 0)%Z (0, 1)%Z [] = Ret d /\
    (In (bomb (Z.of_nat 0 * cell_size) (Z.of_nat 0 * cell_size)) (elements d) <->
     enemy_of blocked_corner_maze (0, 0) = true).
Proof.
  eexists. split; [reflexivity|].
  apply (drawing_bombs blocked_corner_maze [] (1, 0)%Z (0, 1)%Z [] _ 0 0). reflexivity.
Defined.

(** ** The path in the drawing *)

Lemma path_in_drawing (maze : Maze) path start e enemies d a b i :
  visualize_maze_svg maze path start e enemies = Ret d ->
  path !! i = Some a -> path !! S i = Some b ->
  In (line (cell_centre a) (cell_centre b) blue (Some 4%Z)) (elements d).
Proof.
  unfold visualize_maze_svg. destruct maze as [|row0 maze]; [discriminate|].
  intros [= <-] Ha Hb. cbn [elements]. rewrite !in_app_iff. right. left.
  apply list_elem_of_In, list_elem_of_lookup_2 with i. unfold draw_path.
  apply lookup_zip_with_Some. exists a, b. split; [reflexivity|]. split; [exact Ha|].
  rewrite lookup_tail. exact Hb.
Qed.

(** The cell that a pointer of a grid leads to. *)
Lemma neighbor_cases rows cols (maze : Maze) a b :
  wf_maze rows cols maze -> In b (neighbors maze a) ->
  fst a < rows /\ snd a < cols /\
  ((b = (fst a, snd a + 1) /\ snd a + 1 < cols) \/
   (a = (fst b, snd b + 1) /\ snd b + 1 < cols) \/
   (b = (fst a + 1, snd a) /\ fst a + 1 < rows) \/
   (a = (fst b + 1, snd b) /\ fst b + 1 < rows)).
Proof.
  intros Hwf Hin.
  assert (Ha : is_Some (node_at maze a)).
  { unfold neighbors in Hin. destruct (node_at maze a); [eauto|destruct Hin]. }
  destruct a as [ar ac]. apply (wf_cell_inv rows cols maze Hwf) in Ha.
  destruct Ha as [Hr Hc]. cbn [fst snd]. split; [exact Hr|]. split; [exact Hc|].
  apply neighbors_ptr in Hin. destruct Hin as [H|[H|[H|H]]].
  - apply (wf_left _ _ _ Hwf) in H. cbn [fst snd] in H. destruct H as [H ->].
    cbn [fst snd]. right. left. split; [f_equal; lia|lia].
  - apply (wf_right _ _ _ Hwf) in H. cbn [fst snd] in H. destruct H as [H ->]. auto.
  - apply (wf_up _ _ _ Hwf) in H. cbn [fst snd] in H. destruct H as [H ->].
    cbn [fst snd]. right. right. right. split; [f_equal; lia|lia].
  - apply (wf_down _ _ _ Hwf) in H. cbn [fst snd] in H. destruct H as [H ->]. auto.
Qed.

(** X21. The path that [astar] has returned in a grid is drawn from cell to
    cell next to it, and it crosses no wall of the drawing: each of its
    segments joins the centres of two cells side by side or one above the
    other, and the wall between the two is not drawn. *)
Theorem drawn_path_crosses_no_wall (rows cols : nat) (maze : Maze) (start e : coord)
    (path : list coord) (start_point end_point : Z * Z) (enemies : list coord)
    (d : drawing) :
  wf_maze rows cols maze ->
  snd (astar maze start e) = Ret (Some path) ->
  visualize_maze_svg (fst (astar maze start e)) path start_point end_point enemies
    = Ret d ->
  forall i a b, path !! i = Some a -> path !! S i = Some b ->
    In (line (cell_centre a) (cell_centre b) blue (Some 4%Z)) (elements d) /\
    ((b = (fst a, snd a + 1) /\ ~ In (wall_left_of (fst a) (snd b)) (elements d)) \/
     (a = (fst b, snd b + 1) /\ ~ In (wall_left_of (fst a) (snd a)) (elements d)) \/
     (b = (fst a + 1, snd a) /\ ~ In (wall_above (fst b) (snd a)) (elements d)) \/
     (a = (fst b + 1, snd b) /\ ~ In (wall_above (fst a) (snd a)) (elements d))).
Proof.
  intros Hwf Hret Hd i a b Ha Hb.
  split; [eapply path_in_drawing; eauto|].
  set (maze1 := fst (astar maze start e)) in *.
  pose proof (astar_frame maze start e) as Hframe. fold maze1 in Hframe.
  assert (Hwf1 : wf_maze rows cols maze1) by (eapply same_wf; eauto).
  destruct (returned_path_shape maze start e path Hret) as (_ & _ & Hlinks & _).
  pose proof (Hlinks i a b Ha Hb) as Hab.
  rewrite <- (same_neighbors maze1 maze b Hframe) in Hab.
  pose proof (neighbors_mutual rows cols maze1 b a Hwf1 Hab) as Hba.
  destruct (drawing_walls_core rows cols maze1 path start_point end_point enemies d
              Hwf1 Hd) as [Hside Hbelow].
  destruct (neighbor_cases rows cols maze1 a b Hwf1 Hba) as (Hr & Hc & [[-> H]|[[-> H]|[[-> H]|[-> H]]]]);
    cbn [fst snd] in *.
  - left. split; [reflexivity|]. rewrite (Hside (fst a) (snd a) Hr H).
    intros Hn. apply Hn. destruct a; exact Hba.
  - right. left. split; [reflexivity|]. rewrite (Hside (fst b) (snd b) Hr H).
    intros Hn. apply Hn. destruct b; exact Hab.
  - right. right. left. split; [reflexivity|]. rewrite (Hbelow (fst a) (snd a) H Hc).
    intros Hn. apply Hn. destruct a; exact Hba.
  - right. right. right. split; [reflexivity|]. rewrite (Hbelow (fst b) (snd b) H Hc).
    intros Hn. apply Hn. destruct b; exact Hab.
Qed.

Lemma drawn_path_crosses_no_wall_witness :
  exists d,
    visualize_maze_svg (fst (astar corner_maze (1, 0) (0, 1))) [(1, 0); (0, 0); (0, 1)]
      (1, 0)%Z (0, 1)%Z [] = Ret d /\
    forall i a b, [(1, 0); (0, 0); (0, 1)] !! i = Some a ->
                  [(1, 0); (0, 0); (0, 1)] !! S i = Some b ->
      In (line (cell_centre a) (cell_centre b) blue (Some 4%Z)) (elements d) /\
      ((b = (fst a, snd a + 1) /\ ~ In (wall_left_of (fst a) (snd b)) (elements d)) \/
       (a = (fst b, snd b + 1) /\ ~ In (wall_left_of (fst a) (snd a)) (elements d)) \/
       (b = (fst a + 1, snd a) /\ ~ In (wall_above (fst b) (snd a)) (elements d)) \/
       (a = (fst b + 1, snd b) /\ ~ In (wall_above (fst a) (snd a)) (elements d))).
Proof.
  eexists. split; [reflexivity|].
  apply (drawn_path_crosses_no_wall 2 2 corner_maze (1, 0) (0, 1)
           [(1, 0); (0, 0); (0, 1)] (1, 0)%Z (0, 1)%Z []).
  - apply (generate_random_maze_wf 2 2 0 [0; 0; 1; 1] corner_maze []). reflexivity.
  - reflexivity.
  - reflexivity.
Defined.


(** * generate_a_new_maze *)

(** ** Before the [try] *)

Lemma randint_cases a b ds :
  (a <= b)%Z ->
  match randint a b ds with
  | Ret (v, _) => (a <= v <= b)%Z
  | Raise _ => False
  | Diverge => ds = []
  end.
Proof.
  intros Hab. destruct (randint a b ds) as [[v ds']|x|] eqn:E.
  - eapply randint_range; eauto.
  - unfold randint in E. destruct (Z.ltb_spec b a); [lia|]. destruct ds; discriminate.
  - unfold randint in E. destruct (Z.ltb_spec b a); [lia|].
    destruct ds; [reflexivity|discriminate].
Qed.

Lemma draw_sizes_cases ds :
  match draw_sizes ds with
  | Ret ((rr, cc), _) => (21 <= rr <= 30 /\ 21 <= cc <= 30)%Z
  | Raise _ => False
  | Diverge => True
  end.
Proof.
  unfold draw_sizes, rbind, rret.
  pose proof (randint_cases 1 10 ds ltac:(lia)) as H1.
  destruct (randint 1 10 ds) as [[r ds1]|x|]; [|exact H1|exact I].
  pose proof (randint_cases 1 10 ds1 ltac:(lia)) as H2.
  destruct (randint 1 10 ds1) as [[c ds2]|x|]; [|exact H2|exact I]. lia.
Qed.

(** A maze generated without obstacles has none. *)
Lemma generated_clear rows cols ds (maze : Maze) ds' :
  generate_random_maze rows cols 0 ds = Ret (maze, ds') ->
  forall p, enemy_of maze p = false.
Proof.
  intros H. unfold generate_random_maze, rbind in H.
  destruct (for_each (seq 0 rows) _ _ ds) as [[maze1 ds1]|e|] eqn:E1; try discriminate.
  cbn in H. unfold rret in H. injection H as <- _.
  eapply (for_each_inv (fun m : Maze => forall p, enemy_of m p = false)); [| |exact E1].
  - intros row s ds2 s' ds2' _ Hs Hbody.
    eapply (for_each_inv (fun m : Maze => forall p, enemy_of m p = false));
      [|exact Hs|exact Hbody].
    intros col t ds3 t' ds3' _ Ht Hcell p.
    apply connect_cell_cases in Hcell.
    destruct Hcell as (m1 & [->|[Hc ->]] & [->|[Hr ->]]);
      unfold link_right, link_down;
      rewrite ?enemy_of_upd by (intros n; reflexivity); apply Ht.
  - intros p. unfold enemy_of, node_at.
    destruct (replicate rows (replicate cols new_node) !! fst p) as [row|] eqn:Er;
      [|reflexivity].
    apply lookup_replicate in Er. destruct Er as [-> _].
    destruct (replicate cols new_node !! snd p) as [n|] eqn:Ec; [|reflexivity].
    apply lookup_replicate in Ec. destruct Ec as [-> _]. reflexivity.
Qed.

Lemma end_on_border_no_raise (rows cols sr : Z) x : forall ds,
  (3 <= rows)%Z -> (3 <= cols)%Z -> (1 <= sr <= rows - 2)%Z ->
  generate_end_on_border rows cols (sr, 0%Z) ds <> Raise x.
Proof.
  intros ds Hrows Hcols Hsr. induction ds as [|d ds IH]; [discriminate|].
  cbn [generate_end_on_border fst snd].
  assert (Hside : d mod 4 < 4) by (apply Nat.mod_upper_bound; lia).
  destruct (d mod 4) as [|[|[|[|k]]]] eqn:Ed; [| | | |exfalso; lia]; cbn [nth].
  - replace (sr =? 0)%Z with false by (symmetry; apply Z.eqb_neq; lia). cbn [negb].
    pose proof (border_pick_ok 1 (cols - 2) (fun c => (0%Z, c)) ds ltac:(lia)) as H.
    destruct ((c <- randint 1 (cols - 2);; rret (0%Z, c)) ds) as [[e ds']|y|];
      [discriminate|destruct H|discriminate].
  - replace (sr =? rows - 1)%Z with false by (symmetry; apply Z.eqb_neq; lia). cbn [negb].
    pose proof (border_pick_ok 1 (cols - 2) (fun c => ((rows - 1)%Z, c)) ds ltac:(lia)) as H.
    destruct ((c <- randint 1 (cols - 2);; rret ((rows - 1)%Z, c)) ds) as [[e ds']|y|];
      [discriminate|destruct H|discriminate].
  - cbn [negb Z.eqb]. exact IH.
  - replace (0 =? cols - 1)%Z with false by (symmetry; apply Z.eqb_neq; lia). cbn [negb].
    pose proof (border_pick_ok 1 (rows - 2) (fun r => (r, (cols - 1)%Z)) ds ltac:(lia)) as H.
    destruct ((r <- randint 1 (rows - 2);; rret (r, (cols - 1)%Z)) ds) as [[e ds']|y|];
      [discriminate|destruct H|discriminate].
Qed.

(** The maze and the points of an attempt. *)
Lemma draw_maze_and_points_cases ds :
  match draw_maze_and_points ds with
  | Ret ((maze, start_point, end_point), _) =>
      wf_maze 20 20 maze /\ (forall p, enemy_of maze p = false) /\
      start_position start_point /\ end_position end_point
  | Raise _ => False
  | Diverge => True
  end.
Proof.
  unfold draw_maze_and_points, rbind, rret.
  pose proof (generate_random_maze_uses 20 20 0 ds ltac:(lia) ltac:(lia)) as H1.
  destruct (generate_random_maze 20 20 0 ds) as [[maze ds1]|x|] eqn:E1;
    [|exact H1|exact I].
  pose proof (start_on_border_shape 20 20 ds1) as H2.
  destruct (generate_start_on_border 20 20 ds1) as [[sp ds2]|x|] eqn:E2; [| |exact I].
  2:{ unfold generate_start_on_border, rbind in E2.
      pose proof (randint_cases 1 (20 - 2) ds1 ltac:(lia)) as H.
      destruct (randint 1 (20 - 2) ds1) as [[r ds3]|y|]; [discriminate|exact H|discriminate]. }
  specialize (H2 sp ds2 eq_refl). destruct sp as [sr sc]. cbn [fst snd] in H2.
  destruct H2 as [Hsr ->].
  pose proof (end_on_border_no_raise 20 20 sr) as H3.
  pose proof (end_on_border_sides 20 20 sr ds2) as H4.
  destruct (generate_end_on_border 20 20 (sr, 0%Z) ds2) as [[ep ds3]|x|] eqn:E3;
    [|exact (H3 x ds2 ltac:(lia) ltac:(lia) ltac:(lia) E3)|exact I].
  split; [eapply generate_random_maze_wf; eauto|].
  split; [eapply generated_clear; eauto|].
  split; [split; cbn [fst snd]; lia|].
  destruct (H4 ep ds3 ltac:(lia) eq_refl) as (c & [[-> Hc]|[[-> Hc]|[-> [Hc Hne]]]]);
    unfold end_position; cbn [fst snd]; lia.
Qed.

(** ** The paths of an attempt *)

Lemma index_of_start sp :
  start_position sp -> 1 <= fst (index_of sp) <= 18 /\ snd (index_of sp) = 0.
Proof. intros [H1 H2]. unfold index_of. cbn [fst snd]. rewrite H2. simpl. lia. Qed.

Lemma index_of_end ep :
  end_position ep ->
  ((fst (index_of ep) = 0 \/ fst (index_of ep) = 19) /\ 1 <= snd (index_of ep) <= 18) \/
  (snd (index_of ep) = 19 /\ 1 <= fst (index_of ep) <= 18).
Proof. unfold end_position, index_of. cbn [fst snd]. lia. Qed.

(** A route between the two border points has a cell between its ends. *)
Lemma border_route_long (maze : Maze) sp ep p1 :
  wf_maze 20 20 maze -> start_position sp -> end_position ep ->
  route maze (index_of sp) (index_of ep) p1 -> 3 <= length p1.
Proof.
  intros Hwf Hsp Hep (Hhead & Hlast & _ & Hlinks).
  apply index_of_start in Hsp. apply index_of_end in Hep.
  destruct (index_of sp) as [sr sc], (index_of ep) as [er ec]. cbn [fst snd] in *.
  destruct p1 as [|a [|b [|c p1]]]; [discriminate| | |simpl; lia].
  - cbn in Hhead, Hlast. injection Hhead as ->. injection Hlast as [= -> ->]. lia.
  - cbn in Hhead, Hlast. injection Hhead as ->. injection Hlast as ->.
    specialize (Hlinks 0 (sr, sc) (er, ec) eq_refl eq_refl).
    destruct (neighbor_cases 20 20 maze _ _ Hwf Hlinks)
      as (_ & _ & [[[= -> ->] _]|[[[= -> ->] _]|[[[= -> ->] _]|[[= -> ->] _]]]]);
      cbn [fst snd] in *; lia.
Qed.

Lemma route_same (m1 m2 : Maze) s e p :
  reset_maze m1 = reset_maze m2 -> route m2 s e p -> route m1 s e p.
Proof.
  intros H (H1 & H2 & H3 & H4). split; [exact H1|]. split; [exact H2|]. split.
  - intros c Hc. destruct (H3 c Hc) as [Hc1 Hc2]. split.
    + apply (same_cells m1 m2 c H), Hc1.
    + rewrite (same_enemy m1 m2 c H). exact Hc2.
  - intros i a b Ha Hb. rewrite (same_neighbors m1 m2 a H). eauto.
Qed.

(** Two obstacles added to a maze without obstacles are on two cells. *)
Lemma add_two_enemies (maze : Maze) path ds maze' ds' :
  (forall p, enemy_of maze p = false) ->
  add_enemies_along_path maze path 2 ds = (maze', Ret (2, ds')) ->
  exists q1 q2, q1 <> q2 /\ In q1 (interior path) /\ In q2 (interior path) /\
                forall p, enemy_of maze' p = true <-> p = q1 \/ p = q2.
Proof.
  intros Hclear H. unfold add_enemies_along_path in H. cbn [add_enemies_loop] in H.
  destruct (randint 1 (Z.of_nat (length path) - 2) ds) as [[i1 ds1]|x|] eqn:Hr1;
    [|discriminate|discriminate].
  destruct (path !! Z.to_nat i1) as [q1|] eqn:Hq1; [|discriminate].
  destruct (node_at maze q1) as [n1|] eqn:Hn1; [|discriminate].
  assert (Hf1 : is_enemy n1 = false).
  { specialize (Hclear q1). unfold enemy_of in Hclear. rewrite Hn1 in Hclear. exact Hclear. }
  rewrite Hf1 in H. cbn [negb] in H.
  set (maze1 := upd_node (set_is_enemy true) q1 maze) in *.
  destruct (randint 1 (Z.of_nat (length path) - 2) ds1) as [[i2 ds2]|x|] eqn:Hr2;
    [|discriminate|discriminate].
  destruct (path !! Z.to_nat i2) as [q2|] eqn:Hq2; [|discriminate].
  destruct (node_at maze1 q2) as [n2|] eqn:Hn2; [|discriminate].
  destruct (is_enemy n2) eqn:Hf2; cbn [negb] in H; [injection H as _ H; lia|].
  apply (f_equal fst) in H. cbn [fst] in H. subst maze'.
  assert (Hq1m : enemy_of maze1 q1 = true).
  { apply enemy_of_set_eq. rewrite Hn1. eexists. reflexivity. }
  assert (Hne : q1 <> q2).
  { intros <-. unfold enemy_of in Hq1m. rewrite Hn2 in Hq1m. congruence. }
  exists q1, q2. split; [exact Hne|].
  split; [exact (drawn_index_interior path ds i1 ds1 q1 Hr1 Hq1)|].
  split; [exact (drawn_index_interior path ds1 i2 ds2 q2 Hr2 Hq2)|].
  intros p. destruct (decide (q2 = p)) as [<-|Hp2].
  - rewrite enemy_of_set_eq by (rewrite Hn2; eexists; reflexivity). tauto.
  - rewrite enemy_of_set_ne by exact Hp2. destruct (decide (q1 = p)) as [<-|Hp1].
    + rewrite Hq1m. tauto.
    + unfold maze1. rewrite enemy_of_set_ne by exact Hp1. rewrite Hclear.
      split; [discriminate|]. intros [->| ->]; congruence.
Qed.

Lemma handle_keeps r : (forall x, snd r <> Raise x) -> handle r = r.
Proof.
  intros H. unfold handle. destruct (snd r) as [u|x|] eqn:E; [reflexivity| |reflexivity].
  destruct (H x eq_refl).
Qed.

Lemma run_no_raise t o : run t o -> forall x, o <> Raise x.
Proof. induction 1; intros x; [discriminate|auto|discriminate]. Qed.

Lemma grid_point (maze : Maze) (p : coord) :
  wf_maze 20 20 maze -> fst p < 20 -> snd p < 20 -> is_Some (node_at maze p).
Proof.
  intros Hwf Hr Hc. destruct p as [r c]. apply (wf_cell 20 20 maze Hwf); assumption.
Qed.

(** The two obstacles are between the ends of the first path: the start
    point stays free. *)
Lemma start_stays_free (maze : Maze) sp ep p1 ds2 ds3 :
  wf_maze 20 20 maze -> (forall p, enemy_of maze p = false) ->
  start_position sp -> end_position ep ->
  snd (astar maze (index_of sp) (index_of ep)) = Ret (Some p1) ->
  snd (add_enemies_along_path (fst (astar maze (index_of sp) (index_of ep))) p1 2 ds2)
    = Ret (2, ds3) ->
  enemy_of (fst (add_enemies_along_path
                   (fst (astar maze (index_of sp) (index_of ep))) p1 2 ds2))
    (index_of sp) = false.
Proof.
  intros Hwf Hclear Hsp Hep Hret1 Hadd.
  pose proof (index_of_start sp Hsp) as Hs'. pose proof (index_of_end ep Hep) as He'.
  set (s := index_of sp) in *. set (e := index_of ep) in *.
  set (maze1 := fst (astar maze s e)) in *.
  assert (Hs : is_Some (node_at maze s)) by (apply grid_point; [exact Hwf|lia|lia]).
  assert (He : is_Some (node_at maze e)) by (apply grid_point; [exact Hwf|lia|lia]).
  destruct (returned_path_shape maze s e p1 Hret1) as (Hhead & _).
  destruct (returned_path_distances 20 20 maze s e p1 Hwf Hs He (Hclear s) Hret1)
    as (g & _ & _ & Hall).
  assert (Hnd : NoDup p1).
  { apply NoDup_alt. intros i j c Hi Hj. apply Hall in Hi. apply Hall in Hj. congruence. }
  unfold add_enemies_along_path.
  rewrite add_enemies_loop_frame by (apply head_not_interior; assumption).
  unfold maze1. rewrite (same_enemy _ maze s (astar_frame maze s e)). apply Hclear.
Qed.

(** The attempt that draws. *)
Lemma attempt_drawn (maze : Maze) sp ep rr cc ds2 p1 p2 ds3 d :
  wf_maze 20 20 maze -> (forall p, enemy_of maze p = false) ->
  start_position sp -> end_position ep ->
  (21 <= rr <= 30 /\ 21 <= cc <= 30)%Z ->
  snd (astar maze (index_of sp) (index_of ep)) = Ret (Some p1) ->
  snd (add_enemies_along_path (fst (astar maze (index_of sp) (index_of ep))) p1 2 ds2)
    = Ret (2, ds3) ->
  snd (astar (fst (add_enemies_along_path
                     (fst (astar maze (index_of sp) (index_of ep))) p1 2 ds2))
         (index_of sp) (index_of ep)) = Ret (Some p2) ->
  visualize_maze_svg
    (fst (astar (fst (add_enemies_along_path
                        (fst (astar maze (index_of sp) (index_of ep))) p1 2 ds2))
            (index_of sp) (index_of ep))) p1 sp ep p2 = Ret d ->
  drawn d sp ep rr cc p1 p2.
Proof.
  intros Hwf Hclear Hsp Hep Hsizes Hret1 Hadd Hret2 Hd.
  pose proof (index_of_start sp Hsp) as Hs'. pose proof (index_of_end ep Hep) as He'.
  set (s := index_of sp) in *. set (e := index_of ep) in *.
  set (maze1 := fst (astar maze s e)) in *.
  set (maze2 := fst (add_enemies_along_path maze1 p1 2 ds2)) in *.
  set (maze3 := fst (astar maze2 s e)) in *.
  assert (Hs : is_Some (node_at maze s)) by (apply grid_point; [exact Hwf|lia|lia]).
  assert (He : is_Some (node_at maze e)) by (apply grid_point; [exact Hwf|lia|lia]).
  pose proof (astar_frame maze s e) as F1. fold maze1 in F1.
  pose proof (astar_frame maze2 s e) as F3. fold maze3 in F3.
  assert (Hwf1 : wf_maze 20 20 maze1) by (eapply same_wf; eauto).
  assert (Hwf2 : wf_maze 20 20 maze2) by (apply add_enemies_loop_wf, Hwf1).
  assert (Hwf3 : wf_maze 20 20 maze3) by (eapply same_wf; eauto).
  pose proof (returned_path_route 20 20 maze s e p1 Hwf Hs (Hclear s) Hret1) as Hroute1.
  pose proof (border_route_long maze sp ep p1 Hwf Hsp Hep Hroute1) as Hlong.
  destruct (returned_path_distances 20 20 maze s e p1 Hwf Hs He (Hclear s) Hret1)
    as (g & _ & _ & Hall).
  assert (Hnd : NoDup p1).
  { apply NoDup_alt. intros i j c Hi Hj. apply Hall in Hi. apply Hall in Hj. congruence. }
  assert (E : add_enemies_along_path maze1 p1 2 ds2 = (maze2, Ret (2, ds3))).
  { rewrite <- Hadd. apply surjective_pairing. }
  assert (Hclear1 : forall p, enemy_of maze1 p = false).
  { intros p. rewrite (same_enemy maze1 maze p F1). apply Hclear. }
  destruct (add_two_enemies maze1 p1 ds2 maze2 ds3 Hclear1 E)
    as (q1 & q2 & Hne & Hq1 & Hq2 & Hen).
  assert (Hkeep := fun p => add_enemies_loop_keeps 2 maze1 p1 0 ds2 p).
  fold (add_enemies_along_path maze1 p1 2 ds2) in Hkeep. fold maze2 in Hkeep.
  destruct Hroute1 as (R1 & R2 & R3 & R4).
  pose proof (start_stays_free maze sp ep p1 ds2 ds3 Hwf Hclear Hsp Hep Hret1 Hadd)
    as Hfree2.
  assert (Hs2 : is_Some (node_at maze2 s)).
  { destruct (Hkeep s) as (_ & _ & _ & H & _). apply H, (same_cells maze1 maze s F1), Hs. }
  pose proof (returned_path_route 20 20 maze2 s e p2 Hwf2 Hs2 Hfree2 Hret2) as Hroute2.
  destruct (replanned_path 20 20 maze s e p1 2 ds2 p2 Hwf Hs He (Hclear s) Hret1 Hret2)
    as (Hlen & _ & Hother).
  exists maze3. split; [exact Hwf3|]. split; [exact Hd|]. split; [exact Hsizes|].
  split; [exact Hsp|]. split; [exact Hep|]. split; [|split; [|split; [|split]]].
  - split; [exact R1|]. split; [exact R2|]. split; [|split; [exact Hnd|exact Hlong]].
    intros i a b Ha Hb. rewrite (same_neighbors maze3 maze2 a F3).
    destruct (Hkeep a) as (H & _). rewrite H, (same_neighbors maze1 maze a F1). eauto.
  - eapply route_same; eauto.
  - exact Hlen.
  - apply (Hother 2 ds3 Hadd). lia.
  - exists q1, q2. split; [exact Hne|]. split; [exact Hq1|]. split; [exact Hq2|].
    intros p. rewrite (same_enemy maze3 maze2 p F3). apply Hen.
Qed.

(** A line of failure and the call that follows it. *)
Lemma retry_runs m (r' : list event * outcome unit) :
  retry_message m -> run (fst r') (snd r') ->
  run (printed msg_generating :: fst (handle (printed m :: fst r', snd r')))
      (snd (handle (printed m :: fst r', snd r'))).
Proof.
  intros Hm Hr. rewrite handle_keeps.
  - cbn [fst snd]. apply run_again; assumption.
  - cbn [snd]. eapply run_no_raise; eauto.
Qed.

(** Every call goes one of the three ways. *)
Lemma workflow_runs depth : forall ds,
  run (fst (generate_a_new_maze depth ds)) (snd (generate_a_new_maze depth ds)).
Proof.
  induction depth as [|depth IH]; intros ds.
  { apply run_cut. left. reflexivity. }
  cbn [generate_a_new_maze].
  pose proof (draw_sizes_cases ds) as H1.
  destruct (draw_sizes ds) as [[[rr cc] ds1]|x|];
    [|destruct H1|apply run_cut; left; reflexivity].
  pose proof (draw_maze_and_points_cases ds1) as H2.
  destruct (draw_maze_and_points ds1) as [[[[maze sp] ep] ds2]|x|];
    [|destruct H2|apply run_cut; right; reflexivity].
  destruct H2 as (Hwf & Hclear & Hsp & Hep). cbv zeta.
  pose proof (index_of_start sp Hsp) as Hs'. pose proof (index_of_end ep Hep) as He'.
  assert (Hs : is_Some (node_at maze (index_of sp)))
    by (apply grid_point; [exact Hwf|lia|lia]).
  assert (He : is_Some (node_at maze (index_of ep)))
    by (apply grid_point; [exact Hwf|lia|lia]).
  destruct (astar_total 20 20 maze (index_of sp) (index_of ep) Hwf Hs He
              (Hclear (index_of sp))) as [(p1 & Hret1 & Hroute1)|[Hret1 _]];
    rewrite Hret1; [|apply retry_runs; [left; reflexivity|apply IH]].
  pose proof (border_route_long maze sp ep p1 Hwf Hsp Hep Hroute1) as Hlong.
  pose proof (astar_frame maze (index_of sp) (index_of ep)) as F1.
  assert (Hin1 : forall p, In p p1 ->
             is_Some (node_at (fst (astar maze (index_of sp) (index_of ep))) p)).
  { intros p Hp. apply (same_cells _ maze p F1).
    destruct Hroute1 as (_ & _ & R3 & _). apply R3, Hp. }
  pose proof (fun x => add_enemies_loop_no_raise 2
                (fst (astar maze (index_of sp) (index_of ep))) p1 0 ds2 x Hlong Hin1)
    as Hnoraise.
  fold (add_enemies_along_path (fst (astar maze (index_of sp) (index_of ep))) p1 2 ds2)
    in Hnoraise.
  destruct (snd (add_enemies_along_path
                   (fst (astar maze (index_of sp) (index_of ep))) p1 2 ds2))
    as [[k ds3]|x|] eqn:Hadd;
    [|destruct (Hnoraise x eq_refl)|apply run_cut; right; reflexivity].
  destruct (Nat.eqb_spec k 2) as [->|Hk];
    [|apply retry_runs; [right; left; reflexivity|apply IH]].
  set (maze2 := fst (add_enemies_along_path
                       (fst (astar maze (index_of sp) (index_of ep))) p1 2 ds2)) in *.
  assert (Hwf2 : wf_maze 20 20 maze2).
  { apply add_enemies_loop_wf. eapply same_wf; eauto. }
  destruct (snd (astar maze2 (index_of sp) (index_of ep))) as [[p2|]|x|] eqn:Hret2.
  - pose proof (astar_frame maze2 (index_of sp) (index_of ep)) as F3.
    assert (Hwf3 : wf_maze 20 20 (fst (astar maze2 (index_of sp) (index_of ep))))
      by (eapply same_wf; eauto).
    destruct (visualize_maze_svg (fst (astar maze2 (index_of sp) (index_of ep)))
                p1 sp ep p2) as [d|x|] eqn:Hd.
    + rewrite handle_keeps by (intros x; discriminate). cbn [fst snd].
      apply run_drawn.
      exact (attempt_drawn maze sp ep rr cc ds2 p1 p2 ds3 d Hwf Hclear Hsp Hep H1
               Hret1 Hadd Hret2 Hd).
    + exfalso. unfold visualize_maze_svg in Hd.
      destruct (fst (astar maze2 (index_of sp) (index_of ep))) as [|row0 m] eqn:Em;
        [|discriminate].
      pose proof (wf_rows _ _ _ Hwf3) as Hr. discriminate.
    + exfalso. unfold visualize_maze_svg in Hd.
      destruct (fst (astar maze2 (index_of sp) (index_of ep))); discriminate.
  - apply retry_runs; [right; right; reflexivity|apply IH].
  - exfalso.
    destruct (astar_total 20 20 maze2 (index_of sp) (index_of ep) Hwf2
                ltac:(apply grid_point; [exact Hwf2|lia|lia])
                ltac:(apply grid_point; [exact Hwf2|lia|lia])
                (start_stays_free maze sp ep p1 ds2 ds3 Hwf Hclear Hsp Hep Hret1 Hadd))
      as [(p & Hp & _)|[Hp _]]; congruence.
  - exfalso.
    destruct (astar_total 20 20 maze2 (index_of sp) (index_of ep) Hwf2
                ltac:(apply grid_point; [exact Hwf2|lia|lia])
                ltac:(apply grid_point; [exact Hwf2|lia|lia])
                (start_stays_free maze sp ep p1 ds2 ds3 Hwf Hclear Hsp Hep Hret1 Hadd))
      as [(p & Hp & _)|[Hp _]]; congruence.
Qed.

Lemma run_no_error t o : run t o -> forall x, ~ In (printed (msg_error x)) t.
Proof.
  induction 1 as [t [->| ->]|m t o Hm _ IH|d sp ep rr cc p1 p2 _]; intros x Hin.
  - destruct Hin.
  - destruct Hin as [Hin|[]]. discriminate.
  - destruct Hin as [Hin|[Hin|Hin]]; [discriminate| |eapply IH; eauto].
    injection Hin as ->. destruct Hm as [Hm|[Hm|Hm]]; discriminate.
  - cbn in Hin. repeat (destruct Hin as [Hin|Hin]; [discriminate|]). destruct Hin.
Qed.

(** X22. [generate_a_new_maze] never raises and never prints the line
    'Error: ...': no call it makes raises [ValueError] or [IndexError] on its
    grid of 20 rows and 20 columns, at any depth of the retries and whatever
    the draws; the handler of [ValueError] is never entered. *)
Theorem workflow_never_fails (depth : nat) (ds : list nat) (x : exn) :
  snd (generate_a_new_maze depth ds) <> Raise x /\
  ~ In (printed (msg_error x)) (fst (generate_a_new_maze depth ds)).
Proof.
  pose proof (workflow_runs depth ds) as H. split.
  - eapply run_no_raise; eauto.
  - eapply run_no_error; eauto.
Qed.

(** The view box of the drawing of a grid of 20 rows and 20 columns. *)
Lemma drawn_viewbox (maze : Maze) p1 sp ep p2 d :
  wf_maze 20 20 maze -> visualize_maze_svg maze p1 sp ep p2 = Ret d ->
  viewbox d = (0, 0, 752, 402)%Z.
Proof.
  intros Hwf Hd. unfold visualize_maze_svg in Hd.
  destruct maze as [|row0 m]; [discriminate|].
  pose proof (wf_rows _ _ _ Hwf) as Hr. pose proof (wf_cols _ _ _ Hwf 0 row0 eq_refl) as Hc.
  injection Hd as <-. cbn [viewbox length] in *. rewrite Hc, Hr. reflexivity.
Qed.

Lemma run_report t o :
  run t o ->
  (forall n, In (printed (msg_rows n)) t -> (21 <= n <= 30)%Z) /\
  (forall n, In (printed (msg_columns n)) t -> (21 <= n <= 30)%Z) /\
  (forall n, In (printed (msg_enemies n)) t -> n = 0) /\
  (forall d, In (saved d) t ->
     viewbox d = (0, 0, 752, 402)%Z /\
     exists q1 q2 : coord, q1 <> q2 /\
       forall r c,
         In (bomb (Z.of_nat c * cell_size) (Z.of_nat r * cell_size)) (elements d) <->
         (r, c) = q1 \/ (r, c) = q2).
Proof.
  induction 1 as [t [->| ->]|m t o Hm _ IH|d sp ep rr cc p1 p2 Hd].
  - split; [|split; [|split]]; intros ? [].
  - split; [|split; [|split]]; intros ? [H|[]]; discriminate.
  - destruct IH as (I1 & I2 & I3 & I4).
    assert (Hm' : forall m', printed m = printed m' -> retry_message m')
      by (intros m' [= <-]; exact Hm).
    split; [|split; [|split]].
    + intros n [H|[H|H]]; [discriminate| |auto].
      apply Hm' in H. destruct H as [H|[H|H]]; discriminate.
    + intros n [H|[H|H]]; [discriminate| |auto].
      apply Hm' in H. destruct H as [H|[H|H]]; discriminate.
    + intros n [H|[H|H]]; [discriminate| |auto].
      apply Hm' in H. destruct H as [H|[H|H]]; discriminate.
    + intros d [H|[H|H]]; [discriminate|discriminate|auto].
  - destruct Hd as (maze & Hwf & Hd & [Hrr Hcc] & _ & _ & _ & _ & _ & _ & Hen).
    split; [|split; [|split]].
    + intros n Hin. cbn in Hin.
      destruct Hin as [H|[H|[H|[H|[H|[H|[H|[H|[H|[]]]]]]]]]]; try discriminate.
      injection H as <-. exact Hrr.
    + intros n Hin. cbn in Hin.
      destruct Hin as [H|[H|[H|[H|[H|[H|[H|[H|[H|[]]]]]]]]]]; try discriminate.
      injection H as <-. exact Hcc.
    + intros n Hin. cbn in Hin.
      destruct Hin as [H|[H|[H|[H|[H|[H|[H|[H|[H|[]]]]]]]]]]; try discriminate.
      injection H as <-. reflexivity.
    + intros d' Hin. cbn in Hin.
      destruct Hin as [H|[H|[H|[H|[H|[H|[H|[H|[H|[]]]]]]]]]]; try discriminate.
      injection H as <-. split; [eapply drawn_viewbox; eauto|].
      destruct Hen as (q1 & q2 & Hne & _ & _ & Hen). exists q1, q2.
      split; [exact Hne|]. intros r c.
      rewrite (bomb_in_drawing _ _ _ _ _ _ _ _ Hd), bomb_of_enemy. apply Hen.
Qed.

(** X23. The report of [generate_a_new_maze] does not describe the maze it
    draws: the rows and columns it prints are numbers of [21 .. 30] and the
    number of enemies it prints is 0, while every drawing it saves is the
    drawing of 20 rows and 20 columns (the view box is 752 by 402) with a
    bomb in two cells exactly. *)
Theorem workflow_report (depth : nat) (ds : list nat) :
  (forall n, In (printed (msg_rows n)) (fst (generate_a_new_maze depth ds)) ->
             (21 <= n <= 30)%Z) /\
  (forall n, In (printed (msg_columns n)) (fst (generate_a_new_maze depth ds)) ->
             (21 <= n <= 30)%Z) /\
  (forall n, In (printed (msg_enemies n)) (fst (generate_a_new_maze depth ds)) ->
             n = 0) /\
  (forall d, In (saved d) (fst (generate_a_new_maze depth ds)) ->
     viewbox d = (0, 0, 752, 402)%Z /\
     exists q1 q2 : coord, q1 <> q2 /\
       forall r c,
         In (bomb (Z.of_nat c * cell_size) (Z.of_nat r * cell_size)) (elements d) <->
         (r, c) = q1 \/ (r, c) = q2).
Proof. apply (run_report _ _ (workflow_runs depth ds)). Qed.

Lemma run_returns t o :
  run t o ->
  (forall d, In (saved d) t -> o = Ret tt) /\
  (o = Ret tt ->
   exists before d start_point end_point rr cc p1 p2,
     t = before ++ printed msg_generating :: saved d ::
                   report start_point end_point rr cc 0 p1 p2 /\
     (forall d', ~ In (saved d') before) /\
     (forall m, In (printed m) before -> m = msg_generating \/ retry_message m) /\
     drawn d start_point end_point rr cc p1 p2).
Proof.
  induction 1 as [t [->| ->]|m t o Hm _ [IH1 IH2]|d sp ep rr cc p1 p2 Hd].
  - split; [intros ? []|discriminate].
  - split; [intros ? [H|[]]; discriminate|discriminate].
  - split.
    + intros d [H|[H|H]]; [discriminate|discriminate|eauto].
    + intros Ho. destruct (IH2 Ho) as (before & d & sp & ep & rr & cc & p1 & p2
                                       & -> & Hb1 & Hb2 & Hd).
      exists (printed msg_generating :: printed m :: before), d, sp, ep, rr, cc, p1, p2.
      split; [reflexivity|]. split; [|split; [|exact Hd]].
      * intros d' [H|[H|H]]; [discriminate|discriminate|eapply Hb1; eauto].
      * intros m' [H|[H|H]]; [injection H as <-; auto|injection H as <-; auto|auto].
  - split; [reflexivity|]. intros _.
    exists [], d, sp, ep, rr, cc, p1, p2. split; [reflexivity|].
    split; [intros ? []|]. split; [intros ? []|exact Hd].
Qed.

(** X24. When [generate_a_new_maze] returns, what it has printed and saved
    is this: attempts that end with a line of failure and save nothing, then
    one attempt that saves a drawing and prints the report.  The drawing is
    the one of a grid with exactly two obstacle cells, both between the ends
    of the first path of the report; the second path is a route of that grid
    from the start point to the end point that avoids them; it is not shorter
    than the first path and it is another path.  A drawing is saved only by a
    call that returns. *)
Theorem workflow_returns (depth : nat) (ds : list nat) :
  snd (generate_a_new_maze depth ds) = Ret tt ->
  exists before d start_point end_point rr cc p1 p2,
    fst (generate_a_new_maze depth ds)
    = before ++ printed msg_generating :: saved d ::
                report start_point end_point rr cc 0 p1 p2 /\
    (forall d', ~ In (saved d') before) /\
    (forall m, In (printed m) before -> m = msg_generating \/ retry_message m) /\
    drawn d start_point end_point rr cc p1 p2.
Proof. apply (run_returns _ _ (workflow_runs depth ds)). Qed.

Lemma workflow_returns_witness :
  exists before d start_point end_point rr cc p1 p2,
    fst (generate_a_new_maze 1 ([0; 0] ++ repeat 0 760 ++ [0; 0; 1; 0; 1]))
    = before ++ printed msg_generating :: saved d ::
                report start_point end_point rr cc 0 p1 p2 /\
    (forall d', ~ In (saved d') before) /\
    (forall m, In (printed m) before -> m = msg_generating \/ retry_message m) /\
    drawn d start_point end_point rr cc p1 p2.
Proof.
  apply (workflow_returns 1 ([0; 0] ++ repeat 0 760 ++ [0; 0; 1; 0; 1])).
  vm_compute. reflexivity.
Defined.


(** * The priority queue of the search *)

(** X25. The queue of [astar] under the comparison of its entries, the
    tuples [(f, g, node)] with [MazeNode.__lt__] for the nodes: whatever the
    distances of the nodes are at the time, [heappush] and [heappop] keep the
    entries, and on an array that is a heap for the order by [f], then [g],
    they leave such a heap and [heappop] returns an entry that no entry of
    the queue precedes in this order. *)
Theorem queue_pops_least (maze : Maze) (pq : list entry) :
  heap_ordered key_le pq ->
  (forall item,
     heap_ordered key_le (heappush (entry_lt maze) pq item) /\
     Permutation (item :: pq) (heappush (entry_lt maze) pq item)) /\
  (forall x rest,
     heappop (entry_lt maze) pq = Some (x, rest) ->
     heap_ordered key_le rest /\ Permutation pq (x :: rest) /\
     forall y, In y pq -> key_le x y).
Proof.
  intros Hord. split.
  - intros item. split; [|apply heappush_items].
    apply (heappush_ordered _ key_le key_le_trans (entry_lt_key_le maze)
             (entry_lt_false_key_le maze)). exact Hord.
  - intros x rest Hpop.
    destruct (heappop_ordered (entry_lt maze) key_le key_le_trans
                (entry_lt_key_le maze) (entry_lt_false_key_le maze) pq x rest Hord Hpop)
      as [Hrest Hroot].
    split; [exact Hrest|]. split; [eapply heappop_items; eauto|].
    apply (heap_root_least (entry_lt maze) key_le key_le_trans
             (entry_lt_key_le maze) (entry_lt_false_key_le maze) pq x Hord Hroot).
Qed.

Lemma queue_pops_least_witness :
  (forall item,
     heap_ordered key_le (heappush (entry_lt corner_maze) (initial_queue (1, 0) (0, 1)) item) /\
     Permutation (item :: initial_queue (1, 0) (0, 1))
       (heappush (entry_lt corner_maze) (initial_queue (1, 0) (0, 1)) item)) /\
  (forall x rest,
     heappop (entry_lt corner_maze) (initial_queue (1, 0) (0, 1)) = Some (x, rest) ->
     heap_ordered key_le rest /\ Permutation (initial_queue (1, 0) (0, 1)) (x :: rest) /\
     forall y, In y (initial_queue (1, 0) (0, 1)) -> key_le x y).
Proof.
  apply (queue_pops_least corner_maze (initial_queue (1, 0) (0, 1))).
  intros i p c Hi _ Hc. destruct i; [lia|discriminate].
Defined.

